(** * Options contract selection ([findBestOptionsContract])

    A shallow embedding of the options utilities of the default strategy:
    the expiration selector, the strike target estimator and the candidate
    qualifier, together with the sequence of provider calls they make.

    Conventions of the embedding.
    - A JavaScript [number] is an exact rational ([Q]): arithmetic is the
      ideal one, without binary64 rounding, [NaN] or infinities.  A number
      that may be [undefined] is an [option Q].
    - [new Date(s).getTime()] is a function of the runtime from strings to
      [option Z] (milliseconds since the epoch, [None] for an invalid date,
      whose time value is [NaN]); [new Date()] is the clock reading
      [Date_now].
    - An awaited provider call either resolves to a value or rejects; the
      four provider operations are functions from their arguments to such an
      outcome (contract symbols are unique within a chain, so this leaves
      the behaviour of each fetch free).  [ctx.log] appends to the trace and
      does not fail.  The trace records every provider call and every log
      event, in order.

    The properties that depend on how binary64 numbers round, on the
    difference between [null] and [undefined], or on a logger that throws
    are stated on a second embedding of the same function, the module [Js]
    below: the ranking, the candidate qualifier and its sizing, and the
    catch clause. *)

From Stdlib Require Import Floats.
From Stdlib Require Import ZArith QArith Qround Qabs List String Bool Lia Lqa.
From Stdlib Require Import Permutation Sorted.
Import ListNotations.

Local Open Scope Q_scope.

(** ** Numbers *)

(** [x < y] on numbers, as a boolean. *)
Definition Qltb (x y : Q) : bool := negb (Qle_bool y x).

(** [a || b] on possibly-missing numbers: [a] unless it is falsy
    ([undefined] or [0]). *)
Definition or_else (a b : option Q) : option Q :=
  match a with
  | Some x => if Qeq_bool x 0 then b else Some x
  | None => b
  end.

(** [a || 0]. *)
Definition or_zero (a : option Q) : Q :=
  match a with
  | Some x => if Qeq_bool x 0 then 0 else x
  | None => 0
  end.

(** Optional chaining [o?.f]. *)
Definition chain {A B : Type} (o : option A) (f : A -> option B) : option B :=
  match o with
  | Some a => f a
  | None => None
  end.

(** ** Data model *)

Inductive Direction : Type := bullish | bearish.

Inductive OptionType : Type := call | put.

(** The result record of the module. *)
Record OptionsContract : Type := mkOptionsContract {
  symbol : string;
  strike : Q;
  expiration : string;
  delta : Q;
  mid_price : Q;
  max_contracts : Z;
  option_type : OptionType
}.

(** The fields of [ctx.config] read by the module. *)
Record Config : Type := mkConfig {
  options_enabled : bool;
  options_max_pct_per_trade : Q;
  options_min_dte : Q;
  options_max_dte : Q;
  options_target_delta : Q;
  options_min_delta : Q;
  options_max_delta : Q
}.

(** Underlying snapshot, as far as the module reads it. *)
Record Trade : Type := mkTrade { price : option Q }.

Record Quote : Type := mkQuote { bid_price : option Q; ask_price : option Q }.

Record Snapshot : Type := mkSnapshot {
  latest_trade : option Trade;
  latest_quote : option Quote
}.

(** Contract snapshot. *)
Record Greeks : Type := mkGreeks { greeks_delta : option Q }.

Record OptionSnapshot : Type := mkOptionSnapshot {
  greeks : option Greeks;
  option_latest_quote : option Quote
}.

(** A contract of the chain. *)
Record OptionContract : Type := mkOptionContract {
  contract_symbol : string;
  contract_strike : Q
}.

Record OptionsChain : Type := mkOptionsChain {
  calls : option (list OptionContract);
  puts : option (list OptionContract)
}.

(** ** Effects *)

(** The outcome of an awaited promise. *)
Inductive outcome (A : Type) : Type :=
| Resolved (a : A)
| Rejected (err : string).

Arguments Resolved {A} a.
Arguments Rejected {A} err.

Definition is_rejected {A : Type} (r : outcome A) : bool :=
  match r with
  | Resolved _ => false
  | Rejected _ => true
  end.

Inductive Call : Type :=
| GetExpirations (underlying : string)
| GetChain (underlying expiry : string)
| GetUnderlyingSnapshot (underlying : string)
| GetOptionSnapshot (contractSymbol : string).

Inductive Event : Type :=
| Called (c : Call) (failed : bool)
| Logged (category event : string).

Definition Trace : Type := list Event.

(** [createAlpacaProviders(ctx.env)]: the four operations the module uses. *)
Record AlpacaProviders : Type := mkAlpacaProviders {
  options_getExpirations : string -> outcome (option (list string));
  options_getChain : string -> string -> outcome (option OptionsChain);
  marketData_getSnapshot : string -> outcome (option Snapshot);
  options_getSnapshot : string -> outcome (option OptionSnapshot)
}.

Record StrategyContext : Type := mkStrategyContext {
  config : Config;
  env : AlpacaProviders
}.

Record Runtime : Type := mkRuntime {
  Date_now : Z;
  Date_getTime : string -> option Z
}.

(** Computations that extend the trace and end in a value or an exception. *)
Definition M (A : Type) : Type := Trace -> outcome A * Trace.

Definition ret {A : Type} (a : A) : M A := fun t => (Resolved a, t).

Definition bind {A B : Type} (m : M A) (k : A -> M B) : M B :=
  fun t =>
    match m t with
    | (Resolved a, t') => k a t'
    | (Rejected e, t') => (Rejected e, t')
    end.

Notation "x <- m ;; k" := (bind m (fun x => k))
  (at level 61, m at next level, right associativity).
Notation "m ;;; k" := (bind m (fun _ => k))
  (at level 61, right associativity).

(** [await p] for the provider call [c] whose promise settles as [r]. *)
Definition await {A : Type} (c : Call) (r : outcome A) : M A :=
  fun t => (r, t ++ [Called c (is_rejected r)]).

(** [await p.catch(() => a)]. *)
Definition await_catch {A : Type} (c : Call) (r : outcome A) (a : A) : M A :=
  fun t =>
    (match r with
     | Resolved v => Resolved v
     | Rejected _ => Resolved a
     end, t ++ [Called c (is_rejected r)]).

(** [ctx.log(category, event, data)]. *)
Definition log (category event : string) : M unit :=
  fun t => (Resolved tt, t ++ [Logged category event]).

(** [try { body } catch (error) { handler }]. *)
Definition try_catch {A : Type} (body : M A) (handler : string -> M A) : M A :=
  fun t =>
    match body t with
    | (Resolved a, t') => (Resolved a, t')
    | (Rejected e, t') => handler e t'
    end.

(** ** Expiration selector *)

Definition MS_PER_DAY : Z := 1000 * 60 * 60 * 24.

(** [Math.ceil((expDate.getTime() - today.getTime()) / (1000*60*60*24))];
    [None] is [NaN]. *)
Definition dte_of (rt : Runtime) (today : Z) (exp : string) : option Z :=
  match Date_getTime rt exp with
  | Some t => Some (Qceiling (inject_Z (t - today) / inject_Z MS_PER_DAY))
  | None => None
  end.

(** The predicate of [expirations.filter]. *)
Definition in_window (rt : Runtime) (cfg : Config) (today : Z) (exp : string) : bool :=
  match dte_of rt today exp with
  | Some dte =>
      Qle_bool (options_min_dte cfg) (inject_Z dte)
      && Qle_bool (inject_Z dte) (options_max_dte cfg)
  | None => false
  end.

Definition validExpirations (rt : Runtime) (cfg : Config) (today : Z)
    (expirations : list string) : list string :=
  filter (in_window rt cfg today) expirations.

Definition targetDTE (cfg : Config) : Q :=
  (options_min_dte cfg + options_max_dte cfg) / 2.

(** [Math.abs(dte - targetDTE) < Math.abs(currentBestDte - targetDTE)];
    a comparison with [NaN] is false. *)
Definition closer (rt : Runtime) (cfg : Config) (today : Z) (exp best : string) : bool :=
  match dte_of rt today exp, dte_of rt today best with
  | Some dte, Some currentBestDte =>
      Qltb (Qabs (inject_Z dte - targetDTE cfg))
           (Qabs (inject_Z currentBestDte - targetDTE cfg))
  | _, _ => false
  end.

(** The callback of [validExpirations.reduce]. *)
Definition pick (rt : Runtime) (cfg : Config) (today : Z) (best exp : string) : string :=
  if closer rt cfg today exp best then exp else best.

(** [validExpirations.reduce(pick, validExpirations[0])], for a non-empty
    array whose first element is [first]. *)
Definition bestExpiration (rt : Runtime) (cfg : Config) (today : Z)
    (valid : list string) (first : string) : string :=
  fold_left (pick rt cfg today) valid first.

(** The first stage as a whole: [None] when no expiration is in the window. *)
Definition selectExpiration (rt : Runtime) (cfg : Config) (today : Z)
    (expirations : list string) : option string :=
  match validExpirations rt cfg today expirations with
  | [] => None
  | first :: rest => Some (bestExpiration rt cfg today (first :: rest) first)
  end.

(** ** Strike target estimator *)

(** [snapshot?.latest_trade?.price || snapshot?.latest_quote?.ask_price ||
    snapshot?.latest_quote?.bid_price || 0]. *)
Definition stockPrice (snapshot : option Snapshot) : Q :=
  or_zero
    (or_else
       (or_else (chain (chain snapshot latest_trade) price)
                (chain (chain snapshot latest_quote) ask_price))
       (chain (chain snapshot latest_quote) bid_price)).

Definition targetStrike (direction : Direction) (stockPrice : Q) (cfg : Config) : Q :=
  match direction with
  | bullish => stockPrice * (1 - (options_target_delta cfg - 0.5) * 0.2)
  | bearish => stockPrice * (1 + (options_target_delta cfg - 0.5) * 0.2)
  end.

(** [Array.prototype.sort(compareFn)] is a stable sort: an element moves
    in front of another only when [compareFn] orders it strictly before. *)
Fixpoint sort_insert {A : Type} (compareFn : A -> A -> Q) (x : A) (l : list A) : list A :=
  match l with
  | [] => [x]
  | y :: l' =>
      if Qltb 0 (compareFn x y) then y :: sort_insert compareFn x l'
      else x :: y :: l'
  end.

Fixpoint Array_sort {A : Type} (compareFn : A -> A -> Q) (l : list A) : list A :=
  match l with
  | [] => []
  | x :: l' => sort_insert compareFn x (Array_sort compareFn l')
  end.

(** [Math.abs(c.strike - targetStrike)]. *)
Definition distance (target : Q) (c : OptionContract) : Q :=
  Qabs (contract_strike c - target).

Definition by_distance (target : Q) (a b : OptionContract) : Q :=
  distance target a - distance target b.

Definition positive_strike (c : OptionContract) : bool :=
  Qltb 0 (contract_strike c).

Definition sortedContracts (contracts : list OptionContract) (target : Q)
    : list OptionContract :=
  Array_sort (by_distance target) (filter positive_strike contracts).

(** ** Candidate qualifier *)

(** The gates of one loop iteration, from the fetched snapshot to the
    figures of the result: [None] is [continue]. *)
Definition qualify (cfg : Config) (equity : Q) (optSnapshot : option OptionSnapshot)
    : option (Q * Q * Z) :=
  match optSnapshot with
  | None => None
  | Some s =>
      match chain (greeks s) greeks_delta with
      | None => None
      | Some d =>
          let absDelta := Qabs d in
          if Qltb absDelta (options_min_delta cfg)
             || Qltb (options_max_delta cfg) absDelta
          then None
          else
            let bid := or_zero (chain (option_latest_quote s) bid_price) in
            let ask := or_zero (chain (option_latest_quote s) ask_price) in
            if Qeq_bool bid 0 || Qeq_bool ask 0 then None
            else
              let spread := (ask - bid) / ask in
              if Qltb 0.1 spread then None
              else
                let midPrice := (bid + ask) / 2 in
                let maxCost := equity * options_max_pct_per_trade cfg in
                let maxContracts := Qfloor (maxCost / (midPrice * 100)) in
                if (maxContracts <? 1)%Z then None
                else Some (d, midPrice, maxContracts)
      end
  end.

Definition option_type_of (direction : Direction) : OptionType :=
  match direction with
  | bullish => call
  | bearish => put
  end.

(** The body of [for (const contract of sortedContracts.slice(0, 5))],
    followed by the [return null] after the loop. *)
Fixpoint probe (ctx : StrategyContext) (direction : Direction) (equity : Q)
    (bestExp : string) (candidates : list OptionContract) : M (option OptionsContract) :=
  match candidates with
  | [] => ret None
  | contract :: rest =>
      optSnapshot <- await (GetOptionSnapshot (contract_symbol contract))
                           (options_getSnapshot (env ctx) (contract_symbol contract)) ;;
      match qualify (config ctx) equity optSnapshot with
      | None => probe ctx direction equity bestExp rest
      | Some (d, midPrice, maxContracts) =>
          log "Options" "contract_selected" ;;;
          ret (Some {| symbol := contract_symbol contract;
                       strike := contract_strike contract;
                       expiration := bestExp;
                       delta := d;
                       mid_price := midPrice;
                       max_contracts := maxContracts;
                       option_type := option_type_of direction |})
      end
  end.

(** ** The engine *)

Definition contracts_of (direction : Direction) (c : OptionsChain)
    : option (list OptionContract) :=
  match direction with
  | bullish => calls c
  | bearish => puts c
  end.

(** The statements inside [try]. *)
Definition selection (rt : Runtime) (ctx : StrategyContext) (sym : string)
    (direction : Direction) (equity : Q) : M (option OptionsContract) :=
  expirations <- await (GetExpirations sym) (options_getExpirations (env ctx) sym) ;;
  match expirations with
  | None | Some [] => log "Options" "no_expirations" ;;; ret None
  | Some expirations =>
      let today := Date_now rt in
      match validExpirations rt (config ctx) today expirations with
      | [] => log "Options" "no_valid_expirations" ;;; ret None
      | first :: rest =>
          let bestExp := bestExpiration rt (config ctx) today (first :: rest) first in
          ch <- await (GetChain sym bestExp) (options_getChain (env ctx) sym bestExp) ;;
          match ch with
          | None => log "Options" "chain_failed" ;;; ret None
          | Some ch =>
              match contracts_of direction ch with
              | None | Some [] => log "Options" "no_contracts" ;;; ret None
              | Some contracts =>
                  snapshot <- await_catch (GetUnderlyingSnapshot sym)
                                (marketData_getSnapshot (env ctx) sym) None ;;
                  let stock := stockPrice snapshot in
                  if Qeq_bool stock 0 then ret None
                  else
                    let target := targetStrike direction stock (config ctx) in
                    probe ctx direction equity bestExp
                          (firstn 5 (sortedContracts contracts target))
              end
          end
      end
  end.

Definition findBestOptionsContract (rt : Runtime) (ctx : StrategyContext) (sym : string)
    (direction : Direction) (equity : Q) : M (option OptionsContract) :=
  if negb (options_enabled (config ctx)) then ret None
  else
    try_catch (selection rt ctx sym direction equity)
              (fun error => log "Options" "error" ;;; ret None).

(** One invocation, from an empty trace. *)
Definition invoke (rt : Runtime) (ctx : StrategyContext) (sym : string)
    (direction : Direction) (equity : Q) : outcome (option OptionsContract) * Trace :=
  findBestOptionsContract rt ctx sym direction equity [].

(** ** Notions used by the statements *)

(** The UTC midnight at or before the instant [t]. *)
Definition midnight (t : Z) : Z := t - t mod MS_PER_DAY.

(** The DTE of the specification, with both endpoints truncated to
    midnight: ceil((expiration_midnight - today_midnight) / 1 day). *)
Definition truncated_dte (t today : Z) : Z :=
  Qceiling (inject_Z (midnight t - midnight today) / inject_Z MS_PER_DAY).

(** [|DTE(exp) - targetDTE|], when the date is valid. *)
Definition gap (rt : Runtime) (cfg : Config) (today : Z) (exp : string) : option Q :=
  match dte_of rt today exp with
  | Some dte => Some (Qabs (inject_Z dte - targetDTE cfg))
  | None => None
  end.

(** [exp] is strictly closer to the target than [other]. *)
Definition strictly_closer (rt : Runtime) (cfg : Config) (today : Z) (exp other : string) : Prop :=
  exists g g', gap rt cfg today exp = Some g /\ gap rt cfg today other = Some g' /\ g < g'.

(** [exp] is at least as close to the target as [other]. *)
Definition as_close (rt : Runtime) (cfg : Config) (today : Z) (exp other : string) : Prop :=
  exists g g', gap rt cfg today exp = Some g /\ gap rt cfg today other = Some g' /\ g <= g'.

(** The comparator that orders by ascending [key]; [by_distance target] is
    [by_key (distance target)]. *)
Definition by_key {A : Type} (key : A -> Q) (a b : A) : Q := key a - key b.

(** What the qualifier reads from a snapshot. *)
Definition snapshot_delta (s : OptionSnapshot) : option Q :=
  chain (greeks s) greeks_delta.

Definition snapshot_bid (s : OptionSnapshot) : Q :=
  or_zero (chain (option_latest_quote s) bid_price).

Definition snapshot_ask (s : OptionSnapshot) : Q :=
  or_zero (chain (option_latest_quote s) ask_price).

(** The position size of the specification:
    floor(equity * maxPct / (midPrice * 100)). *)
Definition sizing (cfg : Config) (equity midPrice : Q) : Z :=
  Qfloor (equity * options_max_pct_per_trade cfg / (midPrice * 100)).

(** The gates before sizing: delta present and inside the band, a live
    two-sided quote, and a spread of at most 10%. *)
Definition passes_market_gates (cfg : Config) (s : OptionSnapshot) (d : Q) : Prop :=
  snapshot_delta s = Some d
  /\ options_min_delta cfg <= Qabs d /\ Qabs d <= options_max_delta cfg
  /\ ~ snapshot_bid s == 0 /\ ~ snapshot_ask s == 0
  /\ (snapshot_ask s - snapshot_bid s) / snapshot_ask s <= 0.1.

(** The rejection reasons of the specification, in its words: snapshot
    absent; greeks or delta absent; |delta| below min_delta or above
    max_delta; bid = 0 or ask = 0; (ask - bid) / ask > 0.10;
    maxContracts < 1. *)
Definition rejected (cfg : Config) (equity : Q) (optSnapshot : option OptionSnapshot) : Prop :=
  match optSnapshot with
  | None => True
  | Some s =>
      match greeks s with
      | None => True
      | Some g =>
          match greeks_delta g with
          | None => True
          | Some d =>
              Qabs d < options_min_delta cfg
              \/ options_max_delta cfg < Qabs d
              \/ snapshot_bid s == 0
              \/ snapshot_ask s == 0
              \/ 0.1 < (snapshot_ask s - snapshot_bid s) / snapshot_ask s
              \/ (sizing cfg equity ((snapshot_bid s + snapshot_ask s) / 2) < 1)%Z
          end
      end
  end.

(** The record returned for a qualifying candidate. *)
Definition selected (direction : Direction) (bestExp : string) (c : OptionContract)
    (d midPrice : Q) (maxContracts : Z) : OptionsContract :=
  {| symbol := contract_symbol c;
     strike := contract_strike c;
     expiration := bestExp;
     delta := d;
     mid_price := midPrice;
     max_contracts := maxContracts;
     option_type := option_type_of direction |}.

(** The trace entry of a snapshot fetch that resolved. *)
Definition fetched (c : OptionContract) : Event :=
  Called (GetOptionSnapshot (contract_symbol c)) false.

(** A candidate whose snapshot resolves and is turned down by the gates. *)
Definition turned_down (ctx : StrategyContext) (equity : Q) (c : OptionContract) : Prop :=
  exists s, options_getSnapshot (env ctx) (contract_symbol c) = Resolved s
            /\ rejected (config ctx) equity s.

(** The provider calls of a trace, in order. *)
Fixpoint calls_of (tr : Trace) : list Call :=
  match tr with
  | [] => []
  | Called c _ :: tr' => c :: calls_of tr'
  | Logged _ _ :: tr' => calls_of tr'
  end.

Definition is_GetExpirations (c : Call) : bool :=
  match c with GetExpirations _ => true | _ => false end.

Definition is_GetChain (c : Call) : bool :=
  match c with GetChain _ _ => true | _ => false end.

Definition is_GetUnderlyingSnapshot (c : Call) : bool :=
  match c with GetUnderlyingSnapshot _ => true | _ => false end.

Definition is_GetOptionSnapshot (c : Call) : bool :=
  match c with GetOptionSnapshot _ => true | _ => false end.

(** How many calls of one kind a trace holds. *)
Definition count_calls (kind : Call -> bool) (tr : Trace) : nat :=
  List.length (filter kind (calls_of tr)).

(** The call made for a candidate. *)
Definition fetch_of (c : OptionContract) : Call :=
  GetOptionSnapshot (contract_symbol c).

(** The value of [await p.catch(() => null)]. *)
Definition or_null {A : Type} (r : outcome (option A)) : option A :=
  match r with
  | Resolved v => v
  | Rejected _ => None
  end.

(** The first source, in the given order, that is present and not zero;
    [0] when there is none. *)
Fixpoint first_nonzero (sources : list (option Q)) : Q :=
  match sources with
  | [] => 0
  | Some x :: rest => if Qeq_bool x 0 then first_nonzero rest else x
  | None :: rest => first_nonzero rest
  end.

(** ** A worked market *)

Fixpoint lookup_date (s : string) (table : list (string * Z)) : option Z :=
  match table with
  | [] => None
  | (k, v) :: table' => if String.eqb s k then Some v else lookup_date s table'
  end.

(** Time values of the date strings of the example. *)
Definition example_dates : list (string * Z) :=
  [ ("2024-03-08"%string, 1709856000000%Z);
    ("2024-03-15"%string, 1710460800000%Z);
    ("2024-03-22"%string, 1711065600000%Z);
    ("2024-03-29"%string, 1711670400000%Z);
    ("2024-04-19"%string, 1713484800000%Z);
    ("2024-03-01T18:00:00Z"%string, 1709316000000%Z) ].

(** The clock reads 2024-03-01T15:30:00Z. *)
Definition example_runtime : Runtime :=
  {| Date_now := 1709307000000;
     Date_getTime := fun s => lookup_date s example_dates |}.

Definition example_config : Config :=
  {| options_enabled := true;
     options_max_pct_per_trade := 0.05;
     options_min_dte := 14;
     options_max_dte := 28;
     options_target_delta := 0.7;
     options_min_delta := 0.3;
     options_max_delta := 0.8 |}.

Definition example_expirations : list string :=
  [ "2024-03-08"; "2024-03-15"; "2024-03-22"; "2024-03-29"; "2024-04-19" ]%string.

(** The call side of the example chain; the third contract has no strike. *)
Definition example_calls : list OptionContract :=
  [ mkOptionContract "AAPL240322C00090000" 90;
    mkOptionContract "AAPL240322C00094000" 94;
    mkOptionContract "AAPL240322C00000000" 0;
    mkOptionContract "AAPL240322C00098000" 98;
    mkOptionContract "AAPL240322C00100000" 100;
    mkOptionContract "AAPL240322C00105000" 105;
    mkOptionContract "AAPL240322C00110000" 110;
    mkOptionContract "AAPL240322C00085000" 85 ].

Definition example_chain : OptionsChain :=
  {| calls := Some example_calls; puts := Some [] |}.

Definition example_underlying : Snapshot :=
  {| latest_trade := Some {| price := Some 100 |};
     latest_quote := Some {| bid_price := Some 99.9; ask_price := Some 100.1 |} |}.

Definition quoted (d bid ask : Q) : OptionSnapshot :=
  {| greeks := Some {| greeks_delta := Some d |};
     option_latest_quote := Some {| bid_price := Some bid; ask_price := Some ask |} |}.

(** Mid price 6.00 for the 94 strike, 4.80 for the 98 strike; no snapshot
    for the other contracts. *)
Definition example_option_snapshot (contractSymbol : string)
    : outcome (option OptionSnapshot) :=
  if String.eqb contractSymbol "AAPL240322C00094000"
  then Resolved (Some (quoted 0.62 5.90 6.10))
  else if String.eqb contractSymbol "AAPL240322C00098000"
  then Resolved (Some (quoted 0.55 4.70 4.90))
  else Resolved None.

Definition example_providers : AlpacaProviders :=
  {| options_getExpirations := fun _ => Resolved (Some example_expirations);
     options_getChain := fun _ _ => Resolved (Some example_chain);
     marketData_getSnapshot := fun _ => Resolved (Some example_underlying);
     options_getSnapshot := example_option_snapshot |}.

Definition example_ctx : StrategyContext :=
  {| config := example_config; env := example_providers |}.

(** The same market with a chain request that fails. *)
Definition failing_providers : AlpacaProviders :=
  {| options_getExpirations := fun _ => Resolved (Some example_expirations);
     options_getChain := fun _ _ => Rejected "503 Service Unavailable";
     marketData_getSnapshot := fun _ => Resolved (Some example_underlying);
     options_getSnapshot := example_option_snapshot |}.

Definition failing_ctx : StrategyContext :=
  {| config := example_config; env := failing_providers |}.

(** The same market with no usable underlying price. *)
Definition unpriced_providers : AlpacaProviders :=
  {| options_getExpirations := fun _ => Resolved (Some example_expirations);
     options_getChain := fun _ _ => Resolved (Some example_chain);
     marketData_getSnapshot := fun _ =>
       Resolved (Some {| latest_trade := None;
                         latest_quote := Some {| bid_price := Some 0;
                                                 ask_price := None |} |});
     options_getSnapshot := example_option_snapshot |}.

Definition unpriced_ctx : StrategyContext :=
  {| config := example_config; env := unpriced_providers |}.

(** ** Further notions: traces of an invocation *)

(** The log events of a trace, in order. *)
Fixpoint logs_of (tr : Trace) : list (string * string) :=
  match tr with
  | [] => []
  | Called _ _ :: tr' => logs_of tr'
  | Logged category event :: tr' => (category, event) :: logs_of tr'
  end.

(** The ways the statements under [try] end before the loop: the outcome
    and the trace of each [return null] and of each rejected call.  The
    chain is only ever requested for an expiration that is [chosen]. *)
Inductive early_exit (sym : string) (chosen : string -> Prop)
    : outcome (option OptionsContract) -> Trace -> Prop :=
| exit_expirations_failed (e : string) :
    early_exit sym chosen (Rejected e) [Called (GetExpirations sym) true]
| exit_no_expirations :
    early_exit sym chosen (Resolved None)
      [Called (GetExpirations sym) false; Logged "Options" "no_expirations"]
| exit_no_valid_expirations :
    early_exit sym chosen (Resolved None)
      [Called (GetExpirations sym) false; Logged "Options" "no_valid_expirations"]
| exit_chain_rejected (best e : string) :
    chosen best ->
    early_exit sym chosen (Rejected e)
      [Called (GetExpirations sym) false; Called (GetChain sym best) true]
| exit_chain_failed (best : string) :
    chosen best ->
    early_exit sym chosen (Resolved None)
      [Called (GetExpirations sym) false; Called (GetChain sym best) false;
       Logged "Options" "chain_failed"]
| exit_no_contracts (best : string) :
    chosen best ->
    early_exit sym chosen (Resolved None)
      [Called (GetExpirations sym) false; Called (GetChain sym best) false;
       Logged "Options" "no_contracts"]
| exit_no_price (best : string) (failed : bool) :
    chosen best ->
    early_exit sym chosen (Resolved None)
      [Called (GetExpirations sym) false; Called (GetChain sym best) false;
       Called (GetUnderlyingSnapshot sym) failed].

(** [best] is the expiration selected from what the provider lists. *)
Definition selected_expiration (rt : Runtime) (ctx : StrategyContext) (sym best : string)
    : Prop :=
  exists exps,
    options_getExpirations (env ctx) sym = Resolved (Some exps)
    /\ selectExpiration rt (config ctx) (Date_now rt) exps = Some best.

(** The three events before the loop, when every stage resolved. *)
Definition prelude (sym best : string) : Trace :=
  [Called (GetExpirations sym) false;
   Called (GetChain sym best) false;
   Called (GetUnderlyingSnapshot sym) false].

(** A contract strictly nearer to the target strike than [c]. *)
Definition nearer (target : Q) (c other : OptionContract) : bool :=
  Qltb (distance target other) (distance target c).

(** Every stage before the loop resolved: [best] is the selected
    expiration and [candidates] are the first five ranked contracts of the
    requested side. *)
Definition reaches_loop (rt : Runtime) (ctx : StrategyContext) (sym : string)
    (direction : Direction) (best : string) (candidates : list OptionContract) : Prop :=
  exists exps ch contracts snap,
    options_enabled (config ctx) = true
    /\ options_getExpirations (env ctx) sym = Resolved (Some exps)
    /\ selectExpiration rt (config ctx) (Date_now rt) exps = Some best
    /\ options_getChain (env ctx) sym best = Resolved (Some ch)
    /\ contracts_of direction ch = Some contracts
    /\ marketData_getSnapshot (env ctx) sym = Resolved snap
    /\ ~ stockPrice snap == 0
    /\ candidates
       = firstn 5 (sortedContracts contracts
                     (targetStrike direction (stockPrice snap) (config ctx))).


(** ** The Alpaca options provider

    The methods of [AlpacaOptionsProvider] that the engine calls, and the
    DTE helpers that stand beside them.  Each method is embedded from the
    point where its request has been answered: the answer of
    [getContracts] (the listed contracts, already parsed) and the answer of
    the snapshots request are arguments. *)

(** A JavaScript object used as a map from strings, by its entries in key
    order; the keys of an object are distinct. *)
Definition JsRecord (V : Type) : Type := list (string * V).

(** [o[k]]. *)
Fixpoint Record_get {V : Type} (o : JsRecord V) (k : string) : option V :=
  match o with
  | [] => None
  | (k', v) :: o' => if String.eqb k k' then Some v else Record_get o' k
  end.

(** [o[k] = v]: an existing key keeps its place, a new key goes last. *)
Fixpoint Record_set {V : Type} (o : JsRecord V) (k : string) (v : V) : JsRecord V :=
  match o with
  | [] => [(k, v)]
  | (k', v') :: o' =>
      if String.eqb k k' then (k', v) :: o' else (k', v') :: Record_set o' k v
  end.

(** A listed contract, with the fields the provider methods read. *)
Record ListedContract : Type := mkListedContract {
  listed_symbol : string;
  listed_expiration : string;
  listed_strike : Q;
  listed_type : OptionType
}.

(** The same contract as the engine reads it. *)
Definition as_candidate (c : ListedContract) : OptionContract :=
  {| contract_symbol := listed_symbol c; contract_strike := listed_strike c |}.

Record ListedChain : Type := mkListedChain {
  listed_calls : list ListedContract;
  listed_puts : list ListedContract
}.

(** [contract.type === "call"]. *)
Definition is_call (c : ListedContract) : bool :=
  match listed_type c with
  | call => true
  | put => false
  end.

(** [getChain], from the answer of [getContracts]: calls on one side, the
    other contracts on the other, each side sorted by strike. *)
Definition getChain (listing : outcome (list ListedContract)) : outcome ListedChain :=
  match listing with
  | Rejected e => Rejected e
  | Resolved contracts =>
      Resolved
        {| listed_calls :=
             Array_sort (fun a b => listed_strike a - listed_strike b)
                        (filter is_call contracts);
           listed_puts :=
             Array_sort (fun a b => listed_strike a - listed_strike b)
                        (filter (fun c => negb (is_call c)) contracts) |}
  end.

(** [set.add(x)] on a [Set] held in insertion order. *)
Definition Set_add (s : list string) (x : string) : list string :=
  if existsb (String.eqb x) s then s else s ++ [x].

(** The comparison of [sort()] without a comparator: the order of the
    strings by code unit (here by character code). *)
Definition default_compare (a b : string) : Q :=
  match String.compare a b with
  | Lt => -1
  | Eq => 0
  | Gt => 1
  end.

(** [getExpirations], from the answer of [getContracts]: the distinct
    expiration dates, sorted. *)
Definition getExpirations (listing : outcome (list ListedContract)) : outcome (list string) :=
  match listing with
  | Rejected e => Rejected e
  | Resolved contracts =>
      Resolved (Array_sort default_compare
                  (fold_left Set_add (map listed_expiration contracts) []))
  end.

(** [getDTE]: [setHours0] is [today.setHours(0, 0, 0, 0)], the start of
    the local day of an instant. *)
Definition getDTE (rt : Runtime) (setHours0 : Z -> Z) (expirationDate : string) : option Z :=
  match Date_getTime rt expirationDate with
  | Some expiry =>
      Some (Qceiling (inject_Z (expiry - setHours0 (Date_now rt)) / inject_Z MS_PER_DAY))
  | None => None
  end.

(** [filterExpirationsByDTE]. *)
Definition filterExpirationsByDTE (rt : Runtime) (setHours0 : Z -> Z)
    (expirations : list string) (minDTE maxDTE : Q) : list string :=
  filter (fun exp =>
            match getDTE rt setHours0 exp with
            | Some dte => Qle_bool minDTE (inject_Z dte) && Qle_bool (inject_Z dte) maxDTE
            | None => false
            end)
         expirations.

(** A listing of six contracts over three expirations, not in date order. *)
Definition example_listing : list ListedContract :=
  [ mkListedContract "AAPL240329C00100000" "2024-03-29" 100 call;
    mkListedContract "AAPL240315P00095000" "2024-03-15" 95 put;
    mkListedContract "AAPL240315C00100000" "2024-03-15" 100 call;
    mkListedContract "AAPL240322C00098000" "2024-03-22" 98 call;
    mkListedContract "AAPL240322C00094000" "2024-03-22" 94 call;
    mkListedContract "AAPL240329P00090000" "2024-03-29" 90 put ].

(** Two contracts whose expirations are 14 and 28 days away, listed with
    the later one first. *)
Definition tie_listing : list ListedContract :=
  [ mkListedContract "AAPL240329C00100000" "2024-03-29" 100 call;
    mkListedContract "AAPL240315C00100000" "2024-03-15" 100 call ].

(** ** Configuration: the options fields of [AgentConfigSchema] *)

(** [z.number().min(lo).max(hi)]. *)
Definition within (lo hi x : Q) : bool := Qle_bool lo x && Qle_bool x hi.

(** [.int()]. *)
Definition is_int (x : Q) : bool := Qeq_bool (inject_Z (Qfloor x)) x.

(** The checks of the schema on the fields the engine reads: the ranges of
    the fields and the two refinements that order the delta band and the
    DTE window. *)
Definition options_fields_valid (cfg : Config) : bool :=
  within 0 0.25 (options_max_pct_per_trade cfg)
  && (is_int (options_min_dte cfg) && within 1 365 (options_min_dte cfg))
  && (is_int (options_max_dte cfg) && within 1 365 (options_max_dte cfg))
  && within 0.1 0.9 (options_target_delta cfg)
  && within 0.1 0.9 (options_min_delta cfg)
  && within 0.1 0.9 (options_max_delta cfg)
  && Qltb (options_min_delta cfg) (options_max_delta cfg)
  && Qltb (options_min_dte cfg) (options_max_dte cfg).

(** ** Utilities

    A string is the sequence of its code units, one character each. *)

(** [str.slice(0, end)]: a negative [end] counts from the end of the
    string. *)
Definition slice_from_start (str : string) (end_ : Z) : string :=
  let len := Z.of_nat (String.length str) in
  let stop := if (end_ <? 0)%Z then Z.max (len + end_) 0 else Z.min end_ len in
  substring 0 (Z.to_nat stop) str.

(** [truncate], for an integer [maxLength]. *)
Definition truncate (str : string) (maxLength : Z) : string :=
  if (Z.of_nat (String.length str) <=? maxLength)%Z then str
  else (slice_from_start str (maxLength - 3) ++ "...")%string.

(** [ToInt32]: the wrap-around of the bitwise operators. *)
Definition ToInt32 (x : Z) : Z := ((x + 2 ^ 31) mod 2 ^ 32 - 2 ^ 31)%Z.

(** [hash << 5]. *)
Definition shl5 (hash : Z) : Z := ToInt32 (ToInt32 hash * 32).

(** One turn of the loop of [simpleHash]:
    [hash = (hash << 5) - hash + char; hash = hash & hash]. *)
Definition hash_step (hash char : Z) : Z :=
  let hash := (shl5 hash - hash + char)%Z in
  ToInt32 hash.

(** The loop over the code units of the string, from [hash = 0]. *)
Definition hash_loop (codeUnits : list Z) : Z := fold_left hash_step codeUnits 0%Z.

(** The digit of [d] in "0123456789abcdef", by its character code. *)
Definition hex_digit (d : Z) : Ascii.ascii :=
  Ascii.ascii_of_N (Z.to_N (if (d <? 10)%Z then 48 + d else 87 + d)).

Fixpoint hex_digits (fuel : nat) (n : Z) (acc : string) : string :=
  match fuel with
  | O => acc
  | S fuel' =>
      let acc' := String (hex_digit (n mod 16)) acc in
      if (n / 16 =? 0)%Z then acc' else hex_digits fuel' (n / 16) acc'
  end.

(** [n.toString(16)] for a non-negative integer. *)
Definition toString16 (n : Z) : string :=
  hex_digits (S (Z.to_nat (Z.log2 n))) n "".

Fixpoint repeat_char (c : Ascii.ascii) (n : nat) : string :=
  match n with
  | O => ""
  | S n' => String c (repeat_char c n')
  end.

(** [s.padStart(targetLength, "0")]. *)
Definition padStart0 (s : string) (targetLength : nat) : string :=
  (repeat_char (Ascii.ascii_of_N 48) (targetLength - String.length s) ++ s)%string.

(** [simpleHash], on the code units of its argument. *)
Definition simpleHash (codeUnits : list Z) : string :=
  padStart0 (toString16 (Z.abs (hash_loop codeUnits))) 8.

(** The polynomial of multiplier 31 over the code units. *)
Definition polynomial31 (codeUnits : list Z) : Z :=
  fold_left (fun h c => (31 * h + c)%Z) codeUnits 0%Z.

(** The value of a hexadecimal digit and of a string of them. *)
Definition hex_digit_value (c : Ascii.ascii) : Z :=
  let n := Z.of_N (Ascii.N_of_ascii c) in
  if (n <? 58)%Z then (n - 48)%Z else (n - 87)%Z.

Definition hex_fold (v : Z) (s : string) : Z :=
  fold_left (fun v c => (16 * v + hex_digit_value c)%Z) (list_ascii_of_string s) v.

Definition hex_value (s : string) : Z := hex_fold 0 s.

(** ** Social snapshots: [capByVolumeKeepingPinnedMap]

    A [Map] from strings is the list of its entries in insertion order,
    with distinct keys; [get] and [set] are those of [JsRecord]: [set]
    leaves an existing key in place and appends a new one. *)

Section SocialBounds.

Variable V : Type.

(** [value.volume], possibly undefined. *)
Variable volume : V -> option Q.

(** [value.volume ?? 0]. *)
Definition volume_or_0 (value : V) : Q :=
  match volume value with
  | Some x => x
  | None => 0
  end.

(** [(a, b) => (b[1].volume ?? 0) - (a[1].volume ?? 0)]. *)
Definition by_volume_desc (a b : string * V) : Q :=
  volume_or_0 (snd b) - volume_or_0 (snd a).

(** [a] has at least the volume of [b]. *)
Definition louder (a b : string * V) : Prop :=
  volume_or_0 (snd b) <= volume_or_0 (snd a).

(** [map.has(k)]. *)
Definition Map_has (m : JsRecord V) (k : string) : bool :=
  match Record_get m k with
  | Some _ => true
  | None => false
  end.

(** [for (const [symbol, value] of entries) result.set(symbol, value)]. *)
Definition Map_set_all (result : JsRecord V) (entries : list (string * V)) : JsRecord V :=
  fold_left (fun r entry => Record_set r (fst entry) (snd entry)) entries result.

(** The pinned symbols the snapshot holds, with their values, in the order
    of the set of pinned symbols. *)
Definition pinnedPresent (snapshot : JsRecord V) (pinnedSymbols : list string)
    : list (string * V) :=
  flat_map (fun symbol =>
              match Record_get snapshot symbol with
              | Some value => [(symbol, value)]
              | None => []
              end)
           (fold_left Set_add pinnedSymbols []).

Definition capByVolumeKeepingPinnedMap (snapshot : JsRecord V) (maxSymbols : Z)
    (pinnedSymbols : list string) : JsRecord V :=
  if (maxSymbols <=? 0)%Z then []
  else if (Z.of_nat (List.length snapshot) <=? maxSymbols)%Z then snapshot
  else
    let pinned := Array_sort by_volume_desc (pinnedPresent snapshot pinnedSymbols) in
    let result := Map_set_all [] (firstn (Z.to_nat maxSymbols) pinned) in
    if (maxSymbols <=? Z.of_nat (List.length result))%Z then result
    else
      let remaining := filter (fun entry => negb (Map_has result (fst entry))) snapshot in
      let remaining := Array_sort by_volume_desc remaining in
      Map_set_all result
        (firstn (Z.to_nat (maxSymbols - Z.of_nat (List.length result))) remaining).

End SocialBounds.

(** The snapshots of the tests of the module. *)
Definition social_example : JsRecord (Q * string) :=
  [ ("A", (100, "a")); ("B", (80, "b")); ("C", (60, "c"));
    ("D", (40, "d")); ("E", (20, "e")) ]%string.

Definition social_small : JsRecord (Q * string) :=
  [ ("A", (1, "")); ("B", (2, "")); ("C", (3, "")) ]%string.

Definition example_volume (value : Q * string) : option Q := Some (fst value).

(** ** [sanitizeForLog]

    The values the function meets: [null], [undefined], the primitives,
    and objects by their entries, in the order of [Object.entries].  An
    array is the object of its indices; keys are taken as ASCII, and
    [toLowerCase] as its ASCII part.  The result is built by assignment as
    in [JsRecord]; a key that assignment treats specially ([__proto__]) and
    the reordering of integer-like keys are outside the model. *)

#[warnings="-register-all"]
Inductive JsValue : Type :=
| JsNull
| JsUndefined
| JsString (s : string)
| JsNumber (x : Q)
| JsBoolean (b : bool)
| JsObject (entries : list (string * JsValue)).

Definition lower_char (c : Ascii.ascii) : Ascii.ascii :=
  let n := Ascii.N_of_ascii c in
  if ((65 <=? n) && (n <=? 90))%N then Ascii.ascii_of_N (n + 32) else c.

Fixpoint toLowerCase (s : string) : string :=
  match s with
  | EmptyString => EmptyString
  | String c s' => String (lower_char c) (toLowerCase s')
  end.

(** [s.includes(pattern)]. *)
Fixpoint includes (s pattern : string) : bool :=
  String.prefix pattern s
  || match s with
     | EmptyString => false
     | String _ s' => includes s' pattern
     end.

Definition sensitiveKeys : list string :=
  [ "password"; "secret"; "token"; "api_key"; "apiKey"; "authorization";
    "approval_token" ]%string.

(** [sensitiveKeys.some((k) => key.toLowerCase().includes(k))]. *)
Definition sensitive (key : string) : bool :=
  existsb (fun k => includes (toLowerCase key) k) sensitiveKeys.

Definition REDACTED : JsValue := JsString "[REDACTED]".

Fixpoint sanitizeForLog (obj : JsValue) : JsValue :=
  match obj with
  | JsObject entries =>
      JsObject
        (fold_left
           (fun result entry =>
              let '(key, value) := entry in
              Record_set result key
                (if sensitive key then REDACTED
                 else match value with
                      | JsObject _ | JsNull => sanitizeForLog value
                      | _ => value
                      end))
           entries [])
  | _ => obj
  end.

(** The patterns written in lower case. *)
Definition lowerCasePatterns : list string :=
  [ "password"; "secret"; "token"; "api_key"; "authorization"; "approval_token" ]%string.

(** A value in which every entry under a sensitive key, at any depth, is
    the redaction marker. *)
Fixpoint redacted_throughout (v : JsValue) : Prop :=
  match v with
  | JsObject entries =>
      (fix all (es : list (string * JsValue)) : Prop :=
         match es with
         | [] => True
         | (key, value) :: es' =>
             (if sensitive key then value = REDACTED else redacted_throughout value)
             /\ all es'
         end) entries
  | _ => True
  end.

(** The rewriting of one entry: the marker under a sensitive key, the
    sanitized value for an object or [null], the value itself otherwise. *)
Definition sanitizeEntry (key : string) (value : JsValue) : JsValue :=
  if sensitive key then REDACTED
  else match value with
       | JsObject _ | JsNull => sanitizeForLog value
       | _ => value
       end.

(** Induction on values, through the entries of objects. *)
Fixpoint JsValue_nested_ind (P : JsValue -> Prop)
    (Hnull : P JsNull) (Hundefined : P JsUndefined)
    (Hstring : forall s, P (JsString s)) (Hnumber : forall x, P (JsNumber x))
    (Hboolean : forall b, P (JsBoolean b))
    (Hobject : forall entries, Forall (fun e => P (snd e)) entries -> P (JsObject entries))
    (v : JsValue) : P v :=
  match v with
  | JsNull => Hnull
  | JsUndefined => Hundefined
  | JsString s => Hstring s
  | JsNumber x => Hnumber x
  | JsBoolean b => Hboolean b
  | JsObject entries =>
      Hobject entries
        ((fix all (es : list (string * JsValue)) : Forall (fun e => P (snd e)) es :=
            match es with
            | [] => Forall_nil _
            | e :: es' =>
                Forall_cons e
                  (JsValue_nested_ind P Hnull Hundefined Hstring Hnumber Hboolean
                     Hobject (snd e))
                  (all es')
            end) entries)
  end.

(** ** The selector and the price fallback, in the words of the specification *)

(** The DTE of an expiration of time value [t], read at the instant
    [today]: ceil((t - today) / 1 day). *)
Definition days_to_expiration (t today : Z) : Z :=
  Qceiling (inject_Z (t - today) / 86400000).

(** A valid date whose DTE satisfies minDTE <= DTE <= maxDTE. *)
Definition eligible (rt : Runtime) (cfg : Config) (today : Z) (e : string) : bool :=
  match Date_getTime rt e with
  | Some t =>
      Qle_bool (options_min_dte cfg) (inject_Z (days_to_expiration t today))
      && Qle_bool (inject_Z (days_to_expiration t today)) (options_max_dte cfg)
  | None => false
  end.

(** |DTE - (minDTE + maxDTE) / 2|, the midpoint being the real one. *)
Definition midpoint_distance (cfg : Config) (dte : Z) : Q :=
  Qabs (inject_Z dte - (options_min_dte cfg + options_max_dte cfg) / 2).

(** The three price sources of an underlying snapshot; a source that is
    missing counts as 0. *)
Definition source_trade (snapshot : option Snapshot) : Q :=
  match snapshot with
  | Some s =>
      match latest_trade s with
      | Some tr => match price tr with Some p => p | None => 0 end
      | None => 0
      end
  | None => 0
  end.

Definition source_ask (snapshot : option Snapshot) : Q :=
  match snapshot with
  | Some s =>
      match latest_quote s with
      | Some q => match ask_price q with Some p => p | None => 0 end
      | None => 0
      end
  | None => 0
  end.

Definition source_bid (snapshot : option Snapshot) : Q :=
  match snapshot with
  | Some s =>
      match latest_quote s with
      | Some q => match bid_price q with Some p => p | None => 0 end
      | None => 0
      end
  | None => 0
  end.

(** The fallback of the specification: the trade price, then the ask, then
    the bid, each skipped when it is zero or missing; 0 when all are. *)
Definition fallback_price (snapshot : option Snapshot) : Q :=
  if Qeq_bool (source_trade snapshot) 0 then
    if Qeq_bool (source_ask snapshot) 0 then
      if Qeq_bool (source_bid snapshot) 0 then 0 else source_bid snapshot
    else source_ask snapshot
  else source_trade snapshot.

(** The example market for an account of negative equity, with a quote
    below zero on the 98 strike. *)
Definition negative_option_snapshot (contractSymbol : string)
    : outcome (option OptionSnapshot) :=
  if String.eqb contractSymbol "AAPL240322C00098000"
  then Resolved (Some (quoted 0.55 (-4.70) (-4.90)))
  else Resolved None.

Definition negative_ctx : StrategyContext :=
  {| config := example_config;
     env := {| options_getExpirations := fun _ => Resolved (Some example_expirations);
               options_getChain := fun _ _ => Resolved (Some example_chain);
               marketData_getSnapshot := fun _ => Resolved (Some example_underlying);
               options_getSnapshot := negative_option_snapshot |} |}.

(** The same market for a positive equity and a negative
    [options_max_pct_per_trade]. *)
Definition negative_pct_ctx : StrategyContext :=
  {| config := {| options_enabled := true;
                  options_max_pct_per_trade := - 0.05;
                  options_min_dte := 14;
                  options_max_dte := 28;
                  options_target_delta := 0.7;
                  options_min_delta := 0.3;
                  options_max_delta := 0.8 |};
     env := env negative_ctx |}.

(** * The engine on binary64 numbers

    The same function, [findBestOptionsContract], as the JavaScript
    runtime evaluates it, for the properties that depend on how numbers
    round, on the difference between [null] and [undefined], or on a
    logger that throws.

    Conventions of this second embedding.
    - A [number] is a binary64 value ([float]): [+], [-], [*], [/],
      [Math.abs] and the comparisons are the IEEE 754 operations, with
      [NaN], the infinities and the two zeros.  [Math.floor] and
      [Math.ceil] are defined below on the same values.
    - [greeks.delta] is a number, [null], or [undefined]; every other
      value that may be missing is read only through [?.], [||] or [!],
      which treat [null] and [undefined] alike, and is an [option].
    - [new Date(s).getTime()] and [new Date().getTime()] are numbers of
      the runtime ([NaN] for an invalid date).
    - A thrown value is known by what [String(error)] does with it: it
      converts to a message, or the conversion itself throws.
    - [ctx.env] is taken by what [createAlpacaProviders] makes of it: the
      providers, or the exception the factory throws.  The provider
      methods are [async]: a failure is a rejected promise.
    - [ctx.log] is a function of the caller: it returns, or it throws.
      It is given by the category and the event of the call; an invocation
      logs an event at most once.
    - The trace records the call of the factory, every provider call and
      every call of the logger, in order, each with the exception it ended
      in, if any. *)

Set Warnings "-inexact-float".

Module Js.



Declare Scope js_scope.

Local Open Scope float_scope.

(** ** Numbers *)

(** The float of an integer that a float represents exactly. *)
Definition of_Z (n : Z) : float := SF2Prim (binary_normalize prec emax n 0 false).

(** [Math.floor(x)]: for a finite [x] that is not an integer, the integer
    part of [|x|] is taken from the mantissa; [NaN], the infinities, the
    zeros and the integers are left as they are. *)
Definition Math_floor (x : float) : float :=
  match Prim2SF x with
  | S754_finite s m e =>
      if (0 <=? e)%Z then x
      else
        let q := Z.shiftr (Zpos m) (- e) in
        if s then
          if (Z.shiftl q (- e) =? Zpos m)%Z then - of_Z q else - of_Z (q + 1)
        else of_Z q
  | _ => x
  end.

(** [Math.ceil(x)]. *)
Definition Math_ceil (x : float) : float := - Math_floor (- x).

(** A number as a condition: [0], [-0] and [NaN] are falsy. *)
Definition ToBoolean (x : float) : bool := negb (is_zero x || is_nan x).

(** [a || b] on numbers that may be missing. *)
Definition or_else (a b : option float) : option float :=
  match a with
  | Some x => if ToBoolean x then Some x else b
  | None => b
  end.

(** [a || 0]. *)
Definition or_zero (a : option float) : float :=
  match a with
  | Some x => if ToBoolean x then x else 0
  | None => 0
  end.

(** ** Data model *)

(** [greeks.delta]. *)
Inductive Delta : Type :=
| delta_undefined
| delta_null
| delta_number (x : float).

(** [Math.abs(delta)], for a [delta] that is not [undefined]: [null]
    converts to [0]. *)
Definition Math_abs_delta (delta : Delta) : float :=
  match delta with
  | delta_number x => abs x
  | delta_null => 0
  | delta_undefined => nan
  end.

Record OptionsContract : Type := mkOptionsContract {
  symbol : string;
  strike : float;
  expiration : string;
  delta : Delta;
  mid_price : float;
  max_contracts : float;
  option_type : OptionType
}.

Record Config : Type := mkConfig {
  options_enabled : bool;
  options_max_pct_per_trade : float;
  options_min_dte : float;
  options_max_dte : float;
  options_target_delta : float;
  options_min_delta : float;
  options_max_delta : float
}.

Record Trade : Type := mkTrade { price : option float }.

Record Quote : Type := mkQuote { bid_price : option float; ask_price : option float }.

Record Snapshot : Type := mkSnapshot {
  latest_trade : option Trade;
  latest_quote : option Quote
}.

Record Greeks : Type := mkGreeks { greeks_delta : Delta }.

Record OptionSnapshot : Type := mkOptionSnapshot {
  greeks : option Greeks;
  option_latest_quote : option Quote
}.

Record OptionContract : Type := mkOptionContract {
  contract_symbol : string;
  contract_strike : float
}.

Record OptionsChain : Type := mkOptionsChain {
  calls : option (list OptionContract);
  puts : option (list OptionContract)
}.

(** ** Effects *)

(** A thrown value: [String(error)] is [message], or throws [raised]. *)
Inductive Thrown : Type :=
| printable (message : string)
| unprintable (raised : Thrown).

Inductive outcome (A : Type) : Type :=
| Resolved (a : A)
| Rejected (reason : Thrown).

Arguments Resolved {A} a.
Arguments Rejected {A} reason.

Definition failure_of {A : Type} (r : outcome A) : option Thrown :=
  match r with
  | Resolved _ => None
  | Rejected reason => Some reason
  end.

Inductive Event : Type :=
| Created (failure : option Thrown)
| Called (c : Call) (failure : option Thrown)
| Logged (category event : string) (failure : option Thrown).

Definition Trace : Type := list Event.

Record AlpacaProviders : Type := mkAlpacaProviders {
  options_getExpirations : string -> outcome (option (list string));
  options_getChain : string -> string -> outcome (option OptionsChain);
  marketData_getSnapshot : string -> outcome (option Snapshot);
  options_getSnapshot : string -> outcome (option OptionSnapshot)
}.

Record StrategyContext : Type := mkStrategyContext {
  config : Config;
  env : outcome AlpacaProviders;
  log : string -> string -> option Thrown
}.

Record Runtime : Type := mkRuntime {
  Date_now : float;
  Date_getTime : string -> float
}.

Definition M (A : Type) : Type := Trace -> outcome A * Trace.

Definition ret {A : Type} (a : A) : M A := fun t => (Resolved a, t).

Definition bind {A B : Type} (m : M A) (k : A -> M B) : M B :=
  fun t =>
    match m t with
    | (Resolved a, t') => k a t'
    | (Rejected e, t') => (Rejected e, t')
    end.

Notation "x <- m ;; k" := (bind m (fun x => k))
  (at level 61, m at next level, right associativity) : js_scope.
Notation "m ;;; k" := (bind m (fun _ => k))
  (at level 61, right associativity) : js_scope.

Local Open Scope js_scope.

(** [createAlpacaProviders(ctx.env)], which returns the providers or
    throws. *)
Definition create (r : outcome AlpacaProviders) : M AlpacaProviders :=
  fun t => (r, t ++ [Created (failure_of r)]).

(** An expression that evaluates to a value or throws. *)
Definition evaluate {A : Type} (r : outcome A) : M A := fun t => (r, t).

(** [await p] for the provider call [c] whose promise settles as [r]. *)
Definition await {A : Type} (c : Call) (r : outcome A) : M A :=
  fun t => (r, t ++ [Called c (failure_of r)]).

(** [await p.catch(() => a)]. *)
Definition await_catch {A : Type} (c : Call) (r : outcome A) (a : A) : M A :=
  fun t =>
    (match r with
     | Resolved v => Resolved v
     | Rejected _ => Resolved a
     end, t ++ [Called c (failure_of r)]).

(** [ctx.log(category, event, data)]. *)
Definition call_log (ctx : StrategyContext) (category event : string) : M unit :=
  fun t =>
    (match log ctx category event with
     | None => Resolved tt
     | Some e => Rejected e
     end, t ++ [Logged category event (log ctx category event)]).

(** [String(error)]. *)
Definition String_of (error : Thrown) : outcome string :=
  match error with
  | printable message => Resolved message
  | unprintable raised => Rejected raised
  end.

(** [try { body } catch (error) { handler }]. *)
Definition try_catch {A : Type} (body : M A) (handler : Thrown -> M A) : M A :=
  fun t =>
    match body t with
    | (Resolved a, t') => (Resolved a, t')
    | (Rejected e, t') => handler e t'
    end.

(** ** Expiration selector *)

Definition MS_PER_DAY : float := 1000 * 60 * 60 * 24.

(** [Math.ceil((expDate.getTime() - today.getTime()) / (1000*60*60*24))]. *)
Definition dte_of (rt : Runtime) (today : float) (exp : string) : float :=
  Math_ceil ((Date_getTime rt exp - today) / MS_PER_DAY).

(** [dte >= min_dte && dte <= max_dte]. *)
Definition in_window (rt : Runtime) (cfg : Config) (today : float) (exp : string) : bool :=
  let dte := dte_of rt today exp in
  (options_min_dte cfg <=? dte) && (dte <=? options_max_dte cfg).

Definition validExpirations (rt : Runtime) (cfg : Config) (today : float)
    (expirations : list string) : list string :=
  filter (in_window rt cfg today) expirations.

Definition targetDTE (cfg : Config) : float :=
  (options_min_dte cfg + options_max_dte cfg) / 2.

(** The callback of [validExpirations.reduce]. *)
Definition pick (rt : Runtime) (cfg : Config) (today : float) (best exp : string) : string :=
  let dte := dte_of rt today exp in
  let currentBestDte := dte_of rt today best in
  if abs (dte - targetDTE cfg) <? abs (currentBestDte - targetDTE cfg) then exp else best.

Definition bestExpiration (rt : Runtime) (cfg : Config) (today : float)
    (valid : list string) (first : string) : string :=
  fold_left (pick rt cfg today) valid first.

(** ** Strike target estimator *)

Definition stockPrice (snapshot : option Snapshot) : float :=
  or_zero
    (or_else
       (or_else (chain (chain snapshot latest_trade) price)
                (chain (chain snapshot latest_quote) ask_price))
       (chain (chain snapshot latest_quote) bid_price)).

Definition targetStrike (direction : Direction) (stockPrice : float) (cfg : Config) : float :=
  match direction with
  | bullish => stockPrice * (1 - (options_target_delta cfg - 0.5) * 0.2)
  | bearish => stockPrice * (1 + (options_target_delta cfg - 0.5) * 0.2)
  end.

(** [Array.prototype.sort(compareFn)], a stable sort: an element moves
    behind another only when [compareFn] is positive on the two; a result
    of [compareFn] that is [NaN] counts as [0]. *)
Fixpoint sort_insert {A : Type} (compareFn : A -> A -> float) (x : A) (l : list A) : list A :=
  match l with
  | [] => [x]
  | y :: l' =>
      if 0 <? compareFn x y then y :: sort_insert compareFn x l'
      else x :: y :: l'
  end.

Fixpoint Array_sort {A : Type} (compareFn : A -> A -> float) (l : list A) : list A :=
  match l with
  | [] => []
  | x :: l' => sort_insert compareFn x (Array_sort compareFn l')
  end.

(** [(a, b) => Math.abs(a.strike - targetStrike) - Math.abs(b.strike - targetStrike)]. *)
Definition by_distance (target : float) (a b : OptionContract) : float :=
  abs (contract_strike a - target) - abs (contract_strike b - target).

(** [c.strike > 0]. *)
Definition positive_strike (c : OptionContract) : bool := 0 <? contract_strike c.

Definition sortedContracts (contracts : list OptionContract) (target : float)
    : list OptionContract :=
  Array_sort (by_distance target) (filter positive_strike contracts).

(** ** Candidate qualifier *)

(** One loop iteration from the fetched snapshot on: [None] is
    [continue]; otherwise the delta, the mid price and the size of the
    result. *)
Definition qualify (cfg : Config) (equity : float) (optSnapshot : option OptionSnapshot)
    : option (Delta * float * float) :=
  match optSnapshot with
  | None => None
  | Some s =>
      let delta :=
        match greeks s with
        | Some g => greeks_delta g
        | None => delta_undefined
        end in
      match delta with
      | delta_undefined => None
      | _ =>
          let absDelta := Math_abs_delta delta in
          if (absDelta <? options_min_delta cfg) || (options_max_delta cfg <? absDelta)
          then None
          else
            let bid := or_zero (chain (option_latest_quote s) bid_price) in
            let ask := or_zero (chain (option_latest_quote s) ask_price) in
            if (bid =? 0) || (ask =? 0) then None
            else
              let spread := (ask - bid) / ask in
              if 0.1 <? spread then None
              else
                let midPrice := (bid + ask) / 2 in
                let maxCost := equity * options_max_pct_per_trade cfg in
                let maxContracts := Math_floor (maxCost / (midPrice * 100)) in
                if maxContracts <? 1 then None
                else Some (delta, midPrice, maxContracts)
      end
  end.

(** The body of [for (const contract of sortedContracts.slice(0, 5))],
    followed by the [return null] after the loop. *)
Fixpoint probe (ctx : StrategyContext) (alpaca : AlpacaProviders) (direction : Direction)
    (equity : float) (bestExp : string) (candidates : list OptionContract)
    : M (option OptionsContract) :=
  match candidates with
  | [] => ret None
  | contract :: rest =>
      optSnapshot <- await (GetOptionSnapshot (contract_symbol contract))
                           (options_getSnapshot alpaca (contract_symbol contract)) ;;
      match qualify (config ctx) equity optSnapshot with
      | None => probe ctx alpaca direction equity bestExp rest
      | Some (delta, midPrice, maxContracts) =>
          call_log ctx "Options" "contract_selected" ;;;
          ret (Some {| symbol := contract_symbol contract;
                       strike := contract_strike contract;
                       expiration := bestExp;
                       delta := delta;
                       mid_price := midPrice;
                       max_contracts := maxContracts;
                       option_type := option_type_of direction |})
      end
  end.

(** ** The engine *)

Definition contracts_of (direction : Direction) (c : OptionsChain)
    : option (list OptionContract) :=
  match direction with
  | bullish => calls c
  | bearish => puts c
  end.

(** The statements inside [try]. *)
Definition selection (rt : Runtime) (ctx : StrategyContext) (sym : string)
    (direction : Direction) (equity : float) : M (option OptionsContract) :=
  alpaca <- create (env ctx) ;;
  expirations <- await (GetExpirations sym) (options_getExpirations alpaca sym) ;;
  match expirations with
  | None | Some [] => call_log ctx "Options" "no_expirations" ;;; ret None
  | Some expirations =>
      let today := Date_now rt in
      match validExpirations rt (config ctx) today expirations with
      | [] => call_log ctx "Options" "no_valid_expirations" ;;; ret None
      | first :: rest =>
          let bestExp := bestExpiration rt (config ctx) today (first :: rest) first in
          ch <- await (GetChain sym bestExp) (options_getChain alpaca sym bestExp) ;;
          match ch with
          | None => call_log ctx "Options" "chain_failed" ;;; ret None
          | Some ch =>
              match contracts_of direction ch with
              | None | Some [] => call_log ctx "Options" "no_contracts" ;;; ret None
              | Some contracts =>
                  snapshot <- await_catch (GetUnderlyingSnapshot sym)
                                (marketData_getSnapshot alpaca sym) None ;;
                  let stock := stockPrice snapshot in
                  if stock =? 0 then ret None
                  else
                    let target := targetStrike direction stock (config ctx) in
                    probe ctx alpaca direction equity bestExp
                          (firstn 5 (sortedContracts contracts target))
              end
          end
      end
  end.

(** The [catch] clause: the message is built before the logger is called. *)
Definition handler (ctx : StrategyContext) (error : Thrown) : M (option OptionsContract) :=
  message <- evaluate (String_of error) ;;
  call_log ctx "Options" "error" ;;;
  ret None.

Definition findBestOptionsContract (rt : Runtime) (ctx : StrategyContext) (sym : string)
    (direction : Direction) (equity : float) : M (option OptionsContract) :=
  if negb (options_enabled (config ctx)) then ret None
  else try_catch (selection rt ctx sym direction equity) (handler ctx).

(** One invocation, from an empty trace. *)
Definition invoke (rt : Runtime) (ctx : StrategyContext) (sym : string)
    (direction : Direction) (equity : float) : outcome (option OptionsContract) * Trace :=
  findBestOptionsContract rt ctx sym direction equity [].

End Js.

(** ** Notions used by the statements on binary64 numbers *)

(** The class of a rounded value: finite or infinite, of sign [s]. *)
Definition signed (s : bool) (x : spec_float) : Prop :=
  (exists m e, x = S754_finite s m e) \/ x = S754_infinity s.

(** The place of a number in the order of the comparisons: by class, then
    by exponent, then by mantissa. *)
Definition rank (x : spec_float) : Z * Z * Z :=
  match x with
  | S754_infinity true => (-2, 0, 0)%Z
  | S754_finite true m e => (-1, - e, - Zpos m)%Z
  | S754_zero _ => (0, 0, 0)%Z
  | S754_finite false m e => (1, e, Zpos m)%Z
  | S754_infinity false => (2, 0, 0)%Z
  | S754_nan => (3, 0, 0)%Z
  end.

Definition lex_lt (a b : Z * Z * Z) : Prop :=
  (fst (fst a) < fst (fst b)
   \/ (fst (fst a) = fst (fst b)
       /\ (snd (fst a) < snd (fst b)
           \/ (snd (fst a) = snd (fst b) /\ snd a < snd b))))%Z.

(** [|strike - targetStrike|], as the comparator of the ranking computes
    it. *)
Definition strike_distance (target : float) (c : Js.OptionContract) : float :=
  abs (Js.contract_strike c - target).

(** A price of a quote as the qualifier counts it: a price that is
    missing, zero or [NaN] counts as 0. *)
Definition live_price (p : option float) : float :=
  match p with
  | Some x => if (x =? 0)%float || negb (x =? x)%float then 0%float else x
  | None => 0%float
  end.

Definition quoted_bid (s : Js.OptionSnapshot) : float :=
  match Js.option_latest_quote s with
  | Some q => live_price (Js.bid_price q)
  | None => 0%float
  end.

Definition quoted_ask (s : Js.OptionSnapshot) : float :=
  match Js.option_latest_quote s with
  | Some q => live_price (Js.ask_price q)
  | None => 0%float
  end.

(** The delta of a snapshot; [undefined] when the greeks are missing. *)
Definition quoted_delta (s : Js.OptionSnapshot) : Js.Delta :=
  match Js.greeks s with
  | Some g => Js.greeks_delta g
  | None => Js.delta_undefined
  end.

(** [|delta|]; a [null] delta has magnitude 0. *)
Definition magnitude (d : Js.Delta) : float :=
  match d with
  | Js.delta_number x => abs x
  | Js.delta_null => 0%float
  | Js.delta_undefined => nan
  end.

(** The mid price (bid + ask) / 2 and the spread (ask - bid) / ask. *)
Definition mid_of (s : Js.OptionSnapshot) : float :=
  ((quoted_bid s + quoted_ask s) / 2)%float.

Definition spread_of (s : Js.OptionSnapshot) : float :=
  ((quoted_ask s - quoted_bid s) / quoted_ask s)%float.

(** The position size of the specification:
    floor(equity * maxPct / (midPrice * 100)). *)
Definition position_size (equity maxPct midPrice : float) : float :=
  Js.Math_floor (equity * maxPct / (midPrice * 100))%float.

(** The gates before sizing: delta present and inside the band, a live
    two-sided quote, and a spread that does not exceed 10%. *)
Definition passes_market_gates64 (cfg : Js.Config) (s : Js.OptionSnapshot) : Prop :=
  quoted_delta s <> Js.delta_undefined
  /\ (magnitude (quoted_delta s) <? Js.options_min_delta cfg)%float = false
  /\ (Js.options_max_delta cfg <? magnitude (quoted_delta s))%float = false
  /\ (quoted_bid s =? 0)%float = false
  /\ (quoted_ask s =? 0)%float = false
  /\ (0.1 <? spread_of s)%float = false.

(** The rejection reasons of the specification, in its words: snapshot
    absent; greeks or delta absent; |delta| below min_delta or above
    max_delta; bid = 0 or ask = 0; (ask - bid) / ask > 0.10;
    maxContracts < 1. *)
Definition gate_rejected (cfg : Js.Config) (equity : float)
    (optSnapshot : option Js.OptionSnapshot) : Prop :=
  match optSnapshot with
  | None => True
  | Some s =>
      match Js.greeks s with
      | None => True
      | Some g =>
          match Js.greeks_delta g with
          | Js.delta_undefined => True
          | d =>
              (magnitude d <? Js.options_min_delta cfg)%float = true
              \/ (Js.options_max_delta cfg <? magnitude d)%float = true
              \/ (quoted_bid s =? 0)%float = true
              \/ (quoted_ask s =? 0)%float = true
              \/ (0.1 <? spread_of s)%float = true
              \/ (position_size equity (Js.options_max_pct_per_trade cfg) (mid_of s)
                  <? 1)%float = true
          end
      end
  end.

(** The trace entry of a snapshot fetch that resolved. *)
Definition js_fetched (c : Js.OptionContract) : Js.Event :=
  Js.Called (GetOptionSnapshot (Js.contract_symbol c)) None.

(** A candidate whose snapshot resolves and is turned down by the gates. *)
Definition js_turned_down (alpaca : Js.AlpacaProviders) (cfg : Js.Config) (equity : float)
    (c : Js.OptionContract) : Prop :=
  exists snap, Js.options_getSnapshot alpaca (Js.contract_symbol c) = Js.Resolved snap
               /\ gate_rejected cfg equity snap.

(** ** Runs *)

(** The exception an event ended in. *)
Definition event_failure (ev : Js.Event) : option Js.Thrown :=
  match ev with
  | Js.Created failure => failure
  | Js.Called _ failure => failure
  | Js.Logged _ _ failure => failure
  end.

(** The exceptions a trace records, in order. *)
Fixpoint thrown_in (tr : Js.Trace) : list Js.Thrown :=
  match tr with
  | [] => []
  | ev :: tr' =>
      match event_failure ev with
      | Some e => e :: thrown_in tr'
      | None => thrown_in tr'
      end
  end.

(** A provider failed: the factory threw, or a provider call was rejected. *)
Definition provider_failed (tr : Js.Trace) : Prop :=
  exists e, In (Js.Created (Some e)) tr \/ exists c, In (Js.Called c (Some e)) tr.

(** A piece of a run that ends in a value with no exception on the way, or
    in the exception of its last event, the only one. *)
Definition clean_run {A : Type} (r : Js.outcome A) (ext : Js.Trace) : Prop :=
  match r with
  | Js.Resolved _ => thrown_in ext = []
  | Js.Rejected e =>
      exists ext' ev, ext = ext' ++ [ev] /\ event_failure ev = Some e /\ thrown_in ext' = []
  end.

Definition tidy {A : Type} (m : Js.M A) : Prop :=
  forall t, exists ext, snd (m t) = t ++ ext /\ clean_run (fst (m t)) ext.

(** A computation of the engine that is a clean run, or ends in null
    right after a request for the underlying snapshot was rejected, the
    only failure of the run. *)
Definition safe {A : Type} (m : Js.M (option A)) : Prop :=
  forall t, exists ext,
    snd (m t) = t ++ ext
    /\ ((fst (m t) = Js.Resolved None
         /\ exists pre s e,
              ext = pre ++ [Js.Called (GetUnderlyingSnapshot s) (Some e)]
              /\ thrown_in pre = [])
        \/ clean_run (fst (m t)) ext).

(** The calls of the logger in a trace, in order, each with the exception
    it ended in. *)
Fixpoint logger_calls (tr : Js.Trace) : list (string * string * option Js.Thrown) :=
  match tr with
  | [] => []
  | Js.Logged category event failure :: tr' => (category, event, failure) :: logger_calls tr'
  | _ :: tr' => logger_calls tr'
  end.

(** A piece of a run without a call of the logger. *)
Definition discreet {A : Type} (m : Js.M A) : Prop :=
  forall t, exists ext, snd (m t) = t ++ ext /\ logger_calls ext = [].

(** A piece of a run that calls the logger at most once, as its last step:
    with no call it does not end in a contract; the selection event is
    followed by the contract, every other event by null; and an exception
    of the logger is the exception of the run. *)
Definition minuted {A : Type} (ctx : Js.StrategyContext) (m : Js.M (option A)) : Prop :=
  forall t, exists ext,
    snd (m t) = t ++ ext
    /\ ((logger_calls ext = [] /\ forall r, fst (m t) <> Js.Resolved (Some r))
        \/ exists pre event,
             ext = pre ++ [Js.Logged "Options" event (Js.log ctx "Options" event)]
             /\ logger_calls pre = []
             /\ ((event <> "contract_selected"%string
                  /\ fst (m t) = match Js.log ctx "Options" event with
                                 | None => Js.Resolved None
                                 | Some e => Js.Rejected e
                                 end)
                 \/ (event = "contract_selected"%string
                     /\ exists r,
                          fst (m t) = match Js.log ctx "Options" event with
                                      | None => Js.Resolved (Some r)
                                      | Some e => Js.Rejected e
                                      end))).

(** ** A worked market on binary64 numbers *)

Fixpoint js_lookup_date (s : string) (table : list (string * float)) : float :=
  match table with
  | [] => nan
  | (k, v) :: table' => if String.eqb s k then v else js_lookup_date s table'
  end.

Definition js_dates : list (string * float) :=
  [ ("2024-03-08"%string, 1709856000000%float);
    ("2024-03-15"%string, 1710460800000%float);
    ("2024-03-22"%string, 1711065600000%float);
    ("2024-03-29"%string, 1711670400000%float);
    ("2024-04-19"%string, 1713484800000%float) ].

(** The clock reads 2024-03-01T15:30:00Z. *)
Definition js_runtime : Js.Runtime :=
  {| Js.Date_now := 1709307000000%float;
     Js.Date_getTime := fun s => js_lookup_date s js_dates |}.

Definition js_config : Js.Config :=
  {| Js.options_enabled := true;
     Js.options_max_pct_per_trade := 0.05%float;
     Js.options_min_dte := 14%float;
     Js.options_max_dte := 28%float;
     Js.options_target_delta := 0.7%float;
     Js.options_min_delta := 0.3%float;
     Js.options_max_delta := 0.8%float |}.

Definition js_calls : list Js.OptionContract :=
  [ Js.mkOptionContract "AAPL240322C00090000" 90%float;
    Js.mkOptionContract "AAPL240322C00094000" 94%float;
    Js.mkOptionContract "AAPL240322C00000000" 0%float;
    Js.mkOptionContract "AAPL240322C00098000" 98%float;
    Js.mkOptionContract "AAPL240322C00100000" 100%float;
    Js.mkOptionContract "AAPL240322C00105000" 105%float;
    Js.mkOptionContract "AAPL240322C00110000" 110%float;
    Js.mkOptionContract "AAPL240322C00085000" 85%float ].

Definition js_chain : Js.OptionsChain :=
  {| Js.calls := Some js_calls; Js.puts := Some [] |}.

Definition js_underlying : Js.Snapshot :=
  {| Js.latest_trade := Some {| Js.price := Some 100%float |};
     Js.latest_quote := Some {| Js.bid_price := Some 99.9%float;
                                Js.ask_price := Some 100.1%float |} |}.

Definition js_quoted (d : Js.Delta) (bid ask : float) : Js.OptionSnapshot :=
  {| Js.greeks := Some {| Js.greeks_delta := d |};
     Js.option_latest_quote := Some {| Js.bid_price := Some bid; Js.ask_price := Some ask |} |}.

(** Mid price 6.00 for the 94 strike, 4.80 for the 98 strike; no snapshot
    for the other contracts. *)
Definition js_option_snapshot (contractSymbol : string)
    : Js.outcome (option Js.OptionSnapshot) :=
  if String.eqb contractSymbol "AAPL240322C00094000"
  then Js.Resolved (Some (js_quoted (Js.delta_number 0.62) 5.9 6.1))
  else if String.eqb contractSymbol "AAPL240322C00098000"
  then Js.Resolved (Some (js_quoted (Js.delta_number 0.55) 4.75 4.85))
  else Js.Resolved None.

Definition js_providers : Js.AlpacaProviders :=
  {| Js.options_getExpirations := fun _ => Js.Resolved (Some example_expirations);
     Js.options_getChain := fun _ _ => Js.Resolved (Some js_chain);
     Js.marketData_getSnapshot := fun _ => Js.Resolved (Some js_underlying);
     Js.options_getSnapshot := js_option_snapshot |}.

(** A logger that returns. *)
Definition quiet_log (category event : string) : option Js.Thrown := None.

Definition js_ctx : Js.StrategyContext :=
  {| Js.config := js_config; Js.env := Js.Resolved js_providers; Js.log := quiet_log |}.

(** The same market with a chain request that fails. *)
Definition js_failing_ctx : Js.StrategyContext :=
  {| Js.config := js_config;
     Js.env :=
       Js.Resolved
         {| Js.options_getExpirations := fun _ => Js.Resolved (Some example_expirations);
            Js.options_getChain :=
              fun _ _ => Js.Rejected (Js.printable "503 Service Unavailable");
            Js.marketData_getSnapshot := fun _ => Js.Resolved (Some js_underlying);
            Js.options_getSnapshot := js_option_snapshot |};
     Js.log := quiet_log |}.

(** A provider that lists no expiration, and a logger that throws. *)
Definition js_throwing_ctx : Js.StrategyContext :=
  {| Js.config := js_config;
     Js.env :=
       Js.Resolved
         {| Js.options_getExpirations := fun _ => Js.Resolved (Some []);
            Js.options_getChain := fun _ _ => Js.Resolved (Some js_chain);
            Js.marketData_getSnapshot := fun _ => Js.Resolved (Some js_underlying);
            Js.options_getSnapshot := js_option_snapshot |};
     Js.log := fun _ _ => Some (Js.printable "logger down") |}.

(** A request rejected with a value that does not convert to a string,
    and a logger that returns. *)
Definition js_unprintable_ctx : Js.StrategyContext :=
  {| Js.config := js_config;
     Js.env :=
       Js.Resolved
         {| Js.options_getExpirations :=
              fun _ => Js.Rejected
                         (Js.unprintable
                            (Js.printable "TypeError: Cannot convert object to primitive value"));
            Js.options_getChain := fun _ _ => Js.Resolved (Some js_chain);
            Js.marketData_getSnapshot := fun _ => Js.Resolved (Some js_underlying);
            Js.options_getSnapshot := js_option_snapshot |};
     Js.log := quiet_log |}.

(** A configuration whose delta band starts at 0. *)
Definition js_wide_config : Js.Config :=
  {| Js.options_enabled := true;
     Js.options_max_pct_per_trade := 0.05%float;
     Js.options_min_dte := 14%float;
     Js.options_max_dte := 28%float;
     Js.options_target_delta := 0.7%float;
     Js.options_min_delta := 0%float;
     Js.options_max_delta := 0.8%float |}.

(** A logger that throws on the selection event and returns on every
    other one. *)
Definition selection_log (category event : string) : option Js.Thrown :=
  if String.eqb event "contract_selected" then Some (Js.printable "logger down") else None.

Definition js_selection_ctx : Js.StrategyContext :=
  {| Js.config := js_config; Js.env := Js.Resolved js_providers; Js.log := selection_log |}.

(** Two strikes around a target of 123.45. *)
Definition js_pair : list Js.OptionContract :=
  [ Js.mkOptionContract "AAPL240322C00118450" 118.45%float;
    Js.mkOptionContract "AAPL240322C00128450" 128.45%float ].

(** The market with a delta band that starts at 0 and a [null] delta on
    the 94 strike. *)
Definition js_null_delta_ctx : Js.StrategyContext :=
  {| Js.config := js_wide_config;
     Js.env :=
       Js.Resolved
         {| Js.options_getExpirations := fun _ => Js.Resolved (Some example_expirations);
            Js.options_getChain := fun _ _ => Js.Resolved (Some js_chain);
            Js.marketData_getSnapshot := fun _ => Js.Resolved (Some js_underlying);
            Js.options_getSnapshot :=
              fun contractSymbol =>
                if String.eqb contractSymbol "AAPL240322C00094000"
                then Js.Resolved (Some (js_quoted Js.delta_null 4.75 4.85))
                else Js.Resolved None |};
     Js.log := quiet_log |}.

(** * Properties *)

(** ** Numbers *)

Lemma Qltb_lt (x y : Q) : Qltb x y = true <-> x < y.
Proof.
  unfold Qltb. rewrite negb_true_iff.
  split; intro H.
  - apply Qnot_le_lt. intro Hle. apply Qle_bool_iff in Hle. congruence.
  - destruct (Qle_bool y x) eqn:E; [|reflexivity].
    apply Qle_bool_iff in E. exfalso. exact (Qlt_not_le _ _ H E).
Qed.

Lemma Qltb_ge (x y : Q) : Qltb x y = false <-> y <= x.
Proof.
  unfold Qltb. rewrite negb_false_iff. apply Qle_bool_iff.
Qed.

Lemma Qceiling_div (a b : Z) :
  Qceiling (inject_Z a / inject_Z b) = (- ((- a) / b))%Z.
Proof.
  unfold Qceiling. f_equal.
  rewrite Zdiv_Qdiv. apply Qfloor_comp.
  rewrite inject_Z_opp. unfold Qdiv. ring.
Qed.

(** ** Days to expiration *)

Lemma dte_of_div (rt : Runtime) (today : Z) (exp : string) (t : Z) :
  Date_getTime rt exp = Some t ->
  dte_of rt today exp = Some (- ((today - t) / MS_PER_DAY))%Z.
Proof.
  intro H. unfold dte_of. rewrite H. rewrite Qceiling_div.
  do 3 f_equal. lia.
Qed.

Lemma truncated_dte_div (t today : Z) :
  truncated_dte t today = (- ((midnight today - midnight t) / MS_PER_DAY))%Z.
Proof.
  unfold truncated_dte. rewrite Qceiling_div. do 2 f_equal. lia.
Qed.

(** C2, as the code has it: the DTE is the ceiling of the difference
    between the expiration instant and the clock reading, in days, with
    neither endpoint truncated.  For an expiration that is a calendar date
    (its time value is a UTC midnight) this is the ceiling of the difference
    of the two midnights, whatever the time of day of the clock; and an
    expiration instant after the clock reading has a DTE of at least 1. *)
Theorem dte_day_granularity (rt : Runtime) (today : Z) (exp : string) (t : Z) :
  Date_getTime rt exp = Some t ->
  dte_of rt today exp = Some (Qceiling (inject_Z (t - today) / inject_Z MS_PER_DAY))
  /\ ((t mod MS_PER_DAY = 0)%Z -> dte_of rt today exp = Some (truncated_dte t today))
  /\ ((today < t)%Z -> exists d, dte_of rt today exp = Some d /\ (1 <= d)%Z).
Proof.
  intro Ht.
  assert (Hday : MS_PER_DAY = 86400000%Z) by reflexivity.
  split; [|split].
  - unfold dte_of. now rewrite Ht.
  - intro Hmid. rewrite (dte_of_div _ _ _ _ Ht), truncated_dte_div. f_equal.
    unfold midnight. rewrite Hmid, Hday in *.
    Z.to_euclidean_division_equations. lia.
  - intro Hlt. rewrite (dte_of_div _ _ _ _ Ht). eexists. split; [reflexivity|].
    rewrite Hday. Z.to_euclidean_division_equations. lia.
Qed.

(** ** Expiration selector *)

Lemma in_window_spec (rt : Runtime) (cfg : Config) (today : Z) (exp : string) :
  in_window rt cfg today exp = true <->
  exists dte, dte_of rt today exp = Some dte
    /\ options_min_dte cfg <= inject_Z dte /\ inject_Z dte <= options_max_dte cfg.
Proof.
  unfold in_window. destruct (dte_of rt today exp) as [d|].
  - rewrite andb_true_iff, !Qle_bool_iff. split.
    + intros [H1 H2]. exists d. auto.
    + intros (d' & E & H1 & H2). injection E as <-. auto.
  - split; [discriminate | intros (d' & E & _); discriminate].
Qed.

Lemma valid_has_gap (rt : Runtime) (cfg : Config) (today : Z) (exps : list string) (e : string) :
  In e (validExpirations rt cfg today exps) -> exists g, gap rt cfg today e = Some g.
Proof.
  unfold validExpirations. rewrite filter_In. intros [_ H].
  apply in_window_spec in H. destruct H as (d & E & _).
  unfold gap. rewrite E. eauto.
Qed.

Lemma closer_spec (rt : Runtime) (cfg : Config) (today : Z) (exp best : string) (g g' : Q) :
  gap rt cfg today exp = Some g -> gap rt cfg today best = Some g' ->
  closer rt cfg today exp best = Qltb g g'.
Proof.
  unfold gap, closer.
  destruct (dte_of rt today exp); [|discriminate].
  destruct (dte_of rt today best); [|discriminate].
  intros [= <-] [= <-]. reflexivity.
Qed.

(** The running best of the reduction is the first element of least gap
    among those seen so far. *)
Lemma fold_pick_first_min (rt : Runtime) (cfg : Config) (today : Z) (l : list string) :
  forall first : string,
  (forall e, In e (first :: l) -> exists g, gap rt cfg today e = Some g) ->
  exists pre post,
    first :: l = pre ++ fold_left (pick rt cfg today) l first :: post
    /\ (forall e, In e pre ->
          strictly_closer rt cfg today (fold_left (pick rt cfg today) l first) e)
    /\ (forall e, In e post ->
          as_close rt cfg today (fold_left (pick rt cfg today) l first) e).
Proof.
  induction l as [|x l IH] using rev_ind; intros first Hgap.
  - exists [], []. simpl. repeat split; intros e [].
  - rewrite fold_left_app. simpl.
    destruct (IH first) as (pre & post & Hsplit & Hpre & Hpost).
    { intros e He. apply Hgap. rewrite app_comm_cons. apply in_or_app. now left. }
    set (best := fold_left (pick rt cfg today) l first) in *.
    destruct (Hgap x) as [gx Hgx].
    { rewrite app_comm_cons. apply in_or_app. right. now left. }
    destruct (Hgap best) as [gb Hgb].
    { rewrite app_comm_cons. apply in_or_app. left.
      rewrite Hsplit. apply in_or_app. right. now left. }
    unfold pick. rewrite (closer_spec _ _ _ _ _ _ _ Hgx Hgb).
    destruct (Qltb gx gb) eqn:Hcmp.
    + apply Qltb_lt in Hcmp.
      exists (first :: l), []. split; [|split].
      * now rewrite app_comm_cons.
      * intros e He. rewrite Hsplit in He.
        apply in_app_or in He. destruct He as [He | [<- | He]].
        -- destruct (Hpre e He) as (g & g' & E1 & E2 & Hlt).
           exists gx, g'. repeat split; trivial.
           rewrite Hgb in E1. injection E1 as <-. lra.
        -- exists gx, gb. auto.
        -- destruct (Hpost e He) as (g & g' & E1 & E2 & Hle).
           exists gx, g'. repeat split; trivial.
           rewrite Hgb in E1. injection E1 as <-. lra.
      * intros e [].
    + apply Qltb_ge in Hcmp.
      exists pre, (post ++ [x]). split; [|split].
      * rewrite app_comm_cons, Hsplit, <- app_assoc. reflexivity.
      * exact Hpre.
      * intros e He. apply in_app_or in He. destruct He as [He | [<- | []]].
        -- now apply Hpost.
        -- exists gb, gx. auto.
Qed.

Lemma pick_self (rt : Runtime) (cfg : Config) (today : Z) (e : string) :
  pick rt cfg today e e = e.
Proof. unfold pick. now destruct (closer rt cfg today e e). Qed.

Lemma invoke_disabled (rt : Runtime) (ctx : StrategyContext) (sym : string)
    (direction : Direction) (equity : Q) :
  options_enabled (config ctx) = false ->
  invoke rt ctx sym direction equity = (Resolved None, []).
Proof.
  intro H. unfold invoke, findBestOptionsContract. now rewrite H.
Qed.

Lemma invoke_no_valid (rt : Runtime) (ctx : StrategyContext) (sym : string)
    (direction : Direction) (equity : Q) (exps : list string) :
  options_getExpirations (env ctx) sym = Resolved (Some exps) ->
  validExpirations rt (config ctx) (Date_now rt) exps = [] ->
  fst (invoke rt ctx sym direction equity) = Resolved None.
Proof.
  intros Hexp Hvalid.
  unfold invoke, findBestOptionsContract.
  destruct (options_enabled (config ctx)); [|reflexivity].
  unfold try_catch, selection, bind, await; simpl.
  rewrite Hexp. simpl.
  destruct exps as [|e exps]; [reflexivity|].
  rewrite Hvalid. reflexivity.
Qed.

(** ** Ranking *)

Section StableSort.

Variable A : Type.
Variable key : A -> Q.

Lemma compare_after (x y : A) : Qltb 0 (by_key key x y) = true <-> key y < key x.
Proof. rewrite Qltb_lt. unfold by_key. split; intro; lra. Qed.

Lemma compare_not_after (x y : A) : Qltb 0 (by_key key x y) = false <-> key x <= key y.
Proof. rewrite Qltb_ge. unfold by_key. split; intro; lra. Qed.

Lemma sort_insert_perm (x : A) (l : list A) :
  Permutation (sort_insert (by_key key) x l) (x :: l).
Proof.
  induction l as [|y l IH]; simpl.
  - reflexivity.
  - destruct (Qltb 0 (by_key key x y)).
    + rewrite IH. apply perm_swap.
    + reflexivity.
Qed.

Lemma Array_sort_perm (l : list A) : Permutation (Array_sort (by_key key) l) l.
Proof.
  induction l as [|x l IH]; simpl.
  - reflexivity.
  - rewrite sort_insert_perm. now constructor.
Qed.

Lemma sort_insert_hd (x a : A) (l : list A) :
  key a <= key x ->
  HdRel (fun u v => key u <= key v) a l ->
  HdRel (fun u v => key u <= key v) a (sort_insert (by_key key) x l).
Proof.
  intros Hax Hl. destruct l as [|y l]; simpl.
  - now constructor.
  - destruct (Qltb 0 (by_key key x y)); constructor.
    + now inversion Hl.
    + exact Hax.
Qed.

Lemma sort_insert_sorted (x : A) (l : list A) :
  Sorted (fun u v => key u <= key v) l ->
  Sorted (fun u v => key u <= key v) (sort_insert (by_key key) x l).
Proof.
  induction l as [|y l IH]; intro Hs; simpl.
  - repeat constructor.
  - destruct (Qltb 0 (by_key key x y)) eqn:Hc.
    + apply compare_after in Hc. inversion Hs; subst.
      constructor; [now apply IH|].
      apply sort_insert_hd; [lra | assumption].
    + apply compare_not_after in Hc.
      constructor; [assumption | now constructor].
Qed.

Lemma Array_sort_sorted (l : list A) :
  Sorted (fun u v => key u <= key v) (Array_sort (by_key key) l).
Proof.
  induction l as [|x l IH]; simpl.
  - constructor.
  - now apply sort_insert_sorted.
Qed.

Lemma Array_sort_strongly_sorted (l : list A) :
  StronglySorted (fun u v => key u <= key v) (Array_sort (by_key key) l).
Proof.
  apply Sorted_StronglySorted; [|apply Array_sort_sorted].
  intros u v w Huv Hvw. lra.
Qed.

End StableSort.

Lemma filter_split {A : Type} (p : A -> bool) (l u v : list A) (a : A) :
  filter p l = u ++ a :: v ->
  exists l1 l2, l = l1 ++ a :: l2 /\ filter p l1 = u /\ filter p l2 = v.
Proof.
  revert u. induction l as [|x l IH]; intros u H; simpl in H.
  - now destruct u.
  - destruct (p x) eqn:Hp.
    + destruct u as [|y u]; simpl in H; injection H as Hx H.
      * subst x. exists [], l. auto.
      * subst y. destruct (IH _ H) as (l1 & l2 & -> & <- & <-).
        exists (x :: l1), l2. simpl. rewrite Hp. auto.
    + destruct (IH _ H) as (l1 & l2 & -> & <- & <-).
      exists (x :: l1), l2. simpl. rewrite Hp. auto.
Qed.

Lemma positive_strike_spec (c : OptionContract) :
  positive_strike c = true <-> 0 < contract_strike c.
Proof. apply Qltb_lt. Qed.

Lemma sortedContracts_perm (contracts : list OptionContract) (target : Q) :
  Permutation (sortedContracts contracts target) (filter positive_strike contracts).
Proof. apply (Array_sort_perm _ (distance target)). Qed.

Lemma sortedContracts_In (contracts : list OptionContract) (target : Q) (c : OptionContract) :
  In c (sortedContracts contracts target) <-> In c contracts /\ 0 < contract_strike c.
Proof.
  rewrite <- positive_strike_spec, <- filter_In.
  split; apply Permutation_in;
    [|symmetry]; apply sortedContracts_perm.
Qed.


(** ** The gates of one candidate *)

Lemma qualify_unfold (cfg : Config) (equity : Q) (s : OptionSnapshot) (d : Q) :
  snapshot_delta s = Some d ->
  qualify cfg equity (Some s) =
    if Qltb (Qabs d) (options_min_delta cfg) || Qltb (options_max_delta cfg) (Qabs d)
    then None
    else if Qeq_bool (snapshot_bid s) 0 || Qeq_bool (snapshot_ask s) 0 then None
    else if Qltb 0.1 ((snapshot_ask s - snapshot_bid s) / snapshot_ask s) then None
    else if (sizing cfg equity ((snapshot_bid s + snapshot_ask s) / 2) <? 1)%Z then None
    else Some (d, (snapshot_bid s + snapshot_ask s) / 2,
               sizing cfg equity ((snapshot_bid s + snapshot_ask s) / 2)).
Proof.
  unfold snapshot_delta, qualify. intros ->. reflexivity.
Qed.

Lemma band_spec (cfg : Config) (d : Q) :
  Qltb (Qabs d) (options_min_delta cfg) || Qltb (options_max_delta cfg) (Qabs d) = false
  <-> options_min_delta cfg <= Qabs d /\ Qabs d <= options_max_delta cfg.
Proof. rewrite orb_false_iff, !Qltb_ge. tauto. Qed.

Lemma live_quote_spec (bid ask : Q) :
  Qeq_bool bid 0 || Qeq_bool ask 0 = false <-> ~ bid == 0 /\ ~ ask == 0.
Proof.
  rewrite orb_false_iff. split; intros [H1 H2]; split.
  - now apply Qeq_bool_neq.
  - now apply Qeq_bool_neq.
  - destruct (Qeq_bool bid 0) eqn:E; [apply Qeq_bool_iff in E; tauto | reflexivity].
  - destruct (Qeq_bool ask 0) eqn:E; [apply Qeq_bool_iff in E; tauto | reflexivity].
Qed.

Lemma qualify_passes (cfg : Config) (equity : Q) (s : OptionSnapshot) (d : Q) :
  passes_market_gates cfg s d ->
  qualify cfg equity (Some s) =
    if (sizing cfg equity ((snapshot_bid s + snapshot_ask s) / 2) <? 1)%Z then None
    else Some (d, (snapshot_bid s + snapshot_ask s) / 2,
               sizing cfg equity ((snapshot_bid s + snapshot_ask s) / 2)).
Proof.
  intros (Hd & Hmin & Hmax & Hbid & Hask & Hspread).
  rewrite (qualify_unfold _ _ _ _ Hd).
  rewrite (proj2 (band_spec cfg d) (conj Hmin Hmax)).
  rewrite (proj2 (live_quote_spec _ _) (conj Hbid Hask)).
  now rewrite (proj2 (Qltb_ge _ _) Hspread).
Qed.

Lemma qualify_Some_inv (cfg : Config) (equity : Q) (snap : option OptionSnapshot)
    (d midPrice : Q) (n : Z) :
  qualify cfg equity snap = Some (d, midPrice, n) ->
  exists s, snap = Some s
    /\ passes_market_gates cfg s d
    /\ midPrice = (snapshot_bid s + snapshot_ask s) / 2
    /\ n = sizing cfg equity midPrice
    /\ (1 <= n)%Z.
Proof.
  destruct snap as [s|]; [|discriminate].
  destruct (snapshot_delta s) as [d'|] eqn:Hd.
  - rewrite (qualify_unfold _ _ _ _ Hd).
    destruct (_ || _) eqn:Hband; [discriminate|].
    destruct (Qeq_bool _ _ || _) eqn:Hlive; [discriminate|].
    destruct (Qltb 0.1 _) eqn:Hspread; [discriminate|].
    destruct (_ <? _)%Z eqn:Hsize; [discriminate|].
    intros [= <- <- <-].
    apply band_spec in Hband. apply live_quote_spec in Hlive.
    apply Qltb_ge in Hspread. apply Z.ltb_ge in Hsize.
    exists s. unfold passes_market_gates. tauto.
  - unfold snapshot_delta in Hd. unfold qualify. now rewrite Hd.
Qed.

Lemma qualify_None_iff (cfg : Config) (equity : Q) (snap : option OptionSnapshot) :
  qualify cfg equity snap = None <-> rejected cfg equity snap.
Proof.
  destruct snap as [s|]; [|simpl; tauto].
  unfold rejected.
  destruct (greeks s) as [g|] eqn:Hg;
    [|unfold qualify; rewrite Hg; simpl; tauto].
  destruct (greeks_delta g) as [d|] eqn:Hgd;
    [|unfold qualify; rewrite Hg; simpl; rewrite Hgd; tauto].
  assert (Hd : snapshot_delta s = Some d)
    by (unfold snapshot_delta; rewrite Hg; exact Hgd).
  rewrite (qualify_unfold _ _ _ _ Hd).
  destruct (Qltb (Qabs d) (options_min_delta cfg)) eqn:H1.
  { apply Qltb_lt in H1. simpl. tauto. }
  destruct (Qltb (options_max_delta cfg) (Qabs d)) eqn:H2.
  { apply Qltb_lt in H2. simpl. tauto. }
  destruct (Qeq_bool (snapshot_bid s) 0) eqn:H3.
  { apply Qeq_bool_iff in H3. simpl. tauto. }
  destruct (Qeq_bool (snapshot_ask s) 0) eqn:H4.
  { apply Qeq_bool_iff in H4. simpl. tauto. }
  destruct (Qltb 0.1 _) eqn:H5.
  { apply Qltb_lt in H5. simpl. tauto. }
  destruct (_ <? _)%Z eqn:H6.
  { apply Z.ltb_lt in H6. simpl. tauto. }
  simpl. split; [discriminate|].
  apply Qltb_ge in H1, H2, H5. apply Qeq_bool_neq in H3, H4. apply Z.ltb_ge in H6.
  intros [H | [H | [H | [H | [H | H]]]]].
  - exfalso. exact (Qlt_not_le _ _ H H1).
  - exfalso. exact (Qlt_not_le _ _ H H2).
  - tauto.
  - tauto.
  - exfalso. exact (Qlt_not_le _ _ H H5).
  - lia.
Qed.

(** ** The qualification loop *)

Lemma probe_cons (ctx : StrategyContext) (direction : Direction) (equity : Q)
    (bestExp : string) (c : OptionContract) (rest : list OptionContract) (t : Trace) :
  probe ctx direction equity bestExp (c :: rest) t =
    match options_getSnapshot (env ctx) (contract_symbol c) with
    | Rejected e => (Rejected e, t ++ [Called (GetOptionSnapshot (contract_symbol c)) true])
    | Resolved s =>
        match qualify (config ctx) equity s with
        | None => probe ctx direction equity bestExp rest (t ++ [fetched c])
        | Some (d, midPrice, n) =>
            (Resolved (Some (selected direction bestExp c d midPrice n)),
             t ++ [fetched c; Logged "Options" "contract_selected"])
        end
    end.
Proof.
  simpl. unfold bind, await, fetched.
  destruct (options_getSnapshot (env ctx) (contract_symbol c)) as [s|e]; simpl;
    [|reflexivity].
  destruct (qualify (config ctx) equity s) as [[[d m] n]|]; [|reflexivity].
  unfold log, ret, selected. now rewrite <- app_assoc.
Qed.

Lemma probe_skips (ctx : StrategyContext) (direction : Direction) (equity : Q)
    (bestExp : string) (pre rest : list OptionContract) (t : Trace) :
  (forall c, In c pre -> turned_down ctx equity c) ->
  probe ctx direction equity bestExp (pre ++ rest) t
  = probe ctx direction equity bestExp rest (t ++ map fetched pre).
Proof.
  revert t. induction pre as [|c pre IH]; intros t Hpre.
  - simpl. now rewrite app_nil_r.
  - rewrite <- app_comm_cons, probe_cons.
    destruct (Hpre c (or_introl eq_refl)) as (s & -> & Hrej).
    apply qualify_None_iff in Hrej. rewrite Hrej.
    rewrite IH by (intros c' Hc'; apply Hpre; now right).
    simpl. now rewrite <- app_assoc.
Qed.

Lemma probe_first_qualifying (ctx : StrategyContext) (direction : Direction) (equity : Q)
    (bestExp : string) (pre post : list OptionContract) (c : OptionContract)
    (s : option OptionSnapshot) (d midPrice : Q) (n : Z) (t : Trace) :
  (forall c', In c' pre -> turned_down ctx equity c') ->
  options_getSnapshot (env ctx) (contract_symbol c) = Resolved s ->
  qualify (config ctx) equity s = Some (d, midPrice, n) ->
  probe ctx direction equity bestExp (pre ++ c :: post) t
  = (Resolved (Some (selected direction bestExp c d midPrice n)),
     t ++ map fetched (pre ++ [c]) ++ [Logged "Options" "contract_selected"]).
Proof.
  intros Hpre Hs Hq. rewrite probe_skips by assumption.
  rewrite probe_cons, Hs, Hq. f_equal.
  rewrite map_app. simpl. now rewrite <- !app_assoc.
Qed.

(** Every run of the loop: a prefix of the candidates is fetched, in order;
    the run ends on a rejection of the last fetch, on the selection of the
    last fetched candidate, or with all candidates turned down. *)
Lemma probe_run (ctx : StrategyContext) (direction : Direction) (equity : Q)
    (bestExp : string) (candidates : list OptionContract) (t : Trace) :
  (exists pre c post e,
      candidates = pre ++ c :: post
      /\ (forall c', In c' pre -> turned_down ctx equity c')
      /\ options_getSnapshot (env ctx) (contract_symbol c) = Rejected e
      /\ probe ctx direction equity bestExp candidates t
         = (Rejected e, t ++ map fetched pre
                          ++ [Called (GetOptionSnapshot (contract_symbol c)) true]))
  \/ (exists pre c post s d midPrice n,
      candidates = pre ++ c :: post
      /\ (forall c', In c' pre -> turned_down ctx equity c')
      /\ options_getSnapshot (env ctx) (contract_symbol c) = Resolved s
      /\ qualify (config ctx) equity s = Some (d, midPrice, n)
      /\ probe ctx direction equity bestExp candidates t
         = (Resolved (Some (selected direction bestExp c d midPrice n)),
            t ++ map fetched (pre ++ [c]) ++ [Logged "Options" "contract_selected"]))
  \/ ((forall c, In c candidates -> turned_down ctx equity c)
      /\ probe ctx direction equity bestExp candidates t
         = (Resolved None, t ++ map fetched candidates)).
Proof.
  induction candidates as [|c rest IH] using rev_ind.
  - right. right. split; [intros c []|]. simpl. unfold ret. now rewrite app_nil_r.
  - destruct IH as [(pre & c0 & post & e & -> & Hpre & Hrej & Hrun)
                   |[(pre & c0 & post & s & d & m & n & -> & Hpre & Hs & Hq & Hrun)
                    |[Hall Hrun]]].
    + left. exists pre, c0, (post ++ [c]), e.
      rewrite <- app_assoc, <- app_comm_cons. repeat split; trivial.
      rewrite probe_skips, probe_cons, Hrej by assumption.
      now rewrite <- app_assoc.
    + right. left. exists pre, c0, (post ++ [c]), s, d, m, n.
      rewrite <- app_assoc, <- app_comm_cons. repeat split; trivial.
      now apply (probe_first_qualifying _ _ _ _ _ _ _ s).
    + rewrite probe_skips, probe_cons by assumption.
      destruct (options_getSnapshot (env ctx) (contract_symbol c)) as [s|e] eqn:Hs.
      * destruct (qualify (config ctx) equity s) as [[[d m] n]|] eqn:Hq.
        -- right. left. exists rest, c, [], s, d, m, n.
           repeat split; trivial.
           rewrite map_app. simpl. now rewrite <- !app_assoc.
        -- right. right. split.
           ++ intros c' Hc'. apply in_app_or in Hc'.
              destruct Hc' as [Hc' | [<- | []]]; [now apply Hall|].
              exists s. split; [assumption | now apply qualify_None_iff].
           ++ simpl. unfold ret. rewrite map_app. simpl. now rewrite <- app_assoc.
      * left. exists rest, c, [], e. repeat split; trivial.
        now rewrite <- app_assoc.
Qed.

(** ** Runs of the engine *)

Lemma invoke_enabled (rt : Runtime) (ctx : StrategyContext) (sym : string)
    (direction : Direction) (equity : Q) :
  options_enabled (config ctx) = true ->
  invoke rt ctx sym direction equity =
    match selection rt ctx sym direction equity [] with
    | (Resolved a, tr) => (Resolved a, tr)
    | (Rejected e, tr) => (Resolved None, tr ++ [Logged "Options" "error"])
    end.
Proof.
  intro H. unfold invoke, findBestOptionsContract. rewrite H. simpl.
  unfold try_catch.
  destruct (selection rt ctx sym direction equity []) as [[a|e] tr]; reflexivity.
Qed.

Lemma selectExpiration_cons (rt : Runtime) (cfg : Config) (today : Z)
    (exps : list string) (first : string) (rest : list string) :
  validExpirations rt cfg today exps = first :: rest ->
  selectExpiration rt cfg today exps
  = Some (bestExpiration rt cfg today (first :: rest) first).
Proof. intro H. unfold selectExpiration. now rewrite H. Qed.

#[local] Opaque validExpirations bestExpiration sortedContracts probe stockPrice
  targetStrike firstn.

Ltac stops_after b k :=
  left; eexists _, _, b, k;
  split; [reflexivity|];
  split; [eauto|];
  split; [reflexivity|];
  try (right; simpl; lia).

(** A run of the statements under [try] either stops before the loop, with
    no contract, after a prefix of the three calls for expirations, chain
    and underlying snapshot; or it reaches the loop with every stage
    resolved and a non-zero underlying price. *)
Lemma selection_cases (rt : Runtime) (ctx : StrategyContext) (sym : string)
    (direction : Direction) (equity : Q) :
  (exists out tr b k,
      selection rt ctx sym direction equity [] = (out, tr)
      /\ (out = Resolved None \/ exists e, out = Rejected e)
      /\ calls_of tr
         = firstn k [GetExpirations sym; GetChain sym b; GetUnderlyingSnapshot sym]
      /\ (stockPrice (or_null (marketData_getSnapshot (env ctx) sym)) == 0
          \/ (k < 3)%nat))
  \/ (exists exps best ch contracts snap,
      options_getExpirations (env ctx) sym = Resolved (Some exps)
      /\ selectExpiration rt (config ctx) (Date_now rt) exps = Some best
      /\ options_getChain (env ctx) sym best = Resolved (Some ch)
      /\ contracts_of direction ch = Some contracts
      /\ marketData_getSnapshot (env ctx) sym = Resolved snap
      /\ ~ stockPrice snap == 0
      /\ selection rt ctx sym direction equity []
         = probe ctx direction equity best
             (firstn 5 (sortedContracts contracts
                          (targetStrike direction (stockPrice snap) (config ctx))))
             [Called (GetExpirations sym) false;
              Called (GetChain sym best) false;
              Called (GetUnderlyingSnapshot sym) false]).
Proof.
  unfold selection, bind, await. simpl.
  destruct (options_getExpirations (env ctx) sym) as [[[|e0 exps]|]|e] eqn:Hexp; simpl.
  1, 3, 4: stops_after sym 1%nat.
  destruct (validExpirations rt (config ctx) (Date_now rt) (e0 :: exps))
    as [|first rest] eqn:Hvalid; simpl.
  { stops_after sym 1%nat. }
  pose proof (selectExpiration_cons _ _ _ _ _ _ Hvalid) as Hsel.
  set (best := bestExpiration rt (config ctx) (Date_now rt) (first :: rest) first) in *.
  destruct (options_getChain (env ctx) sym best) as [[ch|]|e] eqn:Hchain; simpl.
  2, 3: stops_after best 2%nat.
  destruct (contracts_of direction ch) as [[|c0 contracts]|] eqn:Hcontracts; simpl.
  1, 3: stops_after best 2%nat.
  unfold await_catch.
  destruct (marketData_getSnapshot (env ctx) sym) as [snap|e] eqn:Hsnap; simpl.
  - destruct (Qeq_bool (stockPrice snap) 0) eqn:Hstock.
    + apply Qeq_bool_iff in Hstock. stops_after best 3%nat. now left.
    + apply Qeq_bool_neq in Hstock.
      right. exists (e0 :: exps), best, ch, (c0 :: contracts), snap.
      repeat split; trivial.
  - stops_after best 3%nat. left. reflexivity.
Qed.

#[local] Transparent validExpirations bestExpiration sortedContracts probe stockPrice
  targetStrike firstn.

Lemma calls_of_app (a b : Trace) : calls_of (a ++ b) = calls_of a ++ calls_of b.
Proof.
  induction a as [|[c f|cat ev] a IH]; simpl; [reflexivity | now rewrite IH | exact IH].
Qed.

Lemma calls_of_fetched (l : list OptionContract) :
  calls_of (map fetched l) = map fetch_of l.
Proof. induction l as [|c l IH]; simpl; [reflexivity | now rewrite IH]. Qed.

Lemma firstn_through {A : Type} (pre post : list A) (c : A) :
  firstn (S (List.length pre)) (pre ++ c :: post) = pre ++ [c].
Proof.
  induction pre as [|x pre IH]; simpl; [reflexivity | now rewrite <- IH].
Qed.

Lemma firstn_prefix_of_five {A : Type} (ranked : list A) (k : nat) :
  (k <= List.length (firstn 5 ranked))%nat ->
  (k <= 5)%nat /\ firstn k (firstn 5 ranked) = firstn k ranked.
Proof.
  intro Hk. pose proof (firstn_le_length 5 ranked) as H5.
  split; [lia|]. rewrite firstn_firstn. f_equal. lia.
Qed.

(** What a selected contract rests on: every stage resolved, the candidates
    ranked before it turned down, and its own snapshot through the gates. *)
Lemma invoke_selected_inv (rt : Runtime) (ctx : StrategyContext) (sym : string)
    (direction : Direction) (equity : Q) (r : OptionsContract) :
  fst (invoke rt ctx sym direction equity) = Resolved (Some r) ->
  exists exps best ch contracts snap pre c post s d midPrice n,
    options_getExpirations (env ctx) sym = Resolved (Some exps)
    /\ selectExpiration rt (config ctx) (Date_now rt) exps = Some best
    /\ options_getChain (env ctx) sym best = Resolved (Some ch)
    /\ contracts_of direction ch = Some contracts
    /\ marketData_getSnapshot (env ctx) sym = Resolved snap
    /\ ~ stockPrice snap == 0
    /\ firstn 5 (sortedContracts contracts
                   (targetStrike direction (stockPrice snap) (config ctx)))
       = pre ++ c :: post
    /\ (forall c', In c' pre -> turned_down ctx equity c')
    /\ options_getSnapshot (env ctx) (contract_symbol c) = Resolved s
    /\ qualify (config ctx) equity s = Some (d, midPrice, n)
    /\ r = selected direction best c d midPrice n
    /\ snd (invoke rt ctx sym direction equity)
       = [Called (GetExpirations sym) false;
          Called (GetChain sym best) false;
          Called (GetUnderlyingSnapshot sym) false]
         ++ map fetched (pre ++ [c]) ++ [Logged "Options" "contract_selected"].
Proof.
  destruct (options_enabled (config ctx)) eqn:Hen;
    [|rewrite invoke_disabled by assumption; discriminate].
  rewrite invoke_enabled by assumption.
  destruct (selection_cases rt ctx sym direction equity)
    as [(out & tr & b & k & Hrun & [-> | [e ->]] & _)
       |(exps & best & ch & contracts & snap & H1 & H2 & H3 & H4 & H5 & H6 & Hrun)];
    rewrite Hrun; try discriminate.
  destruct (probe_run ctx direction equity best
              (firstn 5 (sortedContracts contracts
                 (targetStrike direction (stockPrice snap) (config ctx))))
              [Called (GetExpirations sym) false;
               Called (GetChain sym best) false;
               Called (GetUnderlyingSnapshot sym) false])
    as [(pre & c & post & e & _ & _ & _ & Hp)
       |[(pre & c & post & s & d & m & n & Hsplit & Hpre & Hs & Hq & Hp)
        |[_ Hp]]]; rewrite Hp; try discriminate.
  simpl fst. intros [= <-].
  exists exps, best, ch, contracts, snap, pre, c, post, s, d, m, n.
  repeat split; trivial.
Qed.

(** ** Failure containment *)


(** ** Call budget *)

Lemma In_removelast {A : Type} (l : list A) (x : A) :
  In x (removelast l) -> In x l.
Proof.
  induction l as [|a l IH]; simpl; [tauto|].
  destruct l as [|b l]; [intros []|].
  intros [-> | H]; [now left | right; now apply IH].
Qed.

(** The loop fetches a prefix of its candidates, in order, and every
    candidate before the last fetched one was turned down. *)
Lemma probe_calls (ctx : StrategyContext) (direction : Direction) (equity : Q)
    (bestExp : string) (candidates : list OptionContract) (t : Trace) :
  exists k,
    (k <= List.length candidates)%nat
    /\ calls_of (snd (probe ctx direction equity bestExp candidates t))
       = calls_of t ++ map fetch_of (firstn k candidates)
    /\ (forall c, In c (removelast (firstn k candidates)) -> turned_down ctx equity c).
Proof.
  destruct (probe_run ctx direction equity bestExp candidates t)
    as [(pre & c & post & e & -> & Hpre & _ & Hp)
       |[(pre & c & post & s & d & m & n & -> & Hpre & _ & _ & Hp)
        |[Hall Hp]]]; rewrite Hp; simpl snd.
  - exists (S (List.length pre)). rewrite firstn_through, removelast_last.
    split; [rewrite length_app; simpl; lia|]. split; [|exact Hpre].
    rewrite !calls_of_app, calls_of_fetched, map_app. reflexivity.
  - exists (S (List.length pre)). rewrite firstn_through, removelast_last.
    split; [rewrite length_app; simpl; lia|]. split; [|exact Hpre].
    rewrite !calls_of_app, calls_of_fetched. simpl. now rewrite app_nil_r.
  - exists (List.length candidates). rewrite firstn_all.
    split; [lia|]. split.
    + now rewrite calls_of_app, calls_of_fetched.
    + intros c Hc. apply Hall. now apply In_removelast.
Qed.

Lemma calls_of_invoke (rt : Runtime) (ctx : StrategyContext) (sym : string)
    (direction : Direction) (equity : Q) :
  options_enabled (config ctx) = true ->
  calls_of (snd (invoke rt ctx sym direction equity))
  = calls_of (snd (selection rt ctx sym direction equity [])).
Proof.
  intro H. rewrite invoke_enabled by assumption.
  destruct (selection rt ctx sym direction equity []) as [[a|e] tr]; simpl;
    [reflexivity|].
  rewrite calls_of_app. simpl. apply app_nil_r.
Qed.

Lemma filter_fetches (l : list OptionContract) :
  filter is_GetOptionSnapshot (map fetch_of l) = map fetch_of l.
Proof. induction l as [|c l IH]; simpl; [reflexivity | now rewrite IH]. Qed.

Lemma filter_not_fetches (kind : Call -> bool) (l : list OptionContract) :
  (forall s, kind (GetOptionSnapshot s) = false) ->
  filter kind (map fetch_of l) = [].
Proof.
  intro H. induction l as [|c l IH]; simpl; [reflexivity|].
  unfold fetch_of at 1. now rewrite H.
Qed.

(** The calls of an invocation: a prefix of the three calls before the
    loop, followed, when all three were made, by at most five fetches. *)
Lemma invoke_calls (rt : Runtime) (ctx : StrategyContext) (sym : string)
    (direction : Direction) (equity : Q) :
  exists b k (probed : list OptionContract),
    calls_of (snd (invoke rt ctx sym direction equity))
    = firstn k [GetExpirations sym; GetChain sym b; GetUnderlyingSnapshot sym]
      ++ map fetch_of probed
    /\ (List.length probed <= 5)%nat.
Proof.
  destruct (options_enabled (config ctx)) eqn:Hen.
  - rewrite calls_of_invoke by assumption.
    destruct (selection_cases rt ctx sym direction equity)
      as [(out & tr & b & k & Hrun & _ & Hcalls & _)
         |(exps & best & ch & contracts & snap & _ & _ & _ & _ & _ & _ & Hrun)];
      rewrite Hrun.
    + exists b, k, []. simpl. rewrite app_nil_r. split; [exact Hcalls | lia].
    + match goal with
      | |- context [probe ?c ?d ?e ?b ?cands ?t] =>
          destruct (probe_calls c d e b cands t) as (k & Hk & Hcalls & _)
      end.
      apply firstn_prefix_of_five in Hk. destruct Hk as [Hk Hfirst].
      exists best, 3%nat, (firstn k (firstn 5 (sortedContracts contracts
                 (targetStrike direction (stockPrice snap) (config ctx))))).
      split; [exact Hcalls|].
      rewrite Hfirst. pose proof (firstn_le_length k (sortedContracts contracts
                 (targetStrike direction (stockPrice snap) (config ctx)))). lia.
  - rewrite invoke_disabled by assumption. exists sym, 0%nat, []. simpl. split; [reflexivity | lia].
Qed.

(** C6: the loop over the first five ranked candidates fetches the
    snapshots of a prefix of at most five of them, in rank order, and every
    candidate fetched before the last one was turned down, so nothing is
    fetched after a qualifying candidate; an invocation makes at most one
    expirations call, one chain call, one underlying snapshot call and five
    candidate snapshot calls. *)
Theorem call_budget (rt : Runtime) (ctx : StrategyContext) (sym : string)
    (direction : Direction) (equity : Q) :
  (forall bestExp ranked t,
      exists k,
        (k <= 5)%nat
        /\ calls_of (snd (probe ctx direction equity bestExp (firstn 5 ranked) t))
           = calls_of t ++ map fetch_of (firstn k ranked)
        /\ (forall c, In c (removelast (firstn k ranked)) -> turned_down ctx equity c))
  /\ (count_calls is_GetExpirations (snd (invoke rt ctx sym direction equity)) <= 1)%nat
  /\ (count_calls is_GetChain (snd (invoke rt ctx sym direction equity)) <= 1)%nat
  /\ (count_calls is_GetUnderlyingSnapshot (snd (invoke rt ctx sym direction equity)) <= 1)%nat
  /\ (count_calls is_GetOptionSnapshot (snd (invoke rt ctx sym direction equity)) <= 5)%nat
  /\ (List.length (calls_of (snd (invoke rt ctx sym direction equity))) <= 1 + 1 + 1 + 5)%nat.
Proof.
  split.
  - intros bestExp ranked t.
    destruct (probe_calls ctx direction equity bestExp (firstn 5 ranked) t)
      as (k & Hk & Hcalls & Hdown).
    apply firstn_prefix_of_five in Hk. destruct Hk as [Hk Hfirst].
    rewrite Hfirst in *. now exists k.
  - destruct (invoke_calls rt ctx sym direction equity)
      as (b & k & probed & Hcalls & Hlen).
    unfold count_calls. rewrite Hcalls, !filter_app, !length_app.
    rewrite filter_fetches, !filter_not_fetches by reflexivity.
    rewrite !length_map.
    destruct k as [|[|[|k]]]; simpl; rewrite ?firstn_nil; simpl; repeat split; lia.
Qed.

(** ** Position size *)

Lemma sized_mid_positive (cfg : Config) (equity midPrice : Q) :
  0 <= equity -> 0 <= options_max_pct_per_trade cfg ->
  (1 <= sizing cfg equity midPrice)%Z ->
  0 < midPrice.
Proof.
  intros Heq Hpct Hsize. unfold sizing in Hsize.
  set (budget := equity * options_max_pct_per_trade cfg) in *.
  assert (Hbudget : 0 <= budget) by (apply Qmult_le_0_compat; assumption).
  assert (Hone : 1 <= budget / (midPrice * 100)).
  { eapply Qle_trans; [|apply Qfloor_le].
    change 1 with (inject_Z 1). now rewrite <- Zle_Qle. }
  destruct (Qlt_le_dec 0 midPrice) as [Hpos | Hneg]; [exact Hpos | exfalso].
  destruct (Qeq_dec (midPrice * 100) 0) as [Hz | Hnz].
  - unfold Qdiv in Hone. rewrite Hz in Hone.
    change (/ 0) with 0 in Hone. rewrite Qmult_0_r in Hone.
    revert Hone. apply Qlt_not_le. reflexivity.
  - assert (Hcost : budget / (midPrice * 100) * (midPrice * 100) == budget)
      by (field; intro Hm; apply Hnz; rewrite Hm; reflexivity).
    assert (Hlt : midPrice * 100 < 0) by lra.
    nra.
Qed.

(** ** The qualifier *)

(** ** Target strike *)


(** ** What a returned contract guarantees *)

Lemma In_firstn {A : Type} (n : nat) (l : list A) (x : A) :
  In x (firstn n l) -> In x l.
Proof.
  intro H. rewrite <- (firstn_skipn n l). apply in_or_app. now left.
Qed.


(** ** The selector against the specification *)

Lemma in_window_eligible (rt : Runtime) (cfg : Config) (today : Z) (e : string) :
  in_window rt cfg today e = eligible rt cfg today e.
Proof.
  unfold in_window, dte_of, eligible, days_to_expiration.
  destruct (Date_getTime rt e); reflexivity.
Qed.

Lemma validExpirations_eligible (rt : Runtime) (cfg : Config) (today : Z)
    (expirations : list string) :
  validExpirations rt cfg today expirations = filter (eligible rt cfg today) expirations.
Proof.
  unfold validExpirations. apply filter_ext. intro e. apply in_window_eligible.
Qed.

Lemma gap_midpoint (rt : Runtime) (cfg : Config) (today : Z) (e : string) (t : Z) :
  Date_getTime rt e = Some t ->
  gap rt cfg today e = Some (midpoint_distance cfg (days_to_expiration t today)).
Proof.
  intro H. unfold gap, dte_of. rewrite H. reflexivity.
Qed.


(** ** The underlying price against the specification *)

Lemma stockPrice_fallback_price (snapshot : option Snapshot) :
  stockPrice snapshot = fallback_price snapshot.
Proof.
  unfold stockPrice, fallback_price, source_trade, source_ask, source_bid,
    or_zero, or_else, chain.
  destruct snapshot as [[lt lq]|]; [|reflexivity].
  destruct lt as [[[p|]]|]; destruct lq as [[[b|] [a|]]|]; simpl;
    repeat match goal with
           | |- context [Qeq_bool ?x 0] => destruct (Qeq_bool x 0) eqn:?
           end;
    try reflexivity; try discriminate; congruence.
Qed.

Lemma fallback_price_zero (snapshot : option Snapshot) :
  fallback_price snapshot == 0 <->
  source_trade snapshot == 0 /\ source_ask snapshot == 0 /\ source_bid snapshot == 0.
Proof.
  unfold fallback_price.
  destruct (Qeq_bool (source_trade snapshot) 0) eqn:Et;
    destruct (Qeq_bool (source_ask snapshot) 0) eqn:Ea;
    destruct (Qeq_bool (source_bid snapshot) 0) eqn:Eb;
    rewrite ?Qeq_bool_iff in *;
    repeat match goal with
           | H : Qeq_bool _ _ = false |- _ => apply Qeq_bool_neq in H
           end;
    split; intro H; try tauto; try (destruct H as (? & ? & ?); tauto);
    try (repeat split; assumption || reflexivity).
Qed.

(** The run up to the underlying price, for a chain that resolved with
    contracts on the requested side. *)
Lemma invoke_priced (rt : Runtime) (ctx : StrategyContext) (sym : string)
    (direction : Direction) (equity : Q) (exps : list string) (best : string)
    (ch : OptionsChain) (c0 : OptionContract) (contracts : list OptionContract) :
  options_enabled (config ctx) = true ->
  options_getExpirations (env ctx) sym = Resolved (Some exps) ->
  selectExpiration rt (config ctx) (Date_now rt) exps = Some best ->
  options_getChain (env ctx) sym best = Resolved (Some ch) ->
  contracts_of direction ch = Some (c0 :: contracts) ->
  invoke rt ctx sym direction equity
  = if Qeq_bool (stockPrice (or_null (marketData_getSnapshot (env ctx) sym))) 0
    then (Resolved None,
          [Called (GetExpirations sym) false; Called (GetChain sym best) false;
           Called (GetUnderlyingSnapshot sym)
                  (is_rejected (marketData_getSnapshot (env ctx) sym))])
    else
      match probe ctx direction equity best
              (firstn 5 (sortedContracts (c0 :: contracts)
                 (targetStrike direction
                    (stockPrice (or_null (marketData_getSnapshot (env ctx) sym)))
                    (config ctx))))
              [Called (GetExpirations sym) false; Called (GetChain sym best) false;
               Called (GetUnderlyingSnapshot sym)
                      (is_rejected (marketData_getSnapshot (env ctx) sym))] with
      | (Resolved a, tr) => (Resolved a, tr)
      | (Rejected e, tr) => (Resolved None, tr ++ [Logged "Options" "error"])
      end.
Proof.
  intros Hen Hexp Hsel Hch Hcs.
  rewrite invoke_enabled by assumption.
  unfold selectExpiration in Hsel.
  destruct (validExpirations rt (config ctx) (Date_now rt) exps)
    as [|first rest] eqn:Hvalid; [discriminate|].
  assert (Hb : bestExpiration rt (config ctx) (Date_now rt) (first :: rest) first = best)
    by (now injection Hsel).
  clear Hsel.
  destruct exps as [|e0 exps]; [discriminate Hvalid|].
  unfold selection, bind, await. rewrite Hexp. cbn [is_rejected].
  rewrite Hvalid. cbv zeta. rewrite Hb. rewrite Hch. cbn [is_rejected]. rewrite Hcs.
  unfold await_catch.
  destruct (marketData_getSnapshot (env ctx) sym) as [snap|e]; cbn [or_null is_rejected];
    cbn [app].
  - destruct (Qeq_bool (stockPrice snap) 0); reflexivity.
  - reflexivity.
Qed.


(** * The worked market *)

(** The run on the example: the 94 strike, ranked first, is priced at a mid
    of 6.00 and sized at 0; the 98 strike, at the same distance from the
    target 96 and second in the ranking, is selected with one contract. *)
Example example_run :
  invoke example_runtime example_ctx "AAPL" bullish 10000
  = (Resolved (Some {| symbol := "AAPL240322C00098000";
                       strike := 98;
                       expiration := "2024-03-22";
                       delta := 0.55;
                       mid_price := (4.70 + 4.90) / 2;
                       max_contracts := 1;
                       option_type := call |}),
     [Called (GetExpirations "AAPL") false;
      Called (GetChain "AAPL" "2024-03-22") false;
      Called (GetUnderlyingSnapshot "AAPL") false;
      Called (GetOptionSnapshot "AAPL240322C00094000") false;
      Called (GetOptionSnapshot "AAPL240322C00098000") false;
      Logged "Options" "contract_selected"]).
Proof. vm_compute. reflexivity. Qed.

Example example_dtes :
  map (dte_of example_runtime (Date_now example_runtime)) example_expirations
  = [Some 7; Some 14; Some 21; Some 28; Some 49]%Z.
Proof. vm_compute. reflexivity. Qed.

(** Two expirations at the same distance from the midpoint 21: the first
    one in input order is kept. *)
Example example_tie :
  selectExpiration example_runtime example_config (Date_now example_runtime)
    ["2024-03-15"; "2024-03-29"]%string = Some "2024-03-15"%string
  /\ selectExpiration example_runtime example_config (Date_now example_runtime)
    ["2024-03-29"; "2024-03-15"]%string = Some "2024-03-29"%string.
Proof. split; vm_compute; reflexivity. Qed.

Example example_ranking :
  map contract_strike (sortedContracts example_calls 96)
  = [94; 98; 100; 90; 105; 85; 110].
Proof. vm_compute. reflexivity. Qed.

Example example_failing_run :
  invoke example_runtime failing_ctx "AAPL" bullish 10000
  = (Resolved None,
     [Called (GetExpirations "AAPL") false;
      Called (GetChain "AAPL" "2024-03-22") true;
      Logged "Options" "error"]).
Proof. vm_compute. reflexivity. Qed.

(** An expiration of the same day at 18:00 UTC, read at 15:30 UTC, has a
    DTE of 1, where the difference of the two midnights is 0. *)
Lemma dte_not_truncated :
  Date_getTime example_runtime "2024-03-01T18:00:00Z" = Some 1709316000000%Z
  /\ dte_of example_runtime (Date_now example_runtime) "2024-03-01T18:00:00Z" = Some 1%Z
  /\ truncated_dte 1709316000000 (Date_now example_runtime) = 0%Z
  /\ dte_of example_runtime (Date_now example_runtime) "2024-03-01T18:00:00Z"
     <> Some (truncated_dte 1709316000000 (Date_now example_runtime)).
Proof.
  repeat split; try (vm_compute; reflexivity).
  vm_compute. discriminate.
Qed.

Lemma dte_day_granularity_witness :
  Date_getTime example_runtime "2024-03-22" = Some 1711065600000%Z
  /\ (1711065600000 mod MS_PER_DAY = 0)%Z
  /\ (Date_now example_runtime < 1711065600000)%Z
  /\ dte_of example_runtime (Date_now example_runtime) "2024-03-22"
     = Some (truncated_dte 1711065600000 (Date_now example_runtime))
  /\ exists d, dte_of example_runtime (Date_now example_runtime) "2024-03-22" = Some d
               /\ (1 <= d)%Z.
Proof.
  assert (Ht : Date_getTime example_runtime "2024-03-22" = Some 1711065600000%Z)
    by reflexivity.
  assert (Hmid : (1711065600000 mod MS_PER_DAY = 0)%Z) by reflexivity.
  assert (Hlt : (Date_now example_runtime < 1711065600000)%Z) by reflexivity.
  destruct (dte_day_granularity example_runtime (Date_now example_runtime)
              "2024-03-22" 1711065600000 Ht) as (_ & H2 & H3).
  split; [exact Ht|]. split; [exact Hmid|]. split; [exact Hlt|].
  split; [exact (H2 Hmid) | exact (H3 Hlt)].
Defined.

Lemma call_budget_witness :
  (count_calls is_GetExpirations
     (snd (invoke example_runtime example_ctx "AAPL" bullish 10000)) <= 1)%nat
  /\ (count_calls is_GetOptionSnapshot
        (snd (invoke example_runtime example_ctx "AAPL" bullish 10000)) <= 5)%nat
  /\ (List.length (calls_of
        (snd (invoke example_runtime example_ctx "AAPL" bullish 10000))) <= 1 + 1 + 1 + 5)%nat
  /\ count_calls is_GetOptionSnapshot
       (snd (invoke example_runtime example_ctx "AAPL" bullish 10000)) = 2%nat.
Proof.
  destruct (call_budget example_runtime example_ctx "AAPL" bullish 10000)
    as (_ & H1 & _ & _ & H4 & H5).
  split; [exact H1|]. split; [exact H4|]. split; [exact H5|]. reflexivity.
Defined.






(** * Further properties of the engine *)

(** ** Traces *)

#[local] Opaque validExpirations bestExpiration sortedContracts probe stockPrice
  targetStrike firstn.

Ltac exits_by :=
  left; eexists _, _; split; [reflexivity | econstructor; try (eexists; split; eassumption)].

(** A run of the statements under [try] ends before the loop in one of the
    listed ways, or it enters the loop after the three resolved calls. *)
Lemma selection_exits (rt : Runtime) (ctx : StrategyContext) (sym : string)
    (direction : Direction) (equity : Q) :
  (exists out tr,
      selection rt ctx sym direction equity [] = (out, tr)
      /\ early_exit sym (selected_expiration rt ctx sym) out tr)
  \/ (exists exps best ch contracts snap,
      options_getExpirations (env ctx) sym = Resolved (Some exps)
      /\ selectExpiration rt (config ctx) (Date_now rt) exps = Some best
      /\ options_getChain (env ctx) sym best = Resolved (Some ch)
      /\ contracts_of direction ch = Some contracts
      /\ marketData_getSnapshot (env ctx) sym = Resolved snap
      /\ ~ stockPrice snap == 0
      /\ selection rt ctx sym direction equity []
         = probe ctx direction equity best
             (firstn 5 (sortedContracts contracts
                          (targetStrike direction (stockPrice snap) (config ctx))))
             (prelude sym best)).
Proof.
  unfold selection, bind, await. simpl.
  destruct (options_getExpirations (env ctx) sym) as [[[|e0 exps]|]|e] eqn:Hexp; simpl.
  1, 3, 4: exits_by.
  destruct (validExpirations rt (config ctx) (Date_now rt) (e0 :: exps))
    as [|first rest] eqn:Hvalid; simpl.
  { exits_by. }
  pose proof (selectExpiration_cons _ _ _ _ _ _ Hvalid) as Hsel.
  set (best := bestExpiration rt (config ctx) (Date_now rt) (first :: rest) first) in *.
  destruct (options_getChain (env ctx) sym best) as [[ch|]|e] eqn:Hchain; simpl.
  2, 3: exits_by.
  destruct (contracts_of direction ch) as [[|c0 contracts]|] eqn:Hcontracts; simpl.
  1, 3: exits_by.
  unfold await_catch.
  destruct (marketData_getSnapshot (env ctx) sym) as [snap|e] eqn:Hsnap; simpl.
  - destruct (Qeq_bool (stockPrice snap) 0) eqn:Hstock.
    + exits_by.
    + apply Qeq_bool_neq in Hstock.
      right. exists (e0 :: exps), best, ch, (c0 :: contracts), snap.
      repeat split; trivial.
  - exits_by.
Qed.

#[local] Transparent validExpirations bestExpiration sortedContracts probe stockPrice
  targetStrike firstn.

(** The runs of an invocation, with their results and traces. *)
Lemma invoke_cases (rt : Runtime) (ctx : StrategyContext) (sym : string)
    (direction : Direction) (equity : Q) :
  (options_enabled (config ctx) = false
   /\ invoke rt ctx sym direction equity = (Resolved None, []))
  \/ (exists tr,
        early_exit sym (selected_expiration rt ctx sym) (Resolved None) tr
        /\ invoke rt ctx sym direction equity = (Resolved None, tr))
  \/ (exists e tr,
        early_exit sym (selected_expiration rt ctx sym) (Rejected e) tr
        /\ invoke rt ctx sym direction equity
           = (Resolved None, tr ++ [Logged "Options" "error"]))
  \/ (exists best candidates pre c post e,
        reaches_loop rt ctx sym direction best candidates
        /\ candidates = pre ++ c :: post
        /\ (forall c', In c' pre -> turned_down ctx equity c')
        /\ options_getSnapshot (env ctx) (contract_symbol c) = Rejected e
        /\ invoke rt ctx sym direction equity
           = (Resolved None,
              prelude sym best ++ map fetched pre
                ++ [Called (fetch_of c) true; Logged "Options" "error"]))
  \/ (exists best candidates pre c post s d midPrice n,
        reaches_loop rt ctx sym direction best candidates
        /\ candidates = pre ++ c :: post
        /\ (forall c', In c' pre -> turned_down ctx equity c')
        /\ options_getSnapshot (env ctx) (contract_symbol c) = Resolved s
        /\ qualify (config ctx) equity s = Some (d, midPrice, n)
        /\ invoke rt ctx sym direction equity
           = (Resolved (Some (selected direction best c d midPrice n)),
              prelude sym best ++ map fetched (pre ++ [c])
                ++ [Logged "Options" "contract_selected"]))
  \/ (exists best candidates,
        reaches_loop rt ctx sym direction best candidates
        /\ (forall c, In c candidates -> turned_down ctx equity c)
        /\ invoke rt ctx sym direction equity
           = (Resolved None, prelude sym best ++ map fetched candidates)).
Proof.
  destruct (options_enabled (config ctx)) eqn:Hen;
    [|left; split; [reflexivity | now apply invoke_disabled]].
  right. rewrite invoke_enabled by assumption.
  destruct (selection_exits rt ctx sym direction equity)
    as [(out & tr & Hrun & Hexit)
       |(exps & best & ch & contracts & snap & H1 & H2 & H3 & H4 & H5 & H6 & Hrun)];
    rewrite Hrun.
  - destruct out as [[r|]|e].
    + inversion Hexit.
    + left. now exists tr.
    + right. left. now exists e, tr.
  - right. right.
    set (candidates := firstn 5 (sortedContracts contracts
           (targetStrike direction (stockPrice snap) (config ctx)))) in *.
    assert (Hloop : reaches_loop rt ctx sym direction best candidates)
      by (exists exps, ch, contracts, snap; repeat split; trivial).
    destruct (probe_run ctx direction equity best candidates (prelude sym best))
      as [(pre & c & post & e & Hsplit & Hpre & Hrej & Hp)
         |[(pre & c & post & s & d & m & n & Hsplit & Hpre & Hs & Hq & Hp)
          |[Hall Hp]]]; rewrite Hp.
    + left. exists best, candidates, pre, c, post, e.
      repeat split; trivial. now rewrite <- !app_assoc.
    + right. left. exists best, candidates, pre, c, post, s, d, m, n.
      repeat split; trivial.
    + right. right. exists best, candidates. repeat split; trivial.
Qed.


(** ** The returned contract *)

Lemma sizing_bounds (cfg : Config) (equity midPrice : Q) :
  0 < midPrice ->
  inject_Z (sizing cfg equity midPrice) * (midPrice * 100)
    <= equity * options_max_pct_per_trade cfg
  /\ equity * options_max_pct_per_trade cfg
     < inject_Z (sizing cfg equity midPrice + 1) * (midPrice * 100).
Proof.
  intro Hmid. unfold sizing.
  set (budget := equity * options_max_pct_per_trade cfg).
  set (cost := midPrice * 100).
  assert (Hcost : 0 < cost) by (unfold cost; lra).
  assert (Hq : budget / cost * cost == budget) by (field; lra).
  pose proof (Qfloor_le (budget / cost)) as Hlo.
  pose proof (Qlt_floor (budget / cost)) as Hhi.
  split.
  - rewrite <- Hq at 2. apply Qmult_le_compat_r; [exact Hlo | lra].
  - rewrite <- Hq at 1. apply Qmult_lt_compat_r; assumption.
Qed.

Lemma tight_quote (bid ask : Q) :
  ~ ask == 0 -> (ask - bid) / ask <= 0.1 -> 0 < (bid + ask) / 2 ->
  0 < ask /\ 0.9 * ask <= bid.
Proof.
  intros Hask Hspread Hmid.
  assert (Hq : (ask - bid) / ask * ask == ask - bid) by (field; exact Hask).
  set (spread := (ask - bid) / ask) in *.
  assert (Hhalf : 0 < bid + ask).
  { setoid_replace (bid + ask) with ((bid + ask) / 2 * 2) by field. lra. }
  destruct (Qlt_le_dec 0 ask) as [Hpos | Hneg].
  - split; [exact Hpos|].
    assert (Hprod : 0 <= (0.1 - spread) * ask)
      by (apply Qmult_le_0_compat; lra).
    lra.
  - exfalso. assert (Hlt : ask < 0).
    { destruct (Qeq_dec ask 0) as [E | E]; [contradiction | lra]. }
    assert (Hprod : 0 <= (0.1 - spread) * - ask)
      by (apply Qmult_le_0_compat; lra).
    lra.
Qed.

(** A returned contract has a live quote with a positive ask and a bid of
    at least 90% of the ask. *)
Theorem returned_quote_is_tight (rt : Runtime) (ctx : StrategyContext)
    (sym : string) (direction : Direction) (equity : Q) (r : OptionsContract) :
  0 <= equity ->
  0 <= options_max_pct_per_trade (config ctx) ->
  fst (invoke rt ctx sym direction equity) = Resolved (Some r) ->
  exists s,
    options_getSnapshot (env ctx) (symbol r) = Resolved (Some s)
    /\ 0 < snapshot_ask s
    /\ 0.9 * snapshot_ask s <= snapshot_bid s
    /\ 0 < snapshot_bid s.
Proof.
  intros Heq Hpct Hr.
  destruct (invoke_selected_inv _ _ _ _ _ _ Hr)
    as (exps & best & ch & contracts & snap & pre & c & post & s & d & m & n
        & _ & _ & _ & _ & _ & _ & _ & _ & Hs & Hq & -> & _).
  destruct (qualify_Some_inv _ _ _ _ _ _ Hq)
    as (s' & -> & (_ & _ & _ & _ & Hask & Hspread) & -> & -> & Hone).
  pose proof (sized_mid_positive _ _ _ Heq Hpct Hone) as Hmid.
  destruct (tight_quote _ _ Hask Hspread Hmid) as [Hpos Hbid].
  exists s'. simpl. repeat split; trivial. lra.
Qed.

Lemma StronglySorted_after {A : Type} (R : A -> A -> Prop) (l1 l2 : list A) (x : A) :
  StronglySorted R (l1 ++ x :: l2) -> Forall (R x) l2.
Proof.
  induction l1 as [|a l1 IH]; simpl; intro H; inversion H; subst; auto.
Qed.

Lemma filter_none {A : Type} (p : A -> bool) (l : list A) :
  Forall (fun x => p x = false) l -> filter p l = [].
Proof.
  induction 1 as [|x l Hx _ IH]; simpl; [reflexivity | now rewrite Hx].
Qed.

Lemma Permutation_filter_length {A : Type} (p : A -> bool) (l l' : list A) :
  Permutation l l' -> List.length (filter p l) = List.length (filter p l').
Proof.
  induction 1 as [|x l l' _ IH|x y l|l l' l'' _ IH1 _ IH2]; simpl.
  - reflexivity.
  - destruct (p x); simpl; now rewrite IH.
  - destruct (p x), (p y); reflexivity.
  - now rewrite IH1.
Qed.

(** In a ranking, at most as many contracts are strictly nearer to the
    target than a contract as there are contracts ranked before it. *)
Lemma nearer_are_before (contracts : list OptionContract) (target : Q)
    (pre post : list OptionContract) (c : OptionContract) :
  sortedContracts contracts target = pre ++ c :: post ->
  (List.length (filter (nearer target c) (filter positive_strike contracts))
   <= List.length pre)%nat.
Proof.
  intro Hsplit.
  rewrite <- (Permutation_filter_length _ _ _ (sortedContracts_perm contracts target)).
  pose proof (Array_sort_strongly_sorted _ (distance target)
                (filter positive_strike contracts)) as Hsorted.
  change (Array_sort (by_key (distance target)) (filter positive_strike contracts))
    with (sortedContracts contracts target) in Hsorted.
  rewrite Hsplit in *. apply StronglySorted_after in Hsorted.
  rewrite filter_app. simpl.
  assert (Hself : nearer target c c = false)
    by (apply Qltb_ge; apply Qle_refl).
  rewrite Hself, (filter_none (nearer target c) post).
  - rewrite app_nil_r. apply filter_length_le.
  - eapply Forall_impl; [|exact Hsorted].
    intros x Hx. now apply Qltb_ge.
Qed.


Lemma fold_pick_In (rt : Runtime) (cfg : Config) (today : Z) (l : list string) :
  forall first, In (fold_left (pick rt cfg today) l first) (first :: l).
Proof.
  induction l as [|x l IH]; intro first; simpl.
  - now left.
  - assert (Hpick : pick rt cfg today first x = first \/ pick rt cfg today first x = x)
      by (unfold pick; destruct (closer rt cfg today x first); auto).
    destruct (IH (pick rt cfg today first x)) as [H | H].
    + rewrite <- H. destruct Hpick as [-> | ->]; auto.
    + auto.
Qed.

Lemma selectExpiration_valid (rt : Runtime) (cfg : Config) (today : Z)
    (exps : list string) (best : string) :
  selectExpiration rt cfg today exps = Some best ->
  In best (validExpirations rt cfg today exps).
Proof.
  unfold selectExpiration, bestExpiration.
  destruct (validExpirations rt cfg today exps) as [|first rest]; [discriminate|].
  intros [= <-]. simpl fold_left. rewrite pick_self. apply fold_pick_In.
Qed.

(** The expiration of a returned contract is one the provider listed, and
    its DTE lies in [min_dte, max_dte]. *)
Theorem returned_expiration_in_window (rt : Runtime) (ctx : StrategyContext)
    (sym : string) (direction : Direction) (equity : Q) (r : OptionsContract) :
  fst (invoke rt ctx sym direction equity) = Resolved (Some r) ->
  exists exps dte,
    options_getExpirations (env ctx) sym = Resolved (Some exps)
    /\ In (expiration r) exps
    /\ dte_of rt (Date_now rt) (expiration r) = Some dte
    /\ options_min_dte (config ctx) <= inject_Z dte
    /\ inject_Z dte <= options_max_dte (config ctx).
Proof.
  intro Hr.
  destruct (invoke_selected_inv _ _ _ _ _ _ Hr)
    as (exps & best & ch & contracts & snap & pre & c & post & s & d & m & n
        & Hexp & Hsel & _ & _ & _ & _ & _ & _ & _ & _ & -> & _).
  apply selectExpiration_valid in Hsel.
  unfold validExpirations in Hsel. apply filter_In in Hsel.
  destruct Hsel as [Hin Hwin]. apply in_window_spec in Hwin.
  destruct Hwin as (dte & Hdte & Hmin & Hmax).
  exists exps, dte. simpl. auto.
Qed.

(** ** More equity *)

Lemma sizing_mono (cfg : Config) (equity equity' midPrice : Q) :
  0 < midPrice -> 0 <= options_max_pct_per_trade cfg -> equity <= equity' ->
  (sizing cfg equity midPrice <= sizing cfg equity' midPrice)%Z.
Proof.
  intros Hmid Hpct Hle. unfold sizing. apply Qfloor_resp_le.
  unfold Qdiv. apply Qmult_le_compat_r.
  - now apply Qmult_le_compat_r.
  - apply Qinv_le_0_compat. lra.
Qed.

Lemma qualify_mono (cfg : Config) (equity equity' : Q) (snap : option OptionSnapshot)
    (d midPrice : Q) (n : Z) :
  0 <= equity -> 0 <= options_max_pct_per_trade cfg -> equity <= equity' ->
  qualify cfg equity snap = Some (d, midPrice, n) ->
  exists n', qualify cfg equity' snap = Some (d, midPrice, n') /\ (n <= n')%Z.
Proof.
  intros Heq Hpct Hle Hq.
  destruct (qualify_Some_inv _ _ _ _ _ _ Hq) as (s & -> & Hgates & -> & -> & Hone).
  pose proof (sized_mid_positive _ _ _ Heq Hpct Hone) as Hmid.
  pose proof (sizing_mono cfg equity equity' _ Hmid Hpct Hle) as Hmono.
  rewrite (qualify_passes _ _ _ _ Hgates).
  destruct (_ <? 1)%Z eqn:Hlt; [apply Z.ltb_lt in Hlt; lia|].
  eexists. split; [reflexivity | exact Hmono].
Qed.

(** With more equity the loop still selects, at the qualifying candidate
    or at one ranked before it. *)
Lemma probe_more_equity (ctx : StrategyContext) (direction : Direction)
    (equity equity' : Q) (bestExp : string) (post : list OptionContract)
    (c : OptionContract) (s : option OptionSnapshot) (d midPrice : Q) (n : Z) :
  0 <= equity -> 0 <= options_max_pct_per_trade (config ctx) -> equity <= equity' ->
  options_getSnapshot (env ctx) (contract_symbol c) = Resolved s ->
  qualify (config ctx) equity s = Some (d, midPrice, n) ->
  forall pre t,
    (forall c', In c' pre -> turned_down ctx equity c') ->
    exists c' s' d' m' n' t',
      In c' (pre ++ [c])
      /\ options_getSnapshot (env ctx) (contract_symbol c') = Resolved s'
      /\ qualify (config ctx) equity' s' = Some (d', m', n')
      /\ probe ctx direction equity' bestExp (pre ++ c :: post) t
         = (Resolved (Some (selected direction bestExp c' d' m' n')), t').
Proof.
  intros Heq Hpct Hle Hs Hq pre.
  induction pre as [|c1 pre IH]; intros t Hpre; simpl app.
  - destruct (qualify_mono _ _ _ _ _ _ _ Heq Hpct Hle Hq) as (n' & Hq' & _).
    exists c, s, d, midPrice, n'. eexists. rewrite probe_cons, Hs, Hq'.
    repeat split; trivial. now left.
  - rewrite probe_cons.
    destruct (Hpre c1 (or_introl eq_refl)) as (s1 & Hs1 & _). rewrite Hs1.
    destruct (qualify (config ctx) equity' s1) as [[[d1 m1] n1]|] eqn:Hq1.
    + exists c1, s1, d1, m1, n1. eexists. repeat split; trivial. now left.
    + destruct (IH (t ++ [fetched c1])) as (c' & s' & d' & m' & n' & t' & Hin & H1 & H2 & H3).
      { intros c' Hc'. apply Hpre. now right. }
      exists c', s', d', m', n', t'. repeat split; trivial. now right.
Qed.

#[local] Opaque validExpirations bestExpiration sortedContracts probe stockPrice
  targetStrike firstn.

(** Once every stage before the loop has resolved, the result of the
    invocation is that of the loop. *)
Lemma invoke_in_loop (rt : Runtime) (ctx : StrategyContext) (sym : string)
    (direction : Direction) (equity : Q) (best : string)
    (candidates : list OptionContract) :
  reaches_loop rt ctx sym direction best candidates ->
  candidates <> [] ->
  invoke rt ctx sym direction equity =
    match probe ctx direction equity best candidates (prelude sym best) with
    | (Resolved a, tr) => (Resolved a, tr)
    | (Rejected e, tr) => (Resolved None, tr ++ [Logged "Options" "error"])
    end.
Proof.
  intros (exps & ch & contracts & snap & Hen & Hexp & Hsel & Hch & Hcs & Hsnap
          & Hstock & ->) Hne.
  rewrite invoke_enabled by assumption.
  unfold selectExpiration in Hsel.
  destruct (validExpirations rt (config ctx) (Date_now rt) exps)
    as [|first rest] eqn:Hvalid; [discriminate|].
  injection Hsel as <-.
  destruct exps as [|e0 exps]; [discriminate Hvalid|].
  unfold selection, bind, await. simpl. rewrite Hexp. simpl.
  rewrite Hvalid. simpl. rewrite Hch. simpl. rewrite Hcs.
  destruct contracts as [|c0 contracts];
    [exfalso; apply Hne; reflexivity|].
  unfold await_catch. rewrite Hsnap. simpl.
  destruct (Qeq_bool (stockPrice snap) 0) eqn:E;
    [apply Qeq_bool_iff in E; contradiction|].
  reflexivity.
Qed.

#[local] Transparent validExpirations bestExpiration sortedContracts probe stockPrice
  targetStrike firstn.

(** More equity never loses a selection: when the engine returns a
    contract for some equity, it returns one for any larger equity, of the
    same expiration and type, and when it is the same contract its size is
    at least as large. *)
Theorem more_equity_still_selects (rt : Runtime) (ctx : StrategyContext)
    (sym : string) (direction : Direction) (equity equity' : Q) (r : OptionsContract) :
  0 <= equity ->
  0 <= options_max_pct_per_trade (config ctx) ->
  equity <= equity' ->
  fst (invoke rt ctx sym direction equity) = Resolved (Some r) ->
  exists r',
    fst (invoke rt ctx sym direction equity') = Resolved (Some r')
    /\ expiration r' = expiration r
    /\ option_type r' = option_type r
    /\ (symbol r' = symbol r -> (max_contracts r <= max_contracts r')%Z).
Proof.
  intros Heq Hpct Hle Hr.
  destruct (invoke_selected_inv _ _ _ _ _ _ Hr)
    as (exps & best & ch & contracts & snap & pre & c & post & s & d & m & n
        & Hexp & Hsel & Hch & Hcs & Hsnap & Hstock & Hsplit & Hpre & Hs & Hq & -> & _).
  assert (Hen : options_enabled (config ctx) = true).
  { destruct (options_enabled (config ctx)) eqn:E; [reflexivity|].
    rewrite invoke_disabled in Hr by assumption. discriminate. }
  assert (Hloop : reaches_loop rt ctx sym direction best (pre ++ c :: post)).
  { exists exps, ch, contracts, snap. rewrite <- Hsplit. repeat split; trivial. }
  rewrite (invoke_in_loop _ _ _ _ equity' _ _ Hloop)
    by (intro E; apply (app_cons_not_nil pre post c); now rewrite E).
  destruct (probe_more_equity ctx direction equity equity' best post c s d m n
              Heq Hpct Hle Hs Hq pre (prelude sym best) Hpre)
    as (c' & s' & d' & m' & n' & t' & Hin & Hs' & Hq' & Hrun).
  rewrite Hrun. eexists. split; [reflexivity|]. simpl.
  repeat split; trivial.
  intro Hsame. rewrite Hsame, Hs in Hs'. injection Hs' as <-.
  destruct (qualify_mono _ _ _ _ _ _ _ Heq Hpct Hle Hq) as (n1 & Hq1 & Hn1).
  rewrite Hq1 in Hq'. injection Hq' as _ _ <-. exact Hn1.
Qed.

Lemma example_equity_nonneg : 0 <= 10000.
Proof. apply Qle_bool_iff. reflexivity. Defined.

Lemma example_pct_nonneg : 0 <= options_max_pct_per_trade (config example_ctx).
Proof. apply Qle_bool_iff. reflexivity. Defined.

Lemma returned_quote_is_tight_witness :
  0 <= 10000
  /\ 0 <= options_max_pct_per_trade (config example_ctx)
  /\ exists s,
       options_getSnapshot (env example_ctx) "AAPL240322C00098000" = Resolved (Some s)
       /\ 0 < snapshot_ask s
       /\ 0.9 * snapshot_ask s <= snapshot_bid s
       /\ 0 < snapshot_bid s.
Proof.
  split; [exact example_equity_nonneg|]. split; [exact example_pct_nonneg|].
  exact (returned_quote_is_tight example_runtime example_ctx "AAPL" bullish 10000 _
           example_equity_nonneg example_pct_nonneg (f_equal fst example_run)).
Defined.


Lemma returned_expiration_in_window_witness :
  exists exps dte,
    options_getExpirations (env example_ctx) "AAPL" = Resolved (Some exps)
    /\ In "2024-03-22"%string exps
    /\ dte_of example_runtime (Date_now example_runtime) "2024-03-22" = Some dte
    /\ options_min_dte (config example_ctx) <= inject_Z dte
    /\ inject_Z dte <= options_max_dte (config example_ctx).
Proof.
  exact (returned_expiration_in_window example_runtime example_ctx "AAPL" bullish 10000 _
           (f_equal fst example_run)).
Defined.

Lemma more_equity_still_selects_witness :
  10000 <= 20000
  /\ exists r',
       fst (invoke example_runtime example_ctx "AAPL" bullish 20000) = Resolved (Some r')
       /\ expiration r' = "2024-03-22"%string
       /\ option_type r' = call
       /\ (symbol r' = "AAPL240322C00098000"%string -> (1 <= max_contracts r')%Z).
Proof.
  assert (Hle : 10000 <= 20000) by (apply Qle_bool_iff; reflexivity).
  split; [exact Hle|].
  exact (more_equity_still_selects example_runtime example_ctx "AAPL" bullish
           10000 20000 _ example_equity_nonneg example_pct_nonneg Hle
           (f_equal fst example_run)).
Defined.

(** With twice the equity the 94 strike, ranked first, is affordable and
    is the one selected. *)
Example example_run_more_equity :
  fst (invoke example_runtime example_ctx "AAPL" bullish 20000)
  = Resolved (Some {| symbol := "AAPL240322C00094000";
                      strike := 94;
                      expiration := "2024-03-22";
                      delta := 0.62;
                      mid_price := (5.90 + 6.10) / 2;
                      max_contracts := 1;
                      option_type := call |}).
Proof. vm_compute. reflexivity. Qed.

Lemma Record_get_None {V : Type} (o : JsRecord V) (k : string) :
  Record_get o k = None <-> ~ In k (map fst o).
Proof.
  induction o as [|[k' v'] o IH]; simpl; [tauto|].
  destruct (String.eqb k k') eqn:E.
  - apply String.eqb_eq in E. subst. split; [discriminate | tauto].
  - apply String.eqb_neq in E. rewrite IH. split; [|tauto].
    intros H [H' | H']; [congruence | tauto].
Qed.

Lemma Record_get_In {V : Type} (o : JsRecord V) (k : string) (v : V) :
  NoDup (map fst o) -> In (k, v) o -> Record_get o k = Some v.
Proof.
  induction o as [|[k' v'] o IH]; simpl; intros Hnd Hin; [destruct Hin|].
  inversion Hnd as [|? ? Hnotin Hnd']; subst.
  destruct Hin as [[= -> ->] | Hin].
  - now rewrite String.eqb_refl.
  - destruct (String.eqb k k') eqn:E; [|now apply IH].
    apply String.eqb_eq in E. subst. exfalso. apply Hnotin.
    apply in_map_iff. now exists (k', v).
Qed.


(** ** Sorting by an order *)

Section SortByOrder.

Variable A : Type.
Variable compareFn : A -> A -> Q.
Variable le : A -> A -> Prop.
Hypothesis le_trans : forall x y z, le x y -> le y z -> le x z.
Hypothesis not_after_le : forall x y, Qltb 0 (compareFn x y) = false -> le x y.
Hypothesis after_le : forall x y, Qltb 0 (compareFn x y) = true -> le y x.

Lemma insert_perm (x : A) (l : list A) : Permutation (sort_insert compareFn x l) (x :: l).
Proof.
  induction l as [|y l IH]; simpl; [reflexivity|].
  destruct (Qltb 0 (compareFn x y)); [|reflexivity].
  rewrite IH. apply perm_swap.
Qed.

Lemma sort_perm (l : list A) : Permutation (Array_sort compareFn l) l.
Proof.
  induction l as [|x l IH]; simpl; [reflexivity|].
  rewrite insert_perm. now constructor.
Qed.

Lemma insert_sorted (x : A) (l : list A) :
  StronglySorted le l -> StronglySorted le (sort_insert compareFn x l).
Proof.
  induction l as [|y l IH]; intro Hs; simpl.
  - repeat constructor.
  - inversion Hs as [|? ? Hs' Hall]; subst.
    destruct (Qltb 0 (compareFn x y)) eqn:Hc.
    + constructor; [now apply IH|].
      apply (Permutation_Forall (Permutation_sym (insert_perm x l))).
      constructor; [now apply after_le | exact Hall].
    + apply not_after_le in Hc. constructor; [exact Hs|].
      constructor; [exact Hc|].
      eapply Forall_impl; [|exact Hall]. intros z Hz. now apply (le_trans _ y).
Qed.

Lemma sort_sorted (l : list A) : StronglySorted le (Array_sort compareFn l).
Proof.
  induction l as [|x l IH]; simpl; [constructor | now apply insert_sorted].
Qed.

End SortByOrder.

Lemma StronglySorted_filter {A : Type} (R : A -> A -> Prop) (p : A -> bool) (l : list A) :
  StronglySorted R l -> StronglySorted R (filter p l).
Proof.
  induction 1 as [|x l Hs IH Hall]; simpl; [constructor|].
  destruct (p x); [|exact IH].
  constructor; [exact IH|].
  apply Forall_forall. intros y Hy. apply filter_In in Hy.
  rewrite Forall_forall in Hall. now apply Hall.
Qed.

(** ** The chain *)

Lemma partition_perm {A : Type} (p : A -> bool) (l : list A) :
  Permutation (filter p l ++ filter (fun x => negb (p x)) l) l.
Proof.
  induction l as [|x l IH]; simpl; [reflexivity|].
  destruct (p x); simpl.
  - now constructor.
  - rewrite <- Permutation_middle. now constructor.
Qed.

(** [getChain] splits the listed contracts in two: every contract is on
    exactly one side, calls on the call side and puts on the other, and
    each side is in ascending order of strike.  A rejected listing rejects
    the call. *)
Theorem chain_sides (listing : outcome (list ListedContract)) :
  match listing with
  | Rejected e => getChain listing = Rejected e
  | Resolved contracts =>
      exists ch,
        getChain listing = Resolved ch
        /\ Permutation (listed_calls ch ++ listed_puts ch) contracts
        /\ Forall (fun c => listed_type c = call) (listed_calls ch)
        /\ Forall (fun c => listed_type c = put) (listed_puts ch)
        /\ StronglySorted (fun a b => listed_strike a <= listed_strike b) (listed_calls ch)
        /\ StronglySorted (fun a b => listed_strike a <= listed_strike b) (listed_puts ch)
  end.
Proof.
  destruct listing as [contracts|e]; [|reflexivity].
  eexists. split; [reflexivity|]. cbn [listed_calls listed_puts].
  split; [|split; [|split; [|split]]].
  - rewrite (Array_sort_perm _ listed_strike), (Array_sort_perm _ listed_strike).
    apply partition_perm.
  - apply (Permutation_Forall (Permutation_sym (Array_sort_perm _ listed_strike _))).
    apply Forall_forall. intros c Hc. apply filter_In in Hc.
    destruct Hc as [_ Hc]. unfold is_call in Hc. now destruct (listed_type c).
  - apply (Permutation_Forall (Permutation_sym (Array_sort_perm _ listed_strike _))).
    apply Forall_forall. intros c Hc. apply filter_In in Hc.
    destruct Hc as [_ Hc]. unfold is_call in Hc. now destruct (listed_type c).
  - apply (Array_sort_strongly_sorted _ listed_strike).
  - apply (Array_sort_strongly_sorted _ listed_strike).
Qed.

(** ** Expirations *)

Lemma ascii_compare_refl (c : Ascii.ascii) : Ascii.compare c c = Eq.
Proof. unfold Ascii.compare. apply N.compare_refl. Qed.

Lemma ascii_compare_lt_trans (a b c : Ascii.ascii) :
  Ascii.compare a b = Lt -> Ascii.compare b c = Lt -> Ascii.compare a c = Lt.
Proof.
  unfold Ascii.compare. rewrite !N.compare_lt_iff. apply N.lt_trans.
Qed.

Lemma string_leb_trans (a b c : string) :
  String.leb a b = true -> String.leb b c = true -> String.leb a c = true.
Proof.
  unfold String.leb. revert b c.
  induction a as [|c1 a IH]; intros [|c2 b] [|c3 c]; simpl; try congruence.
  destruct (Ascii.compare c1 c2) eqn:E12; try congruence;
    destruct (Ascii.compare c2 c3) eqn:E23; try congruence; intros H1 H2.
  - apply Ascii.compare_eq_iff in E12, E23. subst.
    rewrite ascii_compare_refl. now apply (IH b).
  - apply Ascii.compare_eq_iff in E12. subst. now rewrite E23.
  - apply Ascii.compare_eq_iff in E23. subst. now rewrite E12.
  - now rewrite (ascii_compare_lt_trans _ _ _ E12 E23).
Qed.

Lemma default_compare_not_after (x y : string) :
  Qltb 0 (default_compare x y) = false -> String.leb x y = true.
Proof.
  unfold default_compare, String.leb.
  destruct (String.compare x y); intro H; try reflexivity.
  vm_compute in H. discriminate.
Qed.

Lemma default_compare_after (x y : string) :
  Qltb 0 (default_compare x y) = true -> String.leb y x = true.
Proof.
  unfold default_compare, String.leb. rewrite (String.compare_antisym y x).
  destruct (String.compare x y); intro H; try reflexivity;
    vm_compute in H; discriminate.
Qed.

Lemma Set_add_spec (s : list string) (x : string) :
  (forall y, In y (Set_add s x) <-> In y s \/ y = x)
  /\ (NoDup s -> NoDup (Set_add s x)).
Proof.
  unfold Set_add. destruct (existsb (String.eqb x) s) eqn:E.
  - apply existsb_exists in E. destruct E as (z & Hz & Heq).
    apply String.eqb_eq in Heq. subst z.
    split; [|auto]. intro y. split; [auto|]. intros [H | ->]; assumption.
  - assert (Hnot : ~ In x s).
    { intro Hin. assert (existsb (String.eqb x) s = true).
      { apply existsb_exists. exists x. split; [exact Hin | apply String.eqb_refl]. }
      congruence. }
    split.
    + intro y. rewrite in_app_iff. simpl. intuition congruence.
    + intro Hnd. apply NoDup_app; [exact Hnd | repeat constructor; intros [] |].
      intros y Hy [<- | []]. contradiction.
Qed.

Lemma Set_of_spec (l : list string) :
  forall s, NoDup s ->
    NoDup (fold_left Set_add l s)
    /\ forall y, In y (fold_left Set_add l s) <-> In y s \/ In y l.
Proof.
  induction l as [|x l IH]; intros s Hnd; simpl.
  - split; [exact Hnd|]. intro y. tauto.
  - destruct (Set_add_spec s x) as [Hin Hnd'].
    destruct (IH (Set_add s x) (Hnd' Hnd)) as [H1 H2].
    split; [exact H1|]. intro y. rewrite H2, Hin. intuition congruence.
Qed.

(** [getExpirations] resolves to the expiration dates of the listed
    contracts, each once, in ascending order of the strings.  A rejected
    listing rejects the call. *)
Theorem expirations_distinct_sorted (listing : outcome (list ListedContract)) :
  match listing with
  | Rejected e => getExpirations listing = Rejected e
  | Resolved contracts =>
      exists exps,
        getExpirations listing = Resolved exps
        /\ NoDup exps
        /\ StronglySorted (fun a b => String.leb a b = true) exps
        /\ forall e, In e exps <-> exists c, In c contracts /\ listed_expiration c = e
  end.
Proof.
  destruct listing as [contracts|e]; [|reflexivity].
  eexists. split; [reflexivity|].
  destruct (Set_of_spec (map listed_expiration contracts) [] (NoDup_nil _)) as [Hnd Hin].
  pose proof (sort_perm _ default_compare
                (fold_left Set_add (map listed_expiration contracts) [])) as Hperm.
  split; [|split].
  - apply (Permutation_NoDup (Permutation_sym Hperm)). exact Hnd.
  - apply sort_sorted.
    + intros x y z. apply string_leb_trans.
    + apply default_compare_not_after.
    + apply default_compare_after.
  - intro e. split.
    + intro H. apply (Permutation_in _ Hperm) in H. apply Hin in H.
      destruct H as [[] | H]. apply in_map_iff in H.
      destruct H as (c & Hc & Hcin). now exists c.
    + intros (c & Hc & <-). apply (Permutation_in _ (Permutation_sym Hperm)).
      apply Hin. right. now apply in_map.
Qed.

Lemma string_leb_refl (s : string) : String.leb s s = true.
Proof. destruct (String.leb_total s s); assumption. Qed.

Lemma gap_unique_order (rt : Runtime) (cfg : Config) (today : Z) (a b : string) :
  strictly_closer rt cfg today a b -> as_close rt cfg today b a -> False.
Proof.
  intros (g1 & g2 & Ha & Hb & Hlt) (g2' & g1' & Hb' & Ha' & Hle).
  rewrite Ha in Ha'. rewrite Hb in Hb'.
  injection Ha' as <-. injection Hb' as <-.
  exact (Qlt_not_le _ _ Hlt Hle).
Qed.

(** On the expirations of the provider, which are sorted, the selector
    resolves a tie to the least date string: no eligible expiration that is
    as close to the midpoint as the selected one precedes it. *)
Theorem tie_goes_to_least_date (rt : Runtime) (cfg : Config) (today : Z)
    (contracts : list ListedContract) (exps : list string) (best e : string) :
  getExpirations (Resolved contracts) = Resolved exps ->
  selectExpiration rt cfg today exps = Some best ->
  In e (validExpirations rt cfg today exps) ->
  as_close rt cfg today e best ->
  String.leb best e = true.
Proof.
  intros Hexps Hsel Hin Hclose.
  assert (Hsorted : StronglySorted (fun a b => String.leb a b = true)
                      (validExpirations rt cfg today exps)).
  { apply StronglySorted_filter.
    injection Hexps as <-. apply sort_sorted.
    - intros x y z. apply string_leb_trans.
    - apply default_compare_not_after.
    - apply default_compare_after. }
  pose proof (valid_has_gap rt cfg today exps) as Hgap.
  unfold selectExpiration, bestExpiration in Hsel.
  destruct (validExpirations rt cfg today exps) as [|first rest]; [discriminate|].
  injection Hsel as Hbest. simpl fold_left in Hbest. rewrite pick_self in Hbest.
  destruct (fold_pick_first_min rt cfg today rest first Hgap)
    as (pre & post & Hsplit & Hpre & _).
  rewrite Hbest in *. rewrite Hsplit in Hin, Hsorted.
  apply in_app_or in Hin. destruct Hin as [Hin | [<- | Hin]].
  - exfalso. exact (gap_unique_order _ _ _ _ _ (Hpre e Hin) Hclose).
  - apply string_leb_refl.
  - apply StronglySorted_after in Hsorted. rewrite Forall_forall in Hsorted.
    now apply Hsorted.
Qed.

(** ** Days to expiration, as the provider counts them *)

Lemma getDTE_div (rt : Runtime) (setHours0 : Z -> Z) (exp : string) (t : Z) :
  Date_getTime rt exp = Some t ->
  getDTE rt setHours0 exp = Some (- ((setHours0 (Date_now rt) - t) / MS_PER_DAY))%Z.
Proof.
  intro H. unfold getDTE. rewrite H, Qceiling_div. do 3 f_equal. lia.
Qed.

(** [getDTE] counts from the start of the local day, the engine from the
    clock reading: the provider's DTE is never less than the engine's, and
    it is at most one more when the day has run for less than 24 hours. *)
Theorem provider_dte_vs_engine (rt : Runtime) (setHours0 : Z -> Z) (exp : string) (t : Z) :
  Date_getTime rt exp = Some t ->
  (setHours0 (Date_now rt) <= Date_now rt)%Z ->
  exists d g,
    dte_of rt (Date_now rt) exp = Some d
    /\ getDTE rt setHours0 exp = Some g
    /\ (d <= g)%Z
    /\ ((Date_now rt - setHours0 (Date_now rt) < MS_PER_DAY)%Z -> (g <= d + 1)%Z).
Proof.
  intros Ht Hstart.
  rewrite (dte_of_div _ _ _ _ Ht), (getDTE_div _ _ _ _ Ht).
  eexists _, _. split; [reflexivity|]. split; [reflexivity|].
  assert (Hday : MS_PER_DAY = 86400000%Z) by reflexivity. rewrite Hday.
  split; [|intro Hlt]; Z.to_euclidean_division_equations; lia.
Qed.

(** In a runtime whose local time is UTC, and for expirations given as
    calendar dates, [filterExpirationsByDTE] over the configured window
    keeps exactly the expirations the engine keeps. *)
Theorem provider_filter_agrees_in_utc (rt : Runtime) (setHours0 : Z -> Z)
    (cfg : Config) (expirations : list string) :
  setHours0 (Date_now rt) = midnight (Date_now rt) ->
  (forall e t, In e expirations -> Date_getTime rt e = Some t ->
               (t mod MS_PER_DAY = 0)%Z) ->
  filterExpirationsByDTE rt setHours0 expirations
    (options_min_dte cfg) (options_max_dte cfg)
  = validExpirations rt cfg (Date_now rt) expirations.
Proof.
  intros Hutc Hdates. unfold filterExpirationsByDTE, validExpirations.
  apply filter_ext_in. intros e He. unfold in_window.
  destruct (Date_getTime rt e) as [t|] eqn:Ht.
  - rewrite (dte_of_div _ _ _ _ Ht), (getDTE_div _ _ _ _ Ht), Hutc.
    assert (Hsame : ((midnight (Date_now rt) - t) / MS_PER_DAY
                     = (Date_now rt - t) / MS_PER_DAY)%Z).
    { pose proof (Hdates e t He Ht) as Hmid. unfold midnight.
      assert (Hday : MS_PER_DAY = 86400000%Z) by reflexivity. rewrite Hday in *.
      Z.to_euclidean_division_equations. lia. }
    now rewrite Hsame.
  - unfold getDTE, dte_of. now rewrite Ht.
Qed.

(** * Under a validated configuration *)

Lemma within_spec (lo hi x : Q) : within lo hi x = true <-> lo <= x /\ x <= hi.
Proof. unfold within. now rewrite andb_true_iff, !Qle_bool_iff. Qed.

Lemma options_fields_valid_spec (cfg : Config) :
  options_fields_valid cfg = true ->
  (0 <= options_max_pct_per_trade cfg /\ options_max_pct_per_trade cfg <= 0.25)
  /\ (1 <= options_min_dte cfg /\ options_max_dte cfg <= 365)
  /\ (0.1 <= options_target_delta cfg /\ options_target_delta cfg <= 0.9)
  /\ (0.1 <= options_min_delta cfg /\ options_max_delta cfg <= 0.9)
  /\ options_min_delta cfg < options_max_delta cfg
  /\ options_min_dte cfg < options_max_dte cfg.
Proof.
  unfold options_fields_valid. rewrite !andb_true_iff, !within_spec, !Qltb_lt.
  tauto.
Qed.


Lemma dte_positive_future (rt : Runtime) (today : Z) (exp : string) (d : Z) :
  dte_of rt today exp = Some d -> (1 <= d)%Z ->
  exists t, Date_getTime rt exp = Some t /\ (today < t)%Z.
Proof.
  unfold dte_of. destruct (Date_getTime rt exp) as [t|]; [|discriminate].
  rewrite Qceiling_div. intros [= <-] Hd. exists t. split; [reflexivity|].
  assert (Hday : MS_PER_DAY = 86400000%Z) by reflexivity. rewrite Hday in Hd.
  Z.to_euclidean_division_equations. lia.
Qed.


(** * Utilities *)

(** ** [truncate] *)

Lemma length_append (a b : string) :
  String.length (a ++ b) = (String.length a + String.length b)%nat.
Proof. induction a as [|c a IH]; simpl; [reflexivity | now rewrite IH]. Qed.

Lemma length_substring_0 (n : nat) (s : string) :
  String.length (substring 0 n s) = Nat.min n (String.length s).
Proof.
  revert n. induction s as [|c s IH]; intros [|n]; simpl; try reflexivity.
  now rewrite IH.
Qed.

Lemma substring_0_prefix (n : nat) (s : string) :
  exists rest, s = (substring 0 n s ++ rest)%string.
Proof.
  revert n. induction s as [|c s IH]; intros [|n]; simpl.
  - now exists ""%string.
  - now exists ""%string.
  - now exists (String c s).
  - destruct (IH n) as [rest Hrest]. exists rest. now rewrite <- Hrest.
Qed.

Lemma length_slice_from_start (str : string) (end_ : Z) :
  Z.of_nat (String.length (slice_from_start str end_))
  = if (end_ <? 0)%Z then Z.max (Z.of_nat (String.length str) + end_) 0
    else Z.min end_ (Z.of_nat (String.length str)).
Proof.
  unfold slice_from_start. rewrite length_substring_0.
  destruct (end_ <? 0)%Z eqn:E; [apply Z.ltb_lt in E | apply Z.ltb_ge in E]; lia.
Qed.

(** [truncate] keeps a string that fits.  For a longer string and
    [maxLength] of at least 3 the result has exactly [maxLength]
    characters: a prefix of the string followed by three dots.  For
    [maxLength] below 3 the result of a longer string has at least three
    characters, more than [maxLength]. *)
Theorem truncate_length (str : string) (maxLength : Z) :
  ((Z.of_nat (String.length str) <= maxLength)%Z -> truncate str maxLength = str)
  /\ ((maxLength < Z.of_nat (String.length str))%Z -> (3 <= maxLength)%Z ->
      Z.of_nat (String.length (truncate str maxLength)) = maxLength
      /\ exists kept rest,
           truncate str maxLength = (kept ++ "...")%string
           /\ str = (kept ++ rest)%string
           /\ Z.of_nat (String.length kept) = (maxLength - 3)%Z)
  /\ ((maxLength < Z.of_nat (String.length str))%Z -> (maxLength < 3)%Z ->
      (maxLength < 3 <= Z.of_nat (String.length (truncate str maxLength)))%Z).
Proof.
  unfold truncate. split; [|split].
  - intro H. apply Z.leb_le in H. now rewrite H.
  - intros Hlong H3. apply Z.leb_gt in Hlong. rewrite Hlong. apply Z.leb_gt in Hlong.
    assert (Hkept : Z.of_nat (String.length (slice_from_start str (maxLength - 3)))
                    = (maxLength - 3)%Z).
    { rewrite length_slice_from_start.
      destruct (maxLength - 3 <? 0)%Z eqn:E;
        [apply Z.ltb_lt in E | apply Z.ltb_ge in E]; lia. }
    split.
    + rewrite length_append, Nat2Z.inj_add, Hkept. simpl. lia.
    + destruct (substring_0_prefix
                  (Z.to_nat (Z.min (maxLength - 3) (Z.of_nat (String.length str)))) str)
        as [rest Hrest].
      assert (Hslice : slice_from_start str (maxLength - 3)
                = substring 0 (Z.to_nat (Z.min (maxLength - 3)
                                           (Z.of_nat (String.length str)))) str).
      { unfold slice_from_start.
        destruct (maxLength - 3 <? 0)%Z eqn:E; [apply Z.ltb_lt in E; lia | reflexivity]. }
      exists (slice_from_start str (maxLength - 3)), rest.
      split; [reflexivity|]. split; [|exact Hkept].
      rewrite Hslice. exact Hrest.
  - intros Hlong H3. apply Z.leb_gt in Hlong. rewrite Hlong.
    split; [exact H3|].
    rewrite length_append, Nat2Z.inj_add. simpl. lia.
Qed.

Lemma append_assoc (a b c : string) : ((a ++ b) ++ c = a ++ (b ++ c))%string.
Proof. induction a as [|x a IH]; simpl; [reflexivity | now rewrite IH]. Qed.

Lemma append_nil_r_string (a : string) : (a ++ "")%string = a.
Proof. induction a as [|x a IH]; simpl; [reflexivity | now rewrite IH]. Qed.

(** ** [simpleHash] *)

Lemma ToInt32_range (x : Z) : (- 2 ^ 31 <= ToInt32 x < 2 ^ 31)%Z.
Proof.
  unfold ToInt32. change (2 ^ 31)%Z with 2147483648%Z.
  change (2 ^ 32)%Z with 4294967296%Z.
  Z.to_euclidean_division_equations. lia.
Qed.

Lemma hash_step_wrapped (x char : Z) :
  hash_step (ToInt32 x) char = ToInt32 (31 * x + char).
Proof.
  unfold hash_step, shl5, ToInt32. change (2 ^ 31)%Z with 2147483648%Z.
  change (2 ^ 32)%Z with 4294967296%Z.
  Z.to_euclidean_division_equations. lia.
Qed.

Lemma hash_loop_from (codeUnits : list Z) (x : Z) :
  fold_left hash_step codeUnits (ToInt32 x)
  = ToInt32 (fold_left (fun h c => (31 * h + c)%Z) codeUnits x).
Proof.
  revert x. induction codeUnits as [|c cs IH]; intro x; simpl; [reflexivity|].
  now rewrite hash_step_wrapped, IH.
Qed.

(** The loop of [simpleHash] computes the polynomial of multiplier 31 over
    the code units, wrapped to a signed 32-bit integer. *)
Theorem simpleHash_is_polynomial31 (codeUnits : list Z) :
  hash_loop codeUnits = ToInt32 (polynomial31 codeUnits)
  /\ (- 2 ^ 31 <= hash_loop codeUnits < 2 ^ 31)%Z.
Proof.
  assert (H : hash_loop codeUnits = ToInt32 (polynomial31 codeUnits))
    by (unfold hash_loop, polynomial31; apply (hash_loop_from codeUnits 0)).
  split; [exact H|]. rewrite H. apply ToInt32_range.
Qed.

Lemma hex_fold_append (v : Z) (a b : string) :
  hex_fold v (a ++ b) = hex_fold (hex_fold v a) b.
Proof.
  unfold hex_fold. revert v. induction a as [|c a IH]; intro v; simpl; [reflexivity|].
  apply IH.
Qed.

Lemma hex_digit_value_digit (d : Z) :
  (0 <= d < 16)%Z -> hex_digit_value (hex_digit d) = d.
Proof.
  intro H.
  assert (Hd : (d = 0 \/ d = 1 \/ d = 2 \/ d = 3 \/ d = 4 \/ d = 5 \/ d = 6 \/ d = 7
                \/ d = 8 \/ d = 9 \/ d = 10 \/ d = 11 \/ d = 12 \/ d = 13 \/ d = 14
                \/ d = 15)%Z) by lia.
  repeat (destruct Hd as [-> | Hd]; [reflexivity|]). subst. reflexivity.
Qed.

(** The digits of [n], most significant first, in front of [acc]. *)
Lemma hex_digits_spec (fuel : nat) :
  forall n acc,
    (0 <= n < 16 ^ Z.of_nat fuel)%Z -> (1 <= fuel)%nat ->
    exists ds,
      hex_digits fuel n acc = (ds ++ acc)%string
      /\ (1 <= String.length ds <= fuel)%nat
      /\ (forall v, hex_fold v ds = (v * 16 ^ Z.of_nat (String.length ds) + n)%Z)
      /\ (forall k, (1 <= k)%nat -> (n < 16 ^ Z.of_nat k)%Z -> (String.length ds <= k)%nat).
Proof.
  induction fuel as [|fuel IH]; intros n acc Hn Hfuel; [lia|].
  simpl hex_digits.
  assert (Hdigit : (0 <= n mod 16 < 16)%Z) by (apply Z.mod_pos_bound; lia).
  assert (Hsplit : (n = 16 * (n / 16) + n mod 16)%Z) by (apply Z.div_mod; lia).
  destruct (n / 16 =? 0)%Z eqn:Hq.
  - apply Z.eqb_eq in Hq.
    exists (String (hex_digit (n mod 16)) "").
    split; [reflexivity|]. split; [simpl; lia|]. split.
    + intro v. unfold hex_fold. cbn [list_ascii_of_string fold_left String.length].
      rewrite hex_digit_value_digit by assumption.
      change (16 ^ Z.of_nat 1)%Z with 16%Z. lia.
    + intros k Hk _. simpl. lia.
  - apply Z.eqb_neq in Hq.
    assert (Hpos : (0 < n / 16)%Z) by (Z.to_euclidean_division_equations; lia).
    assert (Hfuel' : (1 <= fuel)%nat).
    { destruct fuel; [|lia]. simpl in Hn. lia. }
    assert (Hbound : (0 <= n / 16 < 16 ^ Z.of_nat fuel)%Z).
    { split; [lia|]. rewrite Nat2Z.inj_succ, Z.pow_succ_r in Hn by lia.
      apply Z.div_lt_upper_bound; lia. }
    destruct (IH (n / 16)%Z (String (hex_digit (n mod 16)) acc) Hbound Hfuel')
      as (ds & Hds & Hlen & Hval & Hshort).
    exists (ds ++ String (hex_digit (n mod 16)) "")%string.
    rewrite Hds, length_append. cbn [String.length].
    split; [now rewrite append_assoc|]. split; [lia|]. split.
    + intro v. rewrite hex_fold_append, Hval. unfold hex_fold at 1.
      cbn [list_ascii_of_string fold_left].
      rewrite hex_digit_value_digit by assumption.
      replace (Z.of_nat (String.length ds + 1)) with (Z.succ (Z.of_nat (String.length ds)))
        by lia.
      rewrite Z.pow_succ_r by lia. lia.
    + intros k Hk Hnk. destruct k as [|k]; [lia|].
      assert (Hk' : (1 <= k)%nat).
      { destruct k; [|lia]. simpl in Hnk. exfalso.
        Z.to_euclidean_division_equations. lia. }
      assert (Hqk : (n / 16 < 16 ^ Z.of_nat k)%Z).
      { rewrite Nat2Z.inj_succ, Z.pow_succ_r in Hnk by lia.
        apply Z.div_lt_upper_bound; lia. }
      specialize (Hshort k Hk' Hqk). lia.
Qed.

Lemma toString16_spec (n : Z) :
  (0 <= n)%Z ->
  hex_value (toString16 n) = n
  /\ (1 <= String.length (toString16 n))%nat
  /\ (forall k, (1 <= k)%nat -> (n < 16 ^ Z.of_nat k)%Z ->
                (String.length (toString16 n) <= k)%nat).
Proof.
  intro Hn. unfold toString16.
  assert (Hfuel : (0 <= n < 16 ^ Z.of_nat (S (Z.to_nat (Z.log2 n))))%Z).
  { split; [exact Hn|].
    rewrite Nat2Z.inj_succ, Z2Nat.id by apply Z.log2_nonneg.
    destruct (Z.eq_dec n 0) as [-> | Hne]; [reflexivity|].
    pose proof (Z.log2_spec n ltac:(lia)) as [_ Hlt].
    eapply Z.lt_le_trans; [exact Hlt|].
    apply Z.pow_le_mono_l. lia. }
  destruct (hex_digits_spec _ n "" Hfuel ltac:(lia)) as (ds & Hds & Hlen & Hval & Hshort).
  rewrite Hds, append_nil_r_string.
  split; [|split].
  - change (hex_value ds) with (hex_fold 0 ds). rewrite Hval. lia.
  - lia.
  - exact Hshort.
Qed.

Lemma length_repeat_char (c : Ascii.ascii) (n : nat) : String.length (repeat_char c n) = n.
Proof. induction n as [|n IH]; simpl; [reflexivity | now rewrite IH]. Qed.

Lemma hex_fold_zeros (n : nat) : hex_fold 0 (repeat_char (Ascii.ascii_of_N 48) n) = 0%Z.
Proof.
  unfold hex_fold. induction n as [|n IH]; simpl; [reflexivity | exact IH].
Qed.

(** [simpleHash] always returns eight characters, and they read back, as a
    hexadecimal number, as the absolute value of the wrapped hash. *)
Theorem simpleHash_eight_hex_digits (codeUnits : list Z) :
  String.length (simpleHash codeUnits) = 8%nat
  /\ hex_value (simpleHash codeUnits) = Z.abs (hash_loop codeUnits).
Proof.
  unfold simpleHash, padStart0.
  pose proof (hash_loop_from codeUnits 0) as Hloop.
  change (fold_left hash_step codeUnits (ToInt32 0)) with (hash_loop codeUnits) in Hloop.
  pose proof (ToInt32_range (fold_left (fun h c => (31 * h + c)%Z) codeUnits 0%Z)) as Hrange.
  rewrite <- Hloop in Hrange.
  set (n := Z.abs (hash_loop codeUnits)).
  assert (Hn : (0 <= n)%Z) by apply Z.abs_nonneg.
  assert (Hlt : (n < 16 ^ Z.of_nat 8)%Z).
  { change (16 ^ Z.of_nat 8)%Z with 4294967296%Z.
    change (2 ^ 31)%Z with 2147483648%Z in Hrange. unfold n. lia. }
  destruct (toString16_spec n Hn) as (Hval & Hlen1 & Hshort).
  specialize (Hshort 8%nat ltac:(lia) Hlt).
  split.
  - rewrite length_append, length_repeat_char. lia.
  - unfold hex_value. rewrite hex_fold_append, hex_fold_zeros. exact Hval.
Qed.

(** * Social snapshots *)

Lemma Record_set_fresh {V : Type} (o : JsRecord V) (k : string) (v : V) :
  ~ In k (map fst o) -> Record_set o k v = o ++ [(k, v)].
Proof.
  induction o as [|[k' v'] o IH]; simpl; intro H; [reflexivity|].
  destruct (String.eqb k k') eqn:E.
  - apply String.eqb_eq in E. subst. tauto.
  - rewrite IH by tauto. reflexivity.
Qed.

Lemma Record_get_Some_In {V : Type} (o : JsRecord V) (k : string) (v : V) :
  Record_get o k = Some v -> In (k, v) o.
Proof.
  induction o as [|[k' v'] o IH]; simpl; [discriminate|].
  destruct (String.eqb k k') eqn:E.
  - apply String.eqb_eq in E. intros [= ->]. subst. now left.
  - intro H. right. now apply IH.
Qed.

Lemma NoDup_firstn {A : Type} (n : nat) (l : list A) : NoDup l -> NoDup (firstn n l).
Proof.
  intro H. rewrite <- (firstn_skipn n l) in H. now apply NoDup_app_remove_r in H.
Qed.

Lemma NoDup_keys_filter {V : Type} (p : string * V -> bool) (o : JsRecord V) :
  NoDup (map fst o) -> NoDup (map fst (filter p o)).
Proof.
  induction o as [|e o IH]; simpl; intro H; [constructor|].
  inversion H as [|? ? Hnot Hnd]; subst.
  destruct (p e); simpl; [|now apply IH].
  constructor; [|now apply IH].
  intro Hin. apply Hnot. apply in_map_iff in Hin. destruct Hin as (x & Hx & Hxin).
  apply filter_In in Hxin. apply in_map_iff. exists x. tauto.
Qed.

Section SocialBoundsFacts.

Variable V : Type.
Variable volume : V -> option Q.

Lemma Map_set_all_fresh (entries acc : JsRecord V) :
  NoDup (map fst (acc ++ entries)) -> Map_set_all V acc entries = acc ++ entries.
Proof.
  unfold Map_set_all. revert acc.
  induction entries as [|[k v] entries IH]; intros acc Hnd; simpl.
  - now rewrite app_nil_r.
  - assert (Hfresh : ~ In k (map fst acc)).
    { rewrite map_app in Hnd. simpl in Hnd. apply NoDup_remove_2 in Hnd.
      intro H. apply Hnd. apply in_or_app. now left. }
    rewrite Record_set_fresh by assumption.
    rewrite IH; rewrite <- app_assoc; [reflexivity | exact Hnd].
Qed.

Lemma pinnedPresent_In (snapshot : JsRecord V) (pinnedSymbols : list string)
    (k : string) (v : V) :
  In (k, v) (pinnedPresent V snapshot pinnedSymbols)
  <-> In k pinnedSymbols /\ Record_get snapshot k = Some v.
Proof.
  unfold pinnedPresent. rewrite in_flat_map.
  destruct (Set_of_spec pinnedSymbols [] (NoDup_nil _)) as [_ Hset].
  split.
  - intros (symbol & Hsym & Hin). apply Hset in Hsym. destruct Hsym as [[] | Hsym].
    destruct (Record_get snapshot symbol) as [value|] eqn:E; [|destruct Hin].
    destruct Hin as [[= <- <-] | []]. auto.
  - intros [Hk Hget]. exists k. split; [apply Hset; now right|].
    rewrite Hget. now left.
Qed.

Lemma pinnedPresent_NoDup (snapshot : JsRecord V) (pinnedSymbols : list string) :
  NoDup (map fst (pinnedPresent V snapshot pinnedSymbols)).
Proof.
  unfold pinnedPresent.
  destruct (Set_of_spec pinnedSymbols [] (NoDup_nil _)) as [Hnd _].
  induction Hnd as [|x l Hx _ IH]; simpl; [constructor|].
  rewrite map_app.
  destruct (Record_get snapshot x) as [value|]; simpl; [|exact IH].
  constructor; [|exact IH].
  intro Hin. apply Hx. apply in_map_iff in Hin. destruct Hin as ([k v] & Hk & Hin).
  simpl in Hk. subst k. apply in_flat_map in Hin. destruct Hin as (symbol & Hsym & Hin).
  destruct (Record_get snapshot symbol); [|destruct Hin].
  destruct Hin as [[= <- _] | []]. exact Hsym.
Qed.

(** The shape of the result when the snapshot has to be cut: the first
    [maxSymbols] pinned entries by volume, followed, if there is room, by
    the entries of largest volume among the others. *)
Lemma cap_shape (snapshot : JsRecord V) (maxSymbols : Z) (pinnedSymbols : list string) :
  NoDup (map fst snapshot) ->
  (0 < maxSymbols < Z.of_nat (List.length snapshot))%Z ->
  let kept := firstn (Z.to_nat maxSymbols)
                (Array_sort (by_volume_desc V volume)
                   (pinnedPresent V snapshot pinnedSymbols)) in
  NoDup (map fst kept)
  /\ capByVolumeKeepingPinnedMap V volume snapshot maxSymbols pinnedSymbols
     = if (maxSymbols <=? Z.of_nat (List.length kept))%Z then kept
       else kept ++ firstn (Z.to_nat (maxSymbols - Z.of_nat (List.length kept)))
                      (Array_sort (by_volume_desc V volume)
                         (filter (fun entry => negb (Map_has V kept (fst entry)))
                                 snapshot)).
Proof.
  intros Hnd Hmax kept.
  assert (Hkept : NoDup (map fst kept)).
  { unfold kept. rewrite <- firstn_map. apply NoDup_firstn.
    eapply Permutation_NoDup; [|apply (pinnedPresent_NoDup snapshot pinnedSymbols)].
    apply Permutation_map, Permutation_sym, sort_perm. }
  split; [exact Hkept|].
  unfold capByVolumeKeepingPinnedMap.
  destruct (maxSymbols <=? 0)%Z eqn:E0; [apply Z.leb_le in E0; lia|].
  destruct (Z.of_nat (List.length snapshot) <=? maxSymbols)%Z eqn:E1;
    [apply Z.leb_le in E1; lia|].
  cbv zeta. fold kept.
  rewrite (Map_set_all_fresh kept []) by exact Hkept. simpl app.
  destruct (maxSymbols <=? Z.of_nat (List.length kept))%Z; [reflexivity|].
  apply Map_set_all_fresh.
  rewrite map_app. apply NoDup_app; [exact Hkept | |].
  - rewrite <- firstn_map. apply NoDup_firstn.
    eapply Permutation_NoDup;
      [apply Permutation_map, Permutation_sym, sort_perm|].
    now apply NoDup_keys_filter.
  - intros k Hk Hk'. apply in_map_iff in Hk'. destruct Hk' as (e & <- & He).
    apply In_firstn in He. apply (Permutation_in _ (sort_perm _ _ _)) in He.
    apply filter_In in He. destruct He as [_ He].
    unfold Map_has in He. destruct (Record_get kept (fst e)) eqn:Hget; [discriminate|].
    apply Record_get_None in Hget. contradiction.
Qed.

End SocialBoundsFacts.

Lemma StronglySorted_cross {A : Type} (R : A -> A -> Prop) (l1 l2 : list A) (x y : A) :
  StronglySorted R (l1 ++ l2) -> In x l1 -> In y l2 -> R x y.
Proof.
  intros Hs Hx Hy. apply in_split in Hx. destruct Hx as (a & b & ->).
  rewrite <- app_assoc in Hs. simpl in Hs.
  apply StronglySorted_after in Hs. rewrite Forall_forall in Hs.
  apply Hs. apply in_or_app. now right.
Qed.

Lemma filter_complement_length {A : Type} (p : A -> bool) (l : list A) :
  (List.length (filter p l) + List.length (filter (fun x => negb (p x)) l)
   = List.length l)%nat.
Proof.
  induction l as [|x l IH]; simpl; [reflexivity|].
  destruct (p x); simpl; lia.
Qed.

Section SocialBoundsProperties.

Variable V : Type.
Variable volume : V -> option Q.

Lemma by_volume_sorted (l : list (string * V)) :
  StronglySorted (louder V volume) (Array_sort (by_volume_desc V volume) l).
Proof.
  apply sort_sorted; unfold louder, by_volume_desc.
  - intros x y z Hxy Hyz. lra.
  - intros x y H. apply Qltb_ge in H. lra.
  - intros x y H. apply Qltb_lt in H. lra.
Qed.

Lemma kept_in_snapshot (snapshot : JsRecord V) (pinnedSymbols : list string)
    (n : nat) (k : string) (v : V) :
  In (k, v) (firstn n (Array_sort (by_volume_desc V volume)
                         (pinnedPresent V snapshot pinnedSymbols))) ->
  In k pinnedSymbols /\ In (k, v) snapshot.
Proof.
  intro H. apply In_firstn in H. apply (Permutation_in _ (sort_perm _ _ _)) in H.
  apply pinnedPresent_In in H. destruct H as [Hk Hget].
  split; [exact Hk | now apply Record_get_Some_In].
Qed.

Lemma remaining_length (snapshot kept : JsRecord V) :
  NoDup (map fst snapshot) -> NoDup (map fst kept) ->
  (List.length snapshot - List.length kept
   <= List.length (filter (fun entry => negb (Map_has V kept (fst entry))) snapshot))%nat.
Proof.
  intros Hs Hk.
  pose proof (filter_complement_length (fun entry => Map_has V kept (fst entry)) snapshot)
    as Hsum.
  assert (Hle : (List.length (filter (fun entry => Map_has V kept (fst entry)) snapshot)
                 <= List.length kept)%nat).
  { rewrite <- (length_map fst (filter _ snapshot)), <- (length_map fst kept).
    apply NoDup_incl_length; [now apply NoDup_keys_filter|].
    intros k Hin. apply in_map_iff in Hin. destruct Hin as (e & <- & He).
    apply filter_In in He. destruct He as [_ He]. unfold Map_has in He.
    destruct (Record_get kept (fst e)) eqn:Hget; [|discriminate].
    apply Record_get_Some_In in Hget. apply in_map_iff. now exists (fst e, v). }
  cbv beta in Hsum. lia.
Qed.

Lemma cap_facts (snapshot : JsRecord V) (maxSymbols : Z)
    (pinnedSymbols : list string) :
  NoDup (map fst snapshot) ->
  Z.of_nat (List.length (capByVolumeKeepingPinnedMap V volume snapshot maxSymbols pinnedSymbols))
    = Z.max 0 (Z.min maxSymbols (Z.of_nat (List.length snapshot)))
  /\ NoDup (map fst (capByVolumeKeepingPinnedMap V volume snapshot maxSymbols pinnedSymbols))
  /\ (forall k v, In (k, v) (capByVolumeKeepingPinnedMap V volume snapshot maxSymbols pinnedSymbols) -> In (k, v) snapshot).
Proof.
  intro Hnd.
  destruct (Z.leb_spec maxSymbols 0) as [H0 | H0].
  { unfold capByVolumeKeepingPinnedMap. apply Z.leb_le in H0. rewrite H0.
    apply Z.leb_le in H0. simpl. repeat split; [lia | constructor | tauto]. }
  destruct (Z.leb_spec (Z.of_nat (List.length snapshot)) maxSymbols) as [H1 | H1].
  { unfold capByVolumeKeepingPinnedMap.
    apply Z.leb_gt in H0. rewrite H0. apply Z.leb_gt in H0.
    apply Z.leb_le in H1. rewrite H1. apply Z.leb_le in H1.
    repeat split; [lia | exact Hnd | tauto]. }
  destruct (cap_shape V volume snapshot maxSymbols pinnedSymbols Hnd (conj H0 H1))
    as [Hkept Hshape].
  rewrite Hshape. clear Hshape.
  set (kept := firstn (Z.to_nat maxSymbols)
                 (Array_sort (by_volume_desc V volume)
                    (pinnedPresent V snapshot pinnedSymbols))) in *.
  assert (Hklen : (List.length kept <= Z.to_nat maxSymbols)%nat)
    by apply firstn_le_length.
  set (remaining := Array_sort (by_volume_desc V volume)
                      (filter (fun entry => negb (Map_has V kept (fst entry))) snapshot)).
  assert (Hrem : (List.length snapshot - List.length kept <= List.length remaining)%nat).
  { unfold remaining. rewrite (Permutation_length (sort_perm _ _ _)).
    now apply remaining_length. }
  destruct (Z.leb_spec maxSymbols (Z.of_nat (List.length kept))) as [H2 | H2].
  - split; [lia|]. split; [exact Hkept|].
    intros k v Hin. now apply (kept_in_snapshot snapshot pinnedSymbols (Z.to_nat maxSymbols) k v).
  - split; [|split].
    + rewrite length_app, length_firstn. lia.
    + rewrite map_app. apply NoDup_app; [exact Hkept | |].
      * rewrite <- firstn_map. apply NoDup_firstn.
        eapply Permutation_NoDup;
          [apply Permutation_map, Permutation_sym, sort_perm|].
        now apply NoDup_keys_filter.
      * intros k Hk Hk'. apply in_map_iff in Hk'. destruct Hk' as (e & <- & He).
        apply In_firstn in He. apply (Permutation_in _ (sort_perm _ _ _)) in He.
        apply filter_In in He. destruct He as [_ He].
        unfold Map_has in He.
        destruct (Record_get kept (fst e)) eqn:Hget; [discriminate|].
        apply Record_get_None in Hget. contradiction.
    + intros k v Hin. apply in_app_or in Hin. destruct Hin as [Hin | Hin].
      * now apply (kept_in_snapshot snapshot pinnedSymbols (Z.to_nat maxSymbols) k v).
      * apply In_firstn in Hin. apply (Permutation_in _ (sort_perm _ _ _)) in Hin.
        apply filter_In in Hin. tauto.
Qed.

(** The capped map holds min(maxSymbols, size) entries, none when
    [maxSymbols] is not positive; its entries are entries of the snapshot,
    under distinct keys. *)
Theorem cap_size_and_content (snapshot : JsRecord V) (maxSymbols : Z)
    (pinnedSymbols : list string) :
  NoDup (map fst snapshot) ->
  Z.of_nat (List.length (capByVolumeKeepingPinnedMap V volume snapshot maxSymbols pinnedSymbols))
    = Z.max 0 (Z.min maxSymbols (Z.of_nat (List.length snapshot)))
  /\ NoDup (map fst (capByVolumeKeepingPinnedMap V volume snapshot maxSymbols pinnedSymbols))
  /\ (forall k v,
        In (k, v) (capByVolumeKeepingPinnedMap V volume snapshot maxSymbols pinnedSymbols) ->
        In (k, v) snapshot).
Proof. apply cap_facts. Qed.

(** When the snapshot holds at most [maxSymbols] of the pinned symbols,
    the capped map holds every one of them, with its value. *)
Theorem pinned_symbols_kept (snapshot : JsRecord V) (maxSymbols : Z)
    (pinnedSymbols : list string) (k : string) (v : V) :
  NoDup (map fst snapshot) ->
  (0 < maxSymbols)%Z ->
  (Z.of_nat (List.length (pinnedPresent V snapshot pinnedSymbols)) <= maxSymbols)%Z ->
  In k pinnedSymbols ->
  Record_get snapshot k = Some v ->
  Record_get (capByVolumeKeepingPinnedMap V volume snapshot maxSymbols pinnedSymbols) k
  = Some v.
Proof.
  intros Hnd H0 Hfew Hk Hget.
  destruct (cap_facts snapshot maxSymbols pinnedSymbols Hnd) as (_ & Hkeys & _).
  apply Record_get_In; [exact Hkeys|].
  destruct (Z.leb_spec (Z.of_nat (List.length snapshot)) maxSymbols) as [H1 | H1].
  { unfold capByVolumeKeepingPinnedMap.
    apply Z.leb_gt in H0. rewrite H0.
    apply Z.leb_le in H1. rewrite H1.
    now apply Record_get_Some_In. }
  destruct (cap_shape V volume snapshot maxSymbols pinnedSymbols Hnd (conj H0 H1))
    as [_ Hshape].
  rewrite Hshape.
  assert (Hin : In (k, v) (firstn (Z.to_nat maxSymbols)
                  (Array_sort (by_volume_desc V volume)
                     (pinnedPresent V snapshot pinnedSymbols)))).
  { rewrite firstn_all2.
    - apply (Permutation_in _ (Permutation_sym (sort_perm _ _ _))).
      apply pinnedPresent_In. auto.
    - rewrite (Permutation_length (sort_perm _ _ _)). lia. }
  destruct (_ <=? _)%Z; [exact Hin | apply in_or_app; now left].
Qed.

(** What is left out has no more volume than what is kept: an entry of
    the snapshot that is not in the capped map has at most the volume of
    every kept entry that is not pinned, and, when it is itself pinned, of
    every kept entry. *)
Theorem cap_keeps_largest (snapshot : JsRecord V) (maxSymbols : Z)
    (pinnedSymbols : list string) (k k' : string) (v v' : V) :
  NoDup (map fst snapshot) ->
  In (k, v) (capByVolumeKeepingPinnedMap V volume snapshot maxSymbols pinnedSymbols) ->
  In (k', v') snapshot ->
  Record_get (capByVolumeKeepingPinnedMap V volume snapshot maxSymbols pinnedSymbols) k'
    = None ->
  ~ In k pinnedSymbols \/ In k' pinnedSymbols ->
  volume_or_0 V volume v' <= volume_or_0 V volume v.
Proof.
  intros Hnd Hin Hin' Hout Hclass.
  apply Record_get_None in Hout.
  destruct (Z.leb_spec maxSymbols 0) as [H0 | H0].
  { unfold capByVolumeKeepingPinnedMap in Hin. apply Z.leb_le in H0.
    rewrite H0 in Hin. destruct Hin. }
  destruct (Z.leb_spec (Z.of_nat (List.length snapshot)) maxSymbols) as [H1 | H1].
  { exfalso. apply Hout. unfold capByVolumeKeepingPinnedMap.
    apply Z.leb_gt in H0. rewrite H0. apply Z.leb_le in H1. rewrite H1.
    apply in_map_iff. now exists (k', v'). }
  destruct (cap_shape V volume snapshot maxSymbols pinnedSymbols Hnd (conj H0 H1))
    as [Hkept Hshape].
  rewrite Hshape in Hin, Hout. clear Hshape.
  set (pinned := Array_sort (by_volume_desc V volume)
                   (pinnedPresent V snapshot pinnedSymbols)) in *.
  set (kept := firstn (Z.to_nat maxSymbols) pinned) in *.
  set (remaining := Array_sort (by_volume_desc V volume)
                      (filter (fun entry => negb (Map_has V kept (fst entry))) snapshot))
    in *.
  assert (Hpinned_left : In k' pinnedSymbols ->
            In (k', v') (skipn (Z.to_nat maxSymbols) pinned)
            /\ (maxSymbols <= Z.of_nat (List.length kept))%Z).
  { intro Hk'.
    assert (Hpp : In (k', v') pinned).
    { apply (Permutation_in _ (Permutation_sym (sort_perm _ _ _))).
      apply pinnedPresent_In. split; [exact Hk'|].
      now apply Record_get_In. }
    rewrite <- (firstn_skipn (Z.to_nat maxSymbols) pinned) in Hpp.
    apply in_app_or in Hpp. fold kept in Hpp.
    assert (Hnotkept : ~ In (k', v') kept).
    { intro H. apply Hout. apply in_map_iff. exists (k', v').
      split; [reflexivity|].
      destruct (_ <=? _)%Z; [exact H | apply in_or_app; now left]. }
    destruct Hpp as [Hpp | Hpp]; [contradiction|].
    split; [exact Hpp|].
    assert (Hcut : (Z.to_nat maxSymbols < List.length pinned)%nat).
    { destruct (Nat.lt_ge_cases (Z.to_nat maxSymbols) (List.length pinned)) as [H | H];
        [exact H|].
      rewrite skipn_all2 in Hpp by exact H. destruct Hpp. }
    unfold kept. rewrite length_firstn. lia. }
  destruct (Z.leb_spec maxSymbols (Z.of_nat (List.length kept))) as [H2 | H2].
  - destruct Hclass as [Hk | Hk'].
    + exfalso. apply Hk.
      now apply (kept_in_snapshot snapshot pinnedSymbols (Z.to_nat maxSymbols) k v).
    + destruct (Hpinned_left Hk') as [Hskip _].
      pose proof (by_volume_sorted (pinnedPresent V snapshot pinnedSymbols)) as Hsorted.
      fold pinned in Hsorted.
      rewrite <- (firstn_skipn (Z.to_nat maxSymbols) pinned) in Hsorted.
      exact (StronglySorted_cross _ _ _ _ _ Hsorted Hin Hskip).
  - destruct Hclass as [Hk | Hk'];
      [|destruct (Hpinned_left Hk') as [_ Hfull]; lia].
    apply in_app_or in Hin. destruct Hin as [Hin | Hin].
    { exfalso. apply Hk.
      now apply (kept_in_snapshot snapshot pinnedSymbols (Z.to_nat maxSymbols) k v). }
    set (room := Z.to_nat (maxSymbols - Z.of_nat (List.length kept))) in *.
    assert (Hrem : In (k', v') remaining).
    { apply (Permutation_in _ (Permutation_sym (sort_perm _ _ _))).
      apply filter_In. split; [exact Hin'|].
      unfold Map_has. simpl fst.
      destruct (Record_get kept k') eqn:Hget; [|reflexivity].
      exfalso. apply Hout. rewrite map_app. apply in_or_app. left.
      apply Record_get_Some_In in Hget. apply in_map_iff. now exists (k', v0). }
    rewrite <- (firstn_skipn room remaining) in Hrem.
    apply in_app_or in Hrem. destruct Hrem as [Hrem | Hrem].
    { exfalso. apply Hout. rewrite map_app. apply in_or_app. right.
      apply in_map_iff. now exists (k', v'). }
    pose proof (by_volume_sorted
                  (filter (fun entry => negb (Map_has V kept (fst entry))) snapshot))
      as Hsorted.
    fold remaining in Hsorted.
    rewrite <- (firstn_skipn room remaining) in Hsorted.
    exact (StronglySorted_cross _ _ _ _ _ Hsorted Hin Hrem).
Qed.

End SocialBoundsProperties.

(** * Worked examples for the provider, the utilities and the social
      snapshots *)

Example example_provider_chain :
  getChain (Resolved example_listing)
  = Resolved
      {| listed_calls :=
           [ mkListedContract "AAPL240322C00094000" "2024-03-22" 94 call;
             mkListedContract "AAPL240322C00098000" "2024-03-22" 98 call;
             mkListedContract "AAPL240329C00100000" "2024-03-29" 100 call;
             mkListedContract "AAPL240315C00100000" "2024-03-15" 100 call ];
         listed_puts :=
           [ mkListedContract "AAPL240329P00090000" "2024-03-29" 90 put;
             mkListedContract "AAPL240315P00095000" "2024-03-15" 95 put ] |}.
Proof. vm_compute. reflexivity. Qed.

Example example_provider_expirations :
  getExpirations (Resolved example_listing)
  = Resolved ["2024-03-15"; "2024-03-22"; "2024-03-29"]%string.
Proof. vm_compute. reflexivity. Qed.

Lemma tie_goes_to_least_date_witness :
  String.leb "2024-03-15" "2024-03-29" = true.
Proof.
  apply (tie_goes_to_least_date example_runtime example_config
           (Date_now example_runtime) tie_listing
           ["2024-03-15"; "2024-03-29"]%string).
  - vm_compute. reflexivity.
  - vm_compute. reflexivity.
  - vm_compute. right. left. reflexivity.
  - unfold as_close. eexists. eexists.
    split; [vm_compute; reflexivity|]. split; [vm_compute; reflexivity|].
    apply Qle_bool_iff. reflexivity.
Defined.

Lemma provider_dte_vs_engine_witness :
  exists d g,
    dte_of example_runtime (Date_now example_runtime) "2024-03-22" = Some d
    /\ getDTE example_runtime midnight "2024-03-22" = Some g
    /\ (d <= g)%Z
    /\ ((Date_now example_runtime - midnight (Date_now example_runtime) < MS_PER_DAY)%Z ->
        (g <= d + 1)%Z).
Proof.
  apply (provider_dte_vs_engine example_runtime midnight "2024-03-22" 1711065600000).
  - reflexivity.
  - vm_compute. discriminate.
Defined.

Lemma provider_filter_agrees_in_utc_witness :
  filterExpirationsByDTE example_runtime midnight example_expirations
    (options_min_dte example_config) (options_max_dte example_config)
  = validExpirations example_runtime example_config (Date_now example_runtime)
      example_expirations.
Proof.
  apply (provider_filter_agrees_in_utc example_runtime midnight example_config
           example_expirations).
  - reflexivity.
  - intros e t He Ht.
    repeat (destruct He as [<- | He]; [injection Ht as <-; reflexivity|]).
    destruct He.
Defined.

(** An expiration with a time of day on which the two counts differ: at
    23:58:20 UTC of 2024-03-01 an expiration at 18:00 UTC of the next day is
    one day away for the engine, which counts from the current instant, and
    two days away for the provider, which counts from the start of the day. *)
Example example_dte_disagreement :
  dte_of {| Date_now := 1709337500000;
            Date_getTime := fun _ => Some 1709402400000%Z |}
         1709337500000 "2024-03-02T18:00:00Z" = Some 1%Z
  /\ getDTE {| Date_now := 1709337500000;
               Date_getTime := fun _ => Some 1709402400000%Z |}
            midnight "2024-03-02T18:00:00Z" = Some 2%Z.
Proof. split; vm_compute; reflexivity. Qed.

Lemma example_config_valid : options_fields_valid example_config = true.
Proof. reflexivity. Defined.



Example example_truncate :
  truncate "hello world" 8 = "hello..."%string
  /\ truncate "hello" 5 = "hello"%string
  /\ truncate "hello world" 2 = "hello worl..."%string.
Proof. repeat split. Qed.

(** The code units of "hello". *)
Example example_simpleHash :
  simpleHash [104; 101; 108; 108; 111]%Z = "05e918d2"%string
  /\ hash_loop [104; 101; 108; 108; 111]%Z = 99162322%Z
  /\ simpleHash [] = "00000000"%string.
Proof. repeat split; vm_compute; reflexivity. Qed.

(** The tests of the module: three of five symbols with "E" pinned, and
    two of three pinned symbols. *)
Example example_social_tests :
  map fst (capByVolumeKeepingPinnedMap _ example_volume social_example 3 ["E"%string])
  = ["E"; "A"; "B"]%string
  /\ Record_get (capByVolumeKeepingPinnedMap _ example_volume social_example 3
                   ["E"%string]) "E"
     = Some (20, "e"%string)
  /\ map fst (capByVolumeKeepingPinnedMap _ example_volume social_small 2
                ["A"; "B"; "C"]%string)
     = ["C"; "B"]%string.
Proof. repeat split; vm_compute; reflexivity. Qed.

Lemma social_example_distinct : NoDup (map fst social_example).
Proof.
  repeat constructor; simpl; intuition discriminate.
Defined.

Lemma cap_size_and_content_witness :
  Z.of_nat (List.length (capByVolumeKeepingPinnedMap _ example_volume social_example 3
                           ["E"%string]))
    = Z.max 0 (Z.min 3 (Z.of_nat (List.length social_example)))
  /\ NoDup (map fst (capByVolumeKeepingPinnedMap _ example_volume social_example 3
                       ["E"%string]))
  /\ (forall k v,
        In (k, v) (capByVolumeKeepingPinnedMap _ example_volume social_example 3
                     ["E"%string]) ->
        In (k, v) social_example).
Proof.
  exact (cap_size_and_content _ example_volume social_example 3 ["E"%string]
           social_example_distinct).
Defined.

Lemma pinned_symbols_kept_witness :
  Record_get (capByVolumeKeepingPinnedMap _ example_volume social_example 3 ["E"%string])
             "E"
  = Some (20, "e"%string).
Proof.
  apply (pinned_symbols_kept _ example_volume social_example 3 ["E"%string] "E"
           (20, "e"%string) social_example_distinct).
  - reflexivity.
  - vm_compute. discriminate.
  - now left.
  - reflexivity.
Defined.

Lemma cap_keeps_largest_witness :
  volume_or_0 _ example_volume (60, "c"%string)
  <= volume_or_0 _ example_volume (80, "b"%string).
Proof.
  apply (cap_keeps_largest _ example_volume social_example 3 ["E"%string] "B" "C"
           (80, "b"%string) (60, "c"%string) social_example_distinct).
  - vm_compute. right. right. left. reflexivity.
  - vm_compute. right. right. left. reflexivity.
  - reflexivity.
  - left. intros [H | []]. discriminate.
Defined.

(** * [sanitizeForLog] *)

Lemma sanitizeForLog_object (entries : list (string * JsValue)) :
  sanitizeForLog (JsObject entries)
  = JsObject (fold_left (fun result entry =>
                           Record_set result (fst entry)
                             (sanitizeEntry (fst entry) (snd entry)))
                        entries []).
Proof.
  simpl. f_equal.
  generalize (@nil (string * JsValue)).
  induction entries as [|[k v] entries IH]; intro acc; simpl; [reflexivity|].
  apply IH.
Qed.

Lemma Record_set_Forall {V : Type} (Q : string * V -> Prop) (o : JsRecord V)
    (k : string) (v : V) :
  Forall Q o -> Q (k, v) -> Forall Q (Record_set o k v).
Proof.
  intros Ho Hkv. induction Ho as [|[k' v'] o Hx Ho IH]; simpl.
  - now repeat constructor.
  - destruct (String.eqb k k') eqn:E.
    + apply String.eqb_eq in E. subst. now constructor.
    + now constructor.
Qed.

Lemma Record_set_keys_present {V : Type} (o : JsRecord V) (k : string) (v : V) :
  In k (map fst o) -> map fst (Record_set o k v) = map fst o.
Proof.
  induction o as [|[k' v'] o IH]; simpl; intro Hin; [destruct Hin|].
  destruct (String.eqb k k') eqn:E; simpl; [reflexivity|].
  apply String.eqb_neq in E. f_equal. apply IH.
  destruct Hin as [H | H]; [congruence | exact H].
Qed.

Lemma Record_set_keys {V : Type} (o : JsRecord V) (k : string) (v : V) :
  NoDup (map fst o) -> NoDup (map fst (Record_set o k v)).
Proof.
  intro Hnd. destruct (in_dec string_dec k (map fst o)) as [Hin | Hout].
  - now rewrite Record_set_keys_present.
  - rewrite Record_set_fresh by assumption. rewrite map_app. simpl.
    apply NoDup_app; [exact Hnd | repeat constructor; intros [] |].
    intros x Hx [<- | []]. contradiction.
Qed.

Lemma rewritten_entries (Q : string * JsValue -> Prop) (f : string -> JsValue -> JsValue)
    (entries : list (string * JsValue)) :
  Forall (fun e => Q (fst e, f (fst e) (snd e))) entries ->
  forall acc,
    Forall Q acc -> NoDup (map fst acc) ->
    Forall Q (fold_left (fun result entry =>
                           Record_set result (fst entry) (f (fst entry) (snd entry)))
                        entries acc)
    /\ NoDup (map fst (fold_left (fun result entry =>
                           Record_set result (fst entry) (f (fst entry) (snd entry)))
                        entries acc)).
Proof.
  induction 1 as [|e entries He _ IH]; intros acc Hacc Hnd; simpl; [auto|].
  apply IH; [now apply Record_set_Forall | now apply Record_set_keys].
Qed.

Lemma redacted_object (entries : list (string * JsValue)) :
  redacted_throughout (JsObject entries)
  <-> Forall (fun e => if sensitive (fst e) then snd e = REDACTED
                       else redacted_throughout (snd e)) entries.
Proof.
  simpl. induction entries as [|[k v] entries IH]; simpl.
  - split; [constructor | trivial].
  - rewrite IH. split.
    + intros [H1 H2]. now constructor.
    + intro H. inversion H; subst. auto.
Qed.

(** In the result of [sanitizeForLog] every entry under a sensitive key, at
    any depth, holds the redaction marker. *)
Theorem sanitized_is_redacted (obj : JsValue) :
  redacted_throughout (sanitizeForLog obj).
Proof.
  induction obj as [| | s | x | b | entries IH] using JsValue_nested_ind;
    try exact I.
  rewrite sanitizeForLog_object, redacted_object.
  apply (rewritten_entries
           (fun e => if sensitive (fst e) then snd e = REDACTED
                     else redacted_throughout (snd e))
           sanitizeEntry entries); [|constructor|constructor].
  eapply Forall_impl; [|exact IH].
  intros [k v] Hv. simpl in *. unfold sanitizeEntry.
  destruct (sensitive k); [reflexivity|].
  destruct v; try exact I; exact Hv.
Qed.

Lemma sanitizeEntry_fixed (key : string) (value : JsValue) :
  sanitizeForLog (sanitizeForLog value) = sanitizeForLog value ->
  sanitizeEntry key (sanitizeEntry key value) = sanitizeEntry key value.
Proof.
  intro IH. unfold sanitizeEntry.
  destruct (sensitive key) eqn:E; [reflexivity|].
  destruct value as [| | s | x | b | entries]; try reflexivity.
  rewrite sanitizeForLog_object in *. exact IH.
Qed.

Lemma set_all_fixed (entries : list (string * JsValue)) :
  Forall (fun e => sanitizeEntry (fst e) (snd e) = snd e) entries ->
  forall acc,
    NoDup (map fst (acc ++ entries)) ->
    fold_left (fun result entry =>
                 Record_set result (fst entry) (sanitizeEntry (fst entry) (snd entry)))
              entries acc
    = acc ++ entries.
Proof.
  induction 1 as [|[k v] entries He _ IH]; intros acc Hnd; simpl.
  - now rewrite app_nil_r.
  - simpl in He. rewrite He.
    assert (Hfresh : ~ In k (map fst acc)).
    { rewrite map_app in Hnd. simpl in Hnd. apply NoDup_remove_2 in Hnd.
      intro H. apply Hnd. apply in_or_app. now left. }
    rewrite Record_set_fresh by assumption.
    rewrite IH; rewrite <- app_assoc; [reflexivity | exact Hnd].
Qed.

(** Sanitizing a sanitized value changes nothing. *)
Theorem sanitize_idempotent (obj : JsValue) :
  sanitizeForLog (sanitizeForLog obj) = sanitizeForLog obj.
Proof.
  induction obj as [| | s | x | b | entries IH] using JsValue_nested_ind;
    try reflexivity.
  rewrite (sanitizeForLog_object entries).
  destruct (rewritten_entries
              (fun e => sanitizeEntry (fst e) (snd e) = snd e)
              sanitizeEntry entries) with (acc := @nil (string * JsValue))
    as [Hfixed Hkeys]; [|constructor|constructor|].
  - eapply Forall_impl; [|exact IH].
    intros [k v] Hv. simpl in *. now apply sanitizeEntry_fixed.
  - rewrite sanitizeForLog_object. f_equal.
    now apply (set_all_fixed _ Hfixed []).
Qed.

Lemma prefix_chars (pattern s : string) (c : Ascii.ascii) :
  String.prefix pattern s = true ->
  In c (list_ascii_of_string pattern) -> In c (list_ascii_of_string s).
Proof.
  revert s. induction pattern as [|a pattern IH]; intros s Hp Hc; [destruct Hc|].
  destruct s as [|b s]; simpl in Hp; [discriminate|].
  destruct (Ascii.ascii_dec a b) as [<- | Hne]; [|discriminate].
  simpl in *. destruct Hc as [Hc | Hc]; [now left | right; now apply IH].
Qed.

Lemma includes_chars (s pattern : string) (c : Ascii.ascii) :
  includes s pattern = true ->
  In c (list_ascii_of_string pattern) -> In c (list_ascii_of_string s).
Proof.
  induction s as [|b s IH]; cbn [includes]; rewrite orb_true_iff; intros [Hp | Hp] Hc.
  - exact (prefix_chars _ _ _ Hp Hc).
  - discriminate.
  - exact (prefix_chars _ (String b s) _ Hp Hc).
  - simpl. right. now apply IH.
Qed.

Lemma lower_char_not_upper_K (c : Ascii.ascii) : lower_char c <> Ascii.ascii_of_N 75.
Proof.
  destruct c as [[] [] [] [] [] [] [] []]; vm_compute; discriminate.
Qed.

Lemma toLowerCase_no_upper_K (s : string) :
  ~ In (Ascii.ascii_of_N 75) (list_ascii_of_string (toLowerCase s)).
Proof.
  induction s as [|c s IH]; simpl; [tauto|].
  intros [H | H]; [exact (lower_char_not_upper_K c H) | exact (IH H)].
Qed.

(** The pattern "apiKey" never matches, since the key is put in lower case
    before the search: a key is redacted exactly when its lower-case form
    holds one of the six other patterns, and an entry under the key
    "apiKey" passes through as it is. *)
Theorem apiKey_pattern_never_matches (key : string) :
  includes (toLowerCase key) "apiKey" = false
  /\ sensitive key = existsb (fun k => includes (toLowerCase key) k) lowerCasePatterns
  /\ sensitive "apiKey" = false
  /\ forall s, sanitizeForLog (JsObject [("apiKey"%string, JsString s)])
               = JsObject [("apiKey"%string, JsString s)].
Proof.
  assert (Hdead : includes (toLowerCase key) "apiKey" = false).
  { destruct (includes (toLowerCase key) "apiKey") eqn:E; [|reflexivity].
    exfalso. apply (toLowerCase_no_upper_K key).
    apply (includes_chars _ _ _ E). vm_compute. tauto. }
  split; [exact Hdead|]. split; [|split].
  - unfold sensitive, sensitiveKeys, lowerCasePatterns. cbn [existsb].
    rewrite Hdead. cbn [orb]. reflexivity.
  - reflexivity.
  - intro s. reflexivity.
Qed.

(** A log payload with a secret at two depths: both are replaced by the
    marker, whatever the case of the key, the object under the key
    "credentials" is kept and sanitized inside, and the entry under
    "apiKey" is left as it is. *)
Example example_sanitizeForLog :
  sanitizeForLog
    (JsObject
       [ ("user", JsString "ada");
         ("Password", JsString "hunter2");
         ("apiKey", JsString "k-123");
         ("credentials",
          JsObject [ ("AUTH_TOKEN", JsString "t-456"); ("attempts", JsNumber 3) ]);
         ("note", JsNull) ]%string)
  = JsObject
      [ ("user", JsString "ada");
        ("Password", REDACTED);
        ("apiKey", JsString "k-123");
        ("credentials",
         JsObject [ ("AUTH_TOKEN", REDACTED); ("attempts", JsNumber 3) ]);
        ("note", JsNull) ]%string.
Proof. vm_compute. reflexivity. Qed.

(** * Binary64 arithmetic

    Facts about the operations of [float], from their specification on
    [spec_float].  *)

(** ** Rounding *)

Section Spec.

Variables prec emax : Z.
Hypothesis prec_pos : (0 < prec)%Z.


Lemma digits2_pos_bounds (m : positive) :
  (2 ^ (Zpos (digits2_pos m) - 1) <= Zpos m < 2 ^ Zpos (digits2_pos m))%Z.
Proof.
  induction m as [m IH|m IH|]; simpl digits2_pos.
  - rewrite Pos2Z.inj_succ.
    replace (Z.succ (Zpos (digits2_pos m)) - 1)%Z with (Z.succ (Zpos (digits2_pos m) - 1))%Z by lia.
    rewrite !Z.pow_succ_r by lia. lia.
  - rewrite Pos2Z.inj_succ.
    replace (Z.succ (Zpos (digits2_pos m)) - 1)%Z with (Z.succ (Zpos (digits2_pos m) - 1))%Z by lia.
    rewrite !Z.pow_succ_r by lia. lia.
  - simpl. lia.
Qed.

Lemma iter_xO_value (m d : positive) : Zpos (Pos.iter xO m d) = (Zpos m * 2 ^ Zpos d)%Z.
Proof.
  revert m. induction d as [|d IH] using Pos.peano_ind; intro m.
  - simpl. lia.
  - rewrite Pos.iter_succ, Pos2Z.inj_succ, Z.pow_succ_r by lia.
    rewrite Pos2Z.inj_xO, IH. lia.
Qed.

Lemma shl_align_value (m : positive) (e e' : Z) :
  snd (shl_align m e e') = Z.min e e'
  /\ Zpos (fst (shl_align m e e')) = (Zpos m * 2 ^ (e - snd (shl_align m e e')))%Z.
Proof.
  unfold shl_align. destruct (e' - e)%Z as [|d|d] eqn:Hd; cbn [fst snd].
  - split; [lia|]. now rewrite Z.sub_diag, Z.pow_0_r, Z.mul_1_r.
  - split; [lia|]. now rewrite Z.sub_diag, Z.pow_0_r, Z.mul_1_r.
  - split; [lia|]. rewrite iter_xO_value. f_equal. f_equal. lia.
Qed.

Lemma shr_1_m (mrs : shr_record) :
  (0 <= shr_m mrs)%Z -> shr_m (shr_1 mrs) = Z.div2 (shr_m mrs).
Proof.
  destruct mrs as [m r s]. simpl. intro H.
  destruct m as [|[p|p|]|p]; simpl; try reflexivity. lia.
Qed.

Lemma iter_shr_1_m (p : positive) (mrs : shr_record) :
  (0 <= shr_m mrs)%Z ->
  shr_m (SpecFloat.iter_pos shr_1 p mrs) = (shr_m mrs / 2 ^ Zpos p)%Z.
Proof.
  revert mrs. induction p as [p IH|p IH|]; intros mrs H; simpl SpecFloat.iter_pos.
  - assert (H1 : (0 <= shr_m (shr_1 mrs))%Z).
    { rewrite shr_1_m by exact H. rewrite Z.div2_div. apply Z.div_pos; lia. }
    assert (H2 : (0 <= shr_m (SpecFloat.iter_pos shr_1 p (shr_1 mrs)))%Z).
    { rewrite IH by exact H1. apply Z.div_pos; [exact H1 | lia]. }
    rewrite IH by exact H2. rewrite IH by exact H1. rewrite shr_1_m by exact H.
    rewrite Z.div2_div, !Z.div_div by lia. f_equal.
    replace (Zpos p~1) with (1 + Zpos p + Zpos p)%Z by lia.
    rewrite !Z.pow_add_r by lia. rewrite Z.pow_1_r. lia.
  - assert (H2 : (0 <= shr_m (SpecFloat.iter_pos shr_1 p mrs))%Z).
    { rewrite IH by exact H. apply Z.div_pos; [exact H | lia]. }
    rewrite IH by exact H2. rewrite IH by exact H.
    rewrite Z.div_div by lia. f_equal.
    replace (Zpos p~0) with (Zpos p + Zpos p)%Z by lia.
    rewrite Z.pow_add_r by lia. reflexivity.
  - rewrite shr_1_m by exact H. rewrite Z.div2_div. reflexivity.
Qed.

Lemma Zdigits2_pos (m : Z) : (0 < m)%Z -> (0 < Zdigits2 m)%Z.
Proof. destruct m; simpl; lia. Qed.

Lemma Zdigits2_bounds (m : Z) :
  (0 < m)%Z -> (2 ^ (Zdigits2 m - 1) <= m < 2 ^ Zdigits2 m)%Z.
Proof.
  destruct m as [|p|p]; try lia. intros _. apply digits2_pos_bounds.
Qed.

Lemma shr_record_of_loc_m (m : Z) (l : location) : shr_m (shr_record_of_loc m l) = m.
Proof. destruct l as [|[]]; reflexivity. Qed.

(** A positive mantissa whose value is at least the least subnormal stays
    positive when it is shifted to its canonical exponent. *)
Lemma shr_fexp_positive (m e : Z) (l : location) :
  (0 < m)%Z -> (SpecFloat.emin prec emax - e < Zdigits2 m)%Z ->
  (0 < shr_m (fst (shr_fexp prec emax m e l)))%Z
  /\ (SpecFloat.emin prec emax <= snd (shr_fexp prec emax m e l))%Z.
Proof.
  intros Hm He. unfold shr_fexp, shr.
  pose proof (Zdigits2_bounds m Hm) as [Hlo Hhi].
  pose proof (Zdigits2_pos m Hm) as Hd.
  destruct (SpecFloat.fexp prec emax (Zdigits2 m + e) - e)%Z as [|n|n] eqn:Hn; simpl fst; simpl snd.
  - rewrite shr_record_of_loc_m. unfold SpecFloat.fexp in Hn. lia.
  - rewrite iter_shr_1_m by (rewrite shr_record_of_loc_m; lia).
    rewrite shr_record_of_loc_m.
    unfold SpecFloat.fexp in Hn |- *.
    split; [|lia].
    assert (Hnd : (Zpos n <= Zdigits2 m - 1)%Z) by lia.
    apply Z.div_str_pos. split; [apply Z.pow_pos_nonneg; lia|].
    apply Z.le_trans with (2 ^ (Zdigits2 m - 1))%Z; [|exact Hlo].
    apply Z.pow_le_mono_r; lia.
  - rewrite shr_record_of_loc_m. unfold SpecFloat.fexp in Hn. lia.
Qed.

Lemma round_nearest_even_ge (m : Z) (l : location) : (m <= round_nearest_even m l)%Z.
Proof. destruct l as [|[]]; simpl; try lia. destruct (Z.even m); lia. Qed.

Lemma binary_round_aux_signed (s : bool) (m e : Z) (l : location) :
  (0 < m)%Z -> (SpecFloat.emin prec emax - e < Zdigits2 m)%Z ->
  signed s (binary_round_aux prec emax s m e l).
Proof.
  intros Hm He. unfold binary_round_aux.
  pose proof (shr_fexp_positive m e l Hm He) as [H1 H2].
  destruct (shr_fexp prec emax m e l) as [mrs' e'] eqn:E1. simpl in H1, H2.
  set (m2 := round_nearest_even (shr_m mrs') (loc_of_shr_record mrs')).
  assert (Hm2 : (0 < m2)%Z).
  { pose proof (round_nearest_even_ge (shr_m mrs') (loc_of_shr_record mrs')). fold m2 in H. lia. }
  pose proof (shr_fexp_positive m2 e' loc_Exact Hm2) as H3.
  assert (He' : (SpecFloat.emin prec emax - e' < Zdigits2 m2)%Z) by (pose proof (Zdigits2_pos m2 Hm2); lia).
  specialize (H3 He'). destruct H3 as [H3 _].
  destruct (shr_fexp prec emax m2 e' loc_Exact) as [mrs'' e''] eqn:E2. simpl in H3.
  destruct (shr_m mrs'') as [|p|p]; try lia.
  destruct (e'' <=? emax - prec)%Z; [left; eauto | right; reflexivity].
Qed.

Lemma binary_round_signed (s : bool) (m : positive) (e : Z) :
  (SpecFloat.emin prec emax <= e)%Z -> signed s (binary_round prec emax s m e).
Proof.
  intro He. unfold binary_round.
  pose proof (shl_align_value m e (SpecFloat.fexp prec emax (Zpos (digits2_pos m) + e))) as [Hs Hv].
  destruct (shl_align m e (SpecFloat.fexp prec emax (Zpos (digits2_pos m) + e))) as [mz ez]. simpl in Hs, Hv.
  apply binary_round_aux_signed; [lia|].
  assert (SpecFloat.emin prec emax <= ez)%Z by (unfold SpecFloat.fexp in Hs; lia).
  pose proof (Zdigits2_pos (Zpos mz)). lia.
Qed.

Lemma binary_normalize_class (m e : Z) (sz : bool) :
  (SpecFloat.emin prec emax <= e)%Z ->
  match m with
  | Z0 => binary_normalize prec emax m e sz = S754_zero sz
  | Zpos _ => signed false (binary_normalize prec emax m e sz)
  | Zneg _ => signed true (binary_normalize prec emax m e sz)
  end.
Proof.
  intro He. destruct m; simpl; [reflexivity| |]; now apply binary_round_signed.
Qed.

(** Valid finite numbers. *)
Lemma bounded_digits (m : positive) (e : Z) :
  bounded prec emax m e = true ->
  (SpecFloat.emin prec emax <= e)%Z /\ (Zpos (digits2_pos m) <= prec)%Z
  /\ ((SpecFloat.emin prec emax < e)%Z -> Zpos (digits2_pos m) = prec).
Proof.
  unfold bounded, canonical_mantissa. intro H.
  apply andb_prop in H. destruct H as [H _]. apply Z.eqb_eq in H.
  unfold SpecFloat.fexp in H. lia.
Qed.


Lemma SFltb_zero_signed (s : bool) (x : spec_float) :
  signed s x -> SFltb (S754_zero false) x = negb s.
Proof.
  intros [[m [e ->]] | ->]; unfold SFltb; simpl; destruct s; reflexivity.
Qed.

(** The mantissas of two valid numbers, brought to the lesser exponent,
    compare as the exponents do, and as the mantissas when the exponents
    are equal. *)
Lemma aligned_lt (mx my : positive) (ex ey : Z) :
  bounded prec emax mx ex = true -> bounded prec emax my ey = true ->
  (ex < ey)%Z ->
  (Zpos (fst (shl_align mx ex (Z.min ex ey))) < Zpos (fst (shl_align my ey (Z.min ex ey))))%Z.
Proof.
  intros Hx Hy Hlt.
  apply bounded_digits in Hx. destruct Hx as [Hex [Hdx _]].
  apply bounded_digits in Hy. destruct Hy as [Hey [_ Hdy]].
  pose proof (shl_align_value mx ex (Z.min ex ey)) as [Hsx Hvx].
  pose proof (shl_align_value my ey (Z.min ex ey)) as [Hsy Hvy].
  rewrite Hvx, Hvy, Hsx, Hsy.
  replace (ex - Z.min ex (Z.min ex ey))%Z with 0%Z by lia.
  replace (ey - Z.min ey (Z.min ex ey))%Z with (ey - ex)%Z by lia.
  rewrite Z.pow_0_r, Z.mul_1_r.
  pose proof (digits2_pos_bounds mx) as [_ Hmx].
  pose proof (digits2_pos_bounds my) as [Hmy _].
  rewrite Hdy in Hmy by lia.
  assert (H1 : (Zpos mx < 2 ^ prec)%Z).
  { eapply Z.lt_le_trans; [exact Hmx|]. apply Z.pow_le_mono_r; lia. }
  assert (H2 : (2 ^ 1 <= 2 ^ (ey - ex))%Z) by (apply Z.pow_le_mono_r; lia).
  assert (H3 : (2 ^ prec = 2 ^ (prec - 1) * 2 ^ 1)%Z).
  { rewrite <- Z.pow_add_r by lia. f_equal. lia. }
  assert (H4 : (0 < 2 ^ (prec - 1))%Z) by (apply Z.pow_pos_nonneg; lia).
  nia.
Qed.

Lemma aligned_eq (mx my : positive) (e : Z) :
  fst (shl_align mx e (Z.min e e)) = mx /\ fst (shl_align my e (Z.min e e)) = my.
Proof.
  unfold shl_align. rewrite Z.min_id, Z.sub_diag. split; reflexivity.
Qed.

Lemma signed_binary_normalize (m e : Z) :
  (SpecFloat.emin prec emax <= e)%Z ->
  SFltb (S754_zero false) (binary_normalize prec emax m e false) = (0 <? m)%Z.
Proof.
  intro He. pose proof (binary_normalize_class m e false He) as H.
  destruct m as [|p|p].
  - rewrite H. reflexivity.
  - now rewrite (SFltb_zero_signed false).
  - now rewrite (SFltb_zero_signed true).
Qed.

(** The difference of two valid numbers is positive exactly when the
    second is less than the first: no rounding turns a difference that is
    not zero into zero, or changes its sign. *)
Lemma SFsub_positive (x y : spec_float) :
  SpecFloat.valid_binary prec emax x = true -> SpecFloat.valid_binary prec emax y = true ->
  SFltb (S754_zero false) (SFsub prec emax x y) = SFltb y x.
Proof.
  intros Hx Hy.
  destruct x as [sx|sx| |sx mx ex], y as [sy|sy| |sy my ey];
    try reflexivity;
    try (destruct sx; reflexivity);
    try (destruct sy; reflexivity);
    try (destruct sx, sy; reflexivity).
  simpl in Hx, Hy. unfold SFsub.
  pose proof (bounded_digits _ _ Hx) as [Hex _].
  pose proof (bounded_digits _ _ Hy) as [Hey _].
  rewrite signed_binary_normalize by lia.
  unfold SFltb, SFcompare.
  change (Pos.compare_cont Eq my mx) with (Pos.compare my mx).
  destruct (Z.compare_spec ey ex) as [He|He|He].
  - subst ey. destruct (aligned_eq mx my ex) as [-> ->].
    destruct (Pos.compare_spec my mx) as [Hm|Hm|Hm]; destruct sx, sy;
      cbv [cond_Zopp CompOpp]; cbv beta iota;
      first [ apply Z.ltb_lt; lia | apply Z.ltb_ge; lia ].
  - pose proof (aligned_lt my mx ey ex Hy Hx He) as Hlt.
    rewrite (Z.min_comm ey ex) in Hlt.
    destruct sx, sy; cbv [cond_Zopp]; cbv beta iota;
      first [ apply Z.ltb_lt; lia | apply Z.ltb_ge; lia ].
  - pose proof (aligned_lt mx my ex ey Hx Hy He) as Hlt.
    destruct sx, sy; cbv [cond_Zopp]; cbv beta iota;
      first [ apply Z.ltb_lt; lia | apply Z.ltb_ge; lia ].
Qed.

End Spec.

Lemma SFltb_rank (x y : spec_float) :
  x <> S754_nan -> y <> S754_nan ->
  (SFltb x y = true <-> lex_lt (rank x) (rank y)).
Proof.
  intros Hx Hy. unfold SFltb, SFcompare, lex_lt.
  destruct x as [sx|sx| |sx mx ex], y as [sy|sy| |sy my ey]; try congruence;
    try (destruct sx; cbn; split; intro H; try discriminate; lia);
    try (destruct sy; cbn; split; intro H; try discriminate; lia);
    try (destruct sx, sy; cbn; split; intro H; try discriminate; lia).
  change (Pos.compare_cont Eq mx my) with (Pos.compare mx my).
  destruct sx, sy; cbn [rank fst snd];
    destruct (Z.compare_spec ex ey) as [He|He|He];
    destruct (Pos.compare_spec mx my) as [Hm|Hm|Hm];
    cbn [CompOpp]; split; intro H; try discriminate; try reflexivity; lia.
Qed.

Lemma SFltb_not_nan (x y : spec_float) :
  SFltb x y = true -> x <> S754_nan /\ y <> S754_nan.
Proof.
  unfold SFltb, SFcompare. destruct x as [[]|[]| |[]], y as [[]|[]| |[]];
    intro H; try discriminate; split; discriminate.
Qed.

Lemma SFltb_asym (x y : spec_float) : SFltb x y = true -> SFltb y x = false.
Proof.
  intro H. destruct (SFltb_not_nan _ _ H) as [Hx Hy].
  apply (SFltb_rank x y Hx Hy) in H.
  destruct (SFltb y x) eqn:E; [|reflexivity].
  apply (SFltb_rank y x Hy Hx) in E. unfold lex_lt in *. lia.
Qed.

Lemma SFltb_negtrans (x y z : spec_float) :
  y <> S754_nan -> SFltb x z = true -> SFltb x y = true \/ SFltb y z = true.
Proof.
  intros Hy H. destruct (SFltb_not_nan _ _ H) as [Hx Hz].
  apply (SFltb_rank x z Hx Hz) in H.
  destruct (SFltb x y) eqn:E1; [now left|]. right.
  destruct (SFltb y z) eqn:E2; [reflexivity|]. exfalso.
  assert (N1 : ~ lex_lt (rank x) (rank y)).
  { intro L. apply (SFltb_rank x y Hx Hy) in L. congruence. }
  assert (N2 : ~ lex_lt (rank y) (rank z)).
  { intro L. apply (SFltb_rank y z Hy Hz) in L. congruence. }
  unfold lex_lt in *. lia.
Qed.

(** ** The operations of [float] *)

Lemma sub_positive (x y : float) : (0 <? x - y)%float = (y <? x)%float.
Proof.
  rewrite !FloatAxioms.ltb_spec, FloatAxioms.sub_spec.
  replace (Prim2SF 0%float) with (S754_zero false) by reflexivity.
  apply SFsub_positive; [reflexivity | apply Prim2SF_valid | apply Prim2SF_valid].
Qed.

Lemma ltb_asym (x y : float) : (x <? y)%float = true -> (y <? x)%float = false.
Proof. rewrite !FloatAxioms.ltb_spec. apply SFltb_asym. Qed.

Lemma ltb_negtrans (x y z : float) :
  Prim2SF y <> S754_nan ->
  (x <? z)%float = true -> (x <? y)%float = true \/ (y <? z)%float = true.
Proof. rewrite !FloatAxioms.ltb_spec. apply SFltb_negtrans. Qed.

Lemma eqb_not_ltb (x y : float) : (x =? y)%float = true -> (y <? x)%float = false.
Proof.
  rewrite FloatAxioms.eqb_spec, FloatAxioms.ltb_spec. unfold SFeqb, SFltb. intro H.
  destruct (SFcompare (Prim2SF x) (Prim2SF y)) as [[]|] eqn:E; try discriminate.
  destruct (SFcompare (Prim2SF y) (Prim2SF x)) as [[]|] eqn:E'; try reflexivity.
  exfalso.
  assert (L : SFltb (Prim2SF y) (Prim2SF x) = true) by (unfold SFltb; now rewrite E').
  destruct (SFltb_not_nan _ _ L) as [Hy Hx].
  apply (SFltb_rank _ _ Hy Hx) in L.
  assert (N : SFltb (Prim2SF x) (Prim2SF y) = false) by (unfold SFltb; now rewrite E).
  assert (N' : SFltb (Prim2SF y) (Prim2SF x) = true) by (unfold SFltb; now rewrite E').
  clear N N'.
  revert E L. unfold SFcompare, lex_lt.
  destruct (Prim2SF x) as [sx|sx| |sx mx ex], (Prim2SF y) as [sy|sy| |sy my ey];
    try congruence;
    try (destruct sx; cbn; intros; try discriminate; lia);
    try (destruct sy; cbn; intros; try discriminate; lia);
    try (destruct sx, sy; cbn; intros; try discriminate; lia).
  change (Pos.compare_cont Eq mx my) with (Pos.compare mx my).
  destruct sx, sy; cbn [rank fst snd];
    destruct (Z.compare_spec ex ey) as [He|He|He];
    destruct (Pos.compare_spec mx my) as [Hm|Hm|Hm];
    cbn [CompOpp]; intros; try discriminate; lia.
Qed.

(** ** Distances to a target *)

Lemma positive_class (x : spec_float) :
  SFltb (S754_zero false) x = true ->
  (exists m e, x = S754_finite false m e) \/ x = S754_infinity false.
Proof.
  destruct x as [s|[]| |[] m e]; unfold SFltb; simpl; try discriminate; eauto.
Qed.

Lemma SFsub_not_nan (x t : spec_float) :
  SpecFloat.valid_binary prec emax x = true -> SpecFloat.valid_binary prec emax t = true ->
  SFltb (S754_zero false) x = true ->
  t <> S754_nan -> t <> S754_infinity false ->
  SFabs (SFsub prec emax x t) <> S754_nan.
Proof.
  intros Vx Vt Hx Ht1 Ht2.
  destruct (positive_class x Hx) as [[m [e ->]] | ->].
  - destruct t as [st|[]| |st mt et]; try congruence; try (simpl; discriminate).
    unfold SFsub. simpl in Vx, Vt.
    pose proof (bounded_digits prec emax _ _ Vx) as [He _].
    pose proof (bounded_digits prec emax _ _ Vt) as [Het _].
    set (d := (cond_Zopp false (Zpos (fst (shl_align m e (Z.min e et))))
               - cond_Zopp st (Zpos (fst (shl_align mt et (Z.min e et)))))%Z).
    assert (Hmin : (SpecFloat.emin prec emax <= Z.min e et)%Z) by lia.
    pose proof (binary_normalize_class prec emax eq_refl d (Z.min e et) false Hmin) as H.
    destruct d as [|p|p].
    + rewrite H. discriminate.
    + destruct H as [[m' [e' ->]] | ->]; discriminate.
    + destruct H as [[m' [e' ->]] | ->]; discriminate.
  - destruct t as [st|[]| |st mt et]; try congruence; simpl; discriminate.
Qed.

Lemma SFsub_top (x y t : spec_float) :
  SFltb (S754_zero false) x = true -> SFltb (S754_zero false) y = true ->
  t = S754_nan \/ t = S754_infinity false ->
  SFltb (SFabs (SFsub prec emax x t)) (SFabs (SFsub prec emax y t)) = false.
Proof.
  intros Hx Hy Ht.
  destruct (positive_class x Hx) as [[m [e ->]] | ->];
    destruct (positive_class y Hy) as [[m' [e' ->]] | ->];
    destruct Ht as [-> | ->]; reflexivity.
Qed.

(** The distances of contracts of positive strike to one target compare
    transitively: either none of them is [NaN], or no one is less than
    another. *)
Lemma distance_le_trans (t a b c : float) :
  (0 <? a)%float = true -> (0 <? b)%float = true -> (0 <? c)%float = true ->
  (abs (b - t) <? abs (a - t))%float = false ->
  (abs (c - t) <? abs (b - t))%float = false ->
  (abs (c - t) <? abs (a - t))%float = false.
Proof.
  intros Ha Hb Hc Hab Hbc.
  destruct (abs (c - t) <? abs (a - t))%float eqn:E; [|reflexivity].
  rewrite FloatAxioms.ltb_spec in Ha, Hb, Hc.
  replace (Prim2SF 0%float) with (S754_zero false) in Ha, Hb, Hc by reflexivity.
  assert (Ht : (Prim2SF t = S754_nan \/ Prim2SF t = S754_infinity false)
               \/ (Prim2SF t <> S754_nan /\ Prim2SF t <> S754_infinity false)).
  { destruct (Prim2SF t) as [s|[]| |s m e]; (left; now auto) || (right; split; discriminate). }
  destruct Ht as [Ht | [Ht1 Ht2]].
  - rewrite FloatAxioms.ltb_spec, !FloatAxioms.abs_spec, !FloatAxioms.sub_spec in E.
    unfold SF64sub in E. rewrite (SFsub_top _ _ _ Hc Ha Ht) in E. discriminate.
  - destruct (ltb_negtrans (abs (c - t)) (abs (b - t)) (abs (a - t))) as [H | H].
    + rewrite FloatAxioms.abs_spec, FloatAxioms.sub_spec. unfold SF64sub.
      apply SFsub_not_nan; auto using Prim2SF_valid.
    + exact E.
    + congruence.
    + congruence.
Qed.

(** * The ranking on binary64 numbers *)

(** ** [Array.prototype.sort] with a comparator that subtracts keys *)

Section SortByKey.

Variable A : Type.
Variable key : A -> float.
Variable P : A -> Prop.

Hypothesis key_trans : forall a b c, P a -> P b -> P c ->
  (key b <? key a)%float = false -> (key c <? key b)%float = false ->
  (key c <? key a)%float = false.

Lemma key_insert_perm (x : A) (l : list A) :
  Permutation (Js.sort_insert (fun a b => (key a - key b)%float) x l) (x :: l).
Proof.
  induction l as [|y l IH]; simpl; [reflexivity|].
  destruct (0 <? key x - key y)%float; [|reflexivity].
  rewrite IH. apply perm_swap.
Qed.

Lemma key_sort_perm (l : list A) :
  Permutation (Js.Array_sort (fun a b => (key a - key b)%float) l) l.
Proof.
  induction l as [|x l IH]; simpl; [reflexivity|].
  rewrite key_insert_perm. now constructor.
Qed.

Lemma key_insert_sorted (x : A) (l : list A) :
  P x -> Forall P l ->
  StronglySorted (fun a b => (key b <? key a)%float = false) l ->
  StronglySorted (fun a b => (key b <? key a)%float = false)
                 (Js.sort_insert (fun a b => (key a - key b)%float) x l).
Proof.
  intros Px. induction l as [|y l IH]; intros Pl Hs; simpl.
  - repeat constructor.
  - inversion Hs as [|? ? Hs' Hall]; subst.
    inversion Pl as [|? ? Py Pl']; subst.
    rewrite sub_positive. destruct (key y <? key x)%float eqn:Hc.
    + constructor; [now apply IH|].
      apply (Permutation_Forall (Permutation_sym (key_insert_perm x l))).
      constructor; [now apply ltb_asym | exact Hall].
    + constructor; [exact Hs|].
      constructor; [exact Hc|].
      rewrite Forall_forall in Hall, Pl' |- *. intros z Hz.
      apply (key_trans x y z); auto.
Qed.

Lemma key_sort_sorted (l : list A) :
  Forall P l ->
  StronglySorted (fun a b => (key b <? key a)%float = false)
                 (Js.Array_sort (fun a b => (key a - key b)%float) l).
Proof.
  induction l as [|x l IH]; intro Pl; simpl; [constructor|].
  inversion Pl as [|? ? Px Pl']; subst.
  apply key_insert_sorted; [exact Px| |now apply IH].
  apply (Permutation_Forall (Permutation_sym (key_sort_perm l))). exact Pl'.
Qed.

(** Insertion keeps the order of the elements that are there. *)
Lemma key_insert_keeps (x a b : A) (l l1 l2 l3 : list A) :
  l = l1 ++ a :: l2 ++ b :: l3 ->
  exists r1 r2 r3,
    Js.sort_insert (fun a b => (key a - key b)%float) x l = r1 ++ a :: r2 ++ b :: r3.
Proof.
  revert l1. induction l as [|y l IH]; intros l1 E.
  - destruct l1; discriminate.
  - simpl. destruct (0 <? key x - key y)%float.
    + destruct l1 as [|z l1]; simpl in E; injection E as -> E.
      * assert (Hin : In b (Js.sort_insert (fun a b => (key a - key b)%float) x l)).
        { apply (Permutation_in _ (Permutation_sym (key_insert_perm x l))).
          right. subst l. apply in_or_app. right. now left. }
        apply in_split in Hin. destruct Hin as [u [v Hv]].
        exists [], u, v. simpl. now rewrite Hv.
      * destruct (IH l1 E) as [r1 [r2 [r3 Hr]]].
        exists (z :: r1), r2, r3. simpl. now rewrite Hr.
    + exists (x :: l1), l2, l3. simpl. now rewrite E.
Qed.

(** A new element goes in front of every element it is not farther than. *)
Lemma key_insert_before (x b : A) (l : list A) :
  In b l -> (key b <? key x)%float = false ->
  exists r1 r2 r3,
    Js.sort_insert (fun a b => (key a - key b)%float) x l = r1 ++ x :: r2 ++ b :: r3.
Proof.
  induction l as [|y l IH]; intros Hin Hb; [destruct Hin|].
  simpl. rewrite sub_positive. destruct (key y <? key x)%float eqn:Hc.
  - destruct Hin as [-> | Hin]; [congruence|].
    destruct (IH Hin Hb) as [r1 [r2 [r3 Hr]]].
    exists (y :: r1), r2, r3. simpl. now rewrite Hr.
  - apply in_split in Hin. destruct Hin as [u [v Hv]].
    exists [], u, v. simpl. now rewrite Hv.
Qed.

Lemma key_sort_stable (l l1 l2 l3 : list A) (a b : A) :
  l = l1 ++ a :: l2 ++ b :: l3 ->
  (key b <? key a)%float = false ->
  exists r1 r2 r3,
    Js.Array_sort (fun a b => (key a - key b)%float) l = r1 ++ a :: r2 ++ b :: r3.
Proof.
  revert l1. induction l as [|x l IH]; intros l1 E Hab.
  - destruct l1; discriminate.
  - simpl. destruct l1 as [|z l1]; simpl in E; injection E as -> E.
    + apply key_insert_before; [|exact Hab].
      apply (Permutation_in _ (Permutation_sym (key_sort_perm l))).
      subst l. apply in_or_app. right. now left.
    + destruct (IH l1 E Hab) as [r1 [r2 [r3 Hr]]].
      eapply key_insert_keeps. exact Hr.
Qed.

End SortByKey.

(** ** The ranking *)

Lemma sortedContracts_by_key (contracts : list Js.OptionContract) (target : float) :
  Js.sortedContracts contracts target
  = Js.Array_sort (fun a b => (strike_distance target a - strike_distance target b)%float)
                  (filter (fun c => (0 <? Js.contract_strike c)%float) contracts).
Proof. reflexivity. Qed.

Lemma strike_distance_trans (target : float) (a b c : Js.OptionContract) :
  (0 <? Js.contract_strike a)%float = true ->
  (0 <? Js.contract_strike b)%float = true ->
  (0 <? Js.contract_strike c)%float = true ->
  (strike_distance target b <? strike_distance target a)%float = false ->
  (strike_distance target c <? strike_distance target b)%float = false ->
  (strike_distance target c <? strike_distance target a)%float = false.
Proof. unfold strike_distance. apply distance_le_trans. Qed.

(** C8: the ranking holds exactly the contracts whose strike is above 0;
    it is in ascending order of |strike - targetStrike|: no contract is
    farther from the target than one that comes after it; and the sort is
    stable: a contract that comes before another in the input comes before
    it in the ranking unless the other is strictly nearer, so two contracts
    at equal distance keep their input order.  The distance is the one the
    comparator computes, in binary64. *)
Theorem ranking_stable_by_distance (contracts : list Js.OptionContract) (target : float) :
  Permutation (Js.sortedContracts contracts target)
              (filter (fun c => (0 <? Js.contract_strike c)%float) contracts)
  /\ (forall c, In c (Js.sortedContracts contracts target) <->
                In c contracts /\ (0 <? Js.contract_strike c)%float = true)
  /\ StronglySorted
       (fun a b => (abs (Js.contract_strike b - target)
                    <? abs (Js.contract_strike a - target))%float = false)
       (Js.sortedContracts contracts target)
  /\ (forall a b l1 l2 l3,
        filter (fun c => (0 <? Js.contract_strike c)%float) contracts
          = l1 ++ a :: l2 ++ b :: l3 ->
        (abs (Js.contract_strike b - target)
         <? abs (Js.contract_strike a - target))%float = false ->
        exists r1 r2 r3, Js.sortedContracts contracts target = r1 ++ a :: r2 ++ b :: r3)
  /\ (forall a b l1 l2 l3,
        filter (fun c => (0 <? Js.contract_strike c)%float) contracts
          = l1 ++ a :: l2 ++ b :: l3 ->
        (abs (Js.contract_strike a - target)
         =? abs (Js.contract_strike b - target))%float = true ->
        exists r1 r2 r3, Js.sortedContracts contracts target = r1 ++ a :: r2 ++ b :: r3).
Proof.
  assert (Hperm : Permutation (Js.sortedContracts contracts target)
                    (filter (fun c => (0 <? Js.contract_strike c)%float) contracts)).
  { rewrite sortedContracts_by_key. apply key_sort_perm. }
  assert (Hstable : forall a b l1 l2 l3,
            filter (fun c => (0 <? Js.contract_strike c)%float) contracts
              = l1 ++ a :: l2 ++ b :: l3 ->
            (abs (Js.contract_strike b - target)
             <? abs (Js.contract_strike a - target))%float = false ->
            exists r1 r2 r3, Js.sortedContracts contracts target = r1 ++ a :: r2 ++ b :: r3).
  { intros a b l1 l2 l3 E Hab. rewrite sortedContracts_by_key.
    eapply key_sort_stable; [exact E | exact Hab]. }
  split; [exact Hperm|]. split; [|split; [|split; [exact Hstable|]]].
  - intro c. split.
    + intro Hin. apply (Permutation_in _ Hperm) in Hin. now apply filter_In in Hin.
    + intro Hin. apply (Permutation_in _ (Permutation_sym Hperm)). now apply filter_In.
  - rewrite sortedContracts_by_key.
    apply (key_sort_sorted Js.OptionContract (strike_distance target)
             (fun c => (0 <? Js.contract_strike c)%float = true)).
    + intros a b c. apply strike_distance_trans.
    + apply Forall_forall. intros c Hc. now apply filter_In in Hc.
  - intros a b l1 l2 l3 E Heq. apply (Hstable a b l1 l2 l3 E).
    now apply eqb_not_ltb.
Qed.

(** * The qualifier on binary64 numbers *)

Lemma or_zero_live_price (p : option float) : Js.or_zero p = live_price p.
Proof.
  destruct p as [x|]; [|reflexivity]. unfold Js.or_zero, Js.ToBoolean, live_price.
  unfold is_zero, is_nan, zero.
  destruct (x =? 0)%float, (x =? x)%float; reflexivity.
Qed.

Lemma snapshot_bid_live (s : Js.OptionSnapshot) :
  Js.or_zero (chain (Js.option_latest_quote s) Js.bid_price) = quoted_bid s.
Proof.
  unfold quoted_bid, chain. destruct (Js.option_latest_quote s); [apply or_zero_live_price | reflexivity].
Qed.

Lemma snapshot_ask_live (s : Js.OptionSnapshot) :
  Js.or_zero (chain (Js.option_latest_quote s) Js.ask_price) = quoted_ask s.
Proof.
  unfold quoted_ask, chain. destruct (Js.option_latest_quote s); [apply or_zero_live_price | reflexivity].
Qed.

(** The gates of the loop body, one after the other. *)
Lemma js_qualify_unfold (cfg : Js.Config) (equity : float) (s : Js.OptionSnapshot) :
  Js.qualify cfg equity (Some s)
  = match quoted_delta s with
    | Js.delta_undefined => None
    | d =>
        if (magnitude d <? Js.options_min_delta cfg)%float
           || (Js.options_max_delta cfg <? magnitude d)%float then None
        else if (quoted_bid s =? 0)%float || (quoted_ask s =? 0)%float then None
        else if (0.1 <? spread_of s)%float then None
        else if (position_size equity (Js.options_max_pct_per_trade cfg) (mid_of s) <? 1)%float
             then None
        else Some (d, mid_of s,
                   position_size equity (Js.options_max_pct_per_trade cfg) (mid_of s))
    end.
Proof.
  unfold Js.qualify, quoted_delta, spread_of, mid_of, position_size.
  rewrite snapshot_bid_live, snapshot_ask_live.
  destruct (Js.greeks s) as [g|]; [|reflexivity].
  destruct (Js.greeks_delta g); reflexivity.
Qed.

Lemma js_qualify_None_iff (cfg : Js.Config) (equity : float)
    (snap : option Js.OptionSnapshot) :
  Js.qualify cfg equity snap = None <-> gate_rejected cfg equity snap.
Proof.
  destruct snap as [s|]; [|simpl; tauto].
  rewrite js_qualify_unfold. unfold gate_rejected, quoted_delta.
  destruct (Js.greeks s) as [g|]; [|tauto].
  destruct (Js.greeks_delta g) as [| |x]; [tauto| |].
  all: destruct (_ <? Js.options_min_delta cfg)%float;
    destruct (Js.options_max_delta cfg <? _)%float;
    destruct (quoted_bid s =? 0)%float; destruct (quoted_ask s =? 0)%float;
    destruct (0.1 <? spread_of s)%float;
    destruct (position_size _ _ _ <? 1)%float; simpl;
    split; intro H; try reflexivity; try discriminate; auto 10;
    repeat (destruct H as [H | H]; try discriminate); discriminate.
Qed.

Lemma js_qualify_passes (cfg : Js.Config) (equity : float) (snap : option Js.OptionSnapshot) :
  ~ gate_rejected cfg equity snap ->
  exists s g,
    snap = Some s /\ Js.greeks s = Some g
    /\ Js.qualify cfg equity snap
       = Some (Js.greeks_delta g, mid_of s,
               position_size equity (Js.options_max_pct_per_trade cfg) (mid_of s)).
Proof.
  intro H. destruct snap as [s|]; [|exfalso; apply H; exact I].
  destruct (Js.qualify cfg equity (Some s)) as [r|] eqn:E.
  - rewrite js_qualify_unfold in E. unfold quoted_delta in E.
    destruct (Js.greeks s) as [g|] eqn:Eg; [|discriminate].
    exists s, g. split; [reflexivity|]. split; [exact Eg|].
    destruct (Js.greeks_delta g); [discriminate| |];
      repeat match type of E with
             | context [if ?b then _ else _] => destruct b; try discriminate
             end;
      now rewrite <- E.
  - exfalso. apply H. now apply js_qualify_None_iff.
Qed.

(** ** The loop *)

Lemma js_probe_cons (ctx : Js.StrategyContext) (alpaca : Js.AlpacaProviders)
    (direction : Direction) (equity : float) (bestExp : string)
    (c : Js.OptionContract) (rest : list Js.OptionContract) (t : Js.Trace) :
  Js.probe ctx alpaca direction equity bestExp (c :: rest) t
  = match Js.options_getSnapshot alpaca (Js.contract_symbol c) with
    | Js.Rejected e =>
        (Js.Rejected e,
         t ++ [Js.Called (GetOptionSnapshot (Js.contract_symbol c)) (Some e)])
    | Js.Resolved snap =>
        match Js.qualify (Js.config ctx) equity snap with
        | None => Js.probe ctx alpaca direction equity bestExp rest (t ++ [js_fetched c])
        | Some (d, midPrice, maxContracts) =>
            (match Js.log ctx "Options" "contract_selected" with
             | None =>
                 Js.Resolved (Some {| Js.symbol := Js.contract_symbol c;
                                      Js.strike := Js.contract_strike c;
                                      Js.expiration := bestExp;
                                      Js.delta := d;
                                      Js.mid_price := midPrice;
                                      Js.max_contracts := maxContracts;
                                      Js.option_type := option_type_of direction |})
             | Some e => Js.Rejected e
             end,
             (t ++ [js_fetched c])
               ++ [Js.Logged "Options" "contract_selected"
                     (Js.log ctx "Options" "contract_selected")])
        end
    end.
Proof.
  cbn [Js.probe]. unfold Js.bind at 1. unfold Js.await, js_fetched.
  destruct (Js.options_getSnapshot alpaca (Js.contract_symbol c)) as [snap|e]; [|reflexivity].
  cbn [Js.failure_of].
  destruct (Js.qualify (Js.config ctx) equity snap) as [[[d m] n]|]; [|reflexivity].
  unfold Js.bind, Js.call_log, Js.ret.
  destruct (Js.log ctx "Options" "contract_selected"); reflexivity.
Qed.

Lemma js_probe_skips (ctx : Js.StrategyContext) (alpaca : Js.AlpacaProviders)
    (direction : Direction) (equity : float) (bestExp : string)
    (pre rest : list Js.OptionContract) (t : Js.Trace) :
  (forall c, In c pre -> js_turned_down alpaca (Js.config ctx) equity c) ->
  Js.probe ctx alpaca direction equity bestExp (pre ++ rest) t
  = Js.probe ctx alpaca direction equity bestExp rest (t ++ map js_fetched pre).
Proof.
  revert t. induction pre as [|c pre IH]; intros t H.
  - simpl. now rewrite app_nil_r.
  - rewrite <- app_comm_cons, js_probe_cons.
    destruct (H c (or_introl eq_refl)) as [snap [Hs Hr]]. rewrite Hs.
    apply js_qualify_None_iff in Hr. rewrite Hr.
    rewrite IH by (intros c' Hc'; apply H; now right).
    simpl. now rewrite <- app_assoc.
Qed.

(** C3, as the code has it, every figure being the binary64 one: a
    candidate is turned down exactly for the listed reasons (no snapshot;
    no greeks or an undefined delta; |delta| below min_delta or above
    max_delta, a null delta counting as 0; bid or ask zero;
    (ask - bid) / ask above 0.10; size below 1).  The first candidate that
    is not turned down is selected: the selection is logged and, when the
    logger returns, the candidate is returned with its symbol, strike, the
    expiration, the delta of its snapshot, the mid price (bid + ask) / 2
    and the size, and no snapshot of a later candidate is fetched; when the
    logger throws, the loop ends in its exception.  A fetch that is
    rejected ends the loop in its exception.  When every candidate is
    turned down the loop ends in null. *)
Theorem qualifier_first_passing (ctx : Js.StrategyContext) (alpaca : Js.AlpacaProviders)
    (direction : Direction) (equity : float) (bestExp : string) (t : Js.Trace) :
  (forall snap,
      Js.qualify (Js.config ctx) equity snap = None
      <-> gate_rejected (Js.config ctx) equity snap)
  /\ (forall pre c post snap,
        (forall c', In c' pre -> js_turned_down alpaca (Js.config ctx) equity c') ->
        Js.options_getSnapshot alpaca (Js.contract_symbol c) = Js.Resolved snap ->
        ~ gate_rejected (Js.config ctx) equity snap ->
        exists s g,
          snap = Some s /\ Js.greeks s = Some g
          /\ Js.probe ctx alpaca direction equity bestExp (pre ++ c :: post) t
             = (match Js.log ctx "Options" "contract_selected" with
                | None =>
                    Js.Resolved (Some
                      {| Js.symbol := Js.contract_symbol c;
                         Js.strike := Js.contract_strike c;
                         Js.expiration := bestExp;
                         Js.delta := Js.greeks_delta g;
                         Js.mid_price := ((quoted_bid s + quoted_ask s) / 2)%float;
                         Js.max_contracts :=
                           Js.Math_floor
                             (equity * Js.options_max_pct_per_trade (Js.config ctx)
                              / ((quoted_bid s + quoted_ask s) / 2 * 100))%float;
                         Js.option_type := option_type_of direction |})
                | Some e => Js.Rejected e
                end,
                t ++ map js_fetched pre
                  ++ [js_fetched c;
                      Js.Logged "Options" "contract_selected"
                        (Js.log ctx "Options" "contract_selected")]))
  /\ (forall pre c post e,
        (forall c', In c' pre -> js_turned_down alpaca (Js.config ctx) equity c') ->
        Js.options_getSnapshot alpaca (Js.contract_symbol c) = Js.Rejected e ->
        Js.probe ctx alpaca direction equity bestExp (pre ++ c :: post) t
        = (Js.Rejected e,
           t ++ map js_fetched pre
             ++ [Js.Called (GetOptionSnapshot (Js.contract_symbol c)) (Some e)]))
  /\ (forall candidates,
        (forall c, In c candidates -> js_turned_down alpaca (Js.config ctx) equity c) ->
        Js.probe ctx alpaca direction equity bestExp candidates t
        = (Js.Resolved None, t ++ map js_fetched candidates)).
Proof.
  split; [intro snap; apply js_qualify_None_iff|]. split; [|split].
  - intros pre c post snap Hpre Hsnap Hpass.
    destruct (js_qualify_passes _ _ _ Hpass) as [s [g [-> [Hg Hq]]]].
    exists s, g. split; [reflexivity|]. split; [exact Hg|].
    rewrite js_probe_skips by exact Hpre.
    rewrite js_probe_cons, Hsnap, Hq.
    unfold mid_of, position_size. rewrite <- !app_assoc. reflexivity.
  - intros pre c post e Hpre Hsnap.
    rewrite js_probe_skips by exact Hpre.
    rewrite js_probe_cons, Hsnap. now rewrite <- app_assoc.
  - intros candidates H.
    rewrite <- (app_nil_r candidates) at 1.
    rewrite js_probe_skips by exact H. reflexivity.
Qed.

(** ** Position sizing *)

Lemma eqb_zero_ltb_one (x : float) : (x =? 0)%float = true -> (x <? 1)%float = true.
Proof.
  rewrite FloatAxioms.eqb_spec, FloatAxioms.ltb_spec.
  replace (Prim2SF 0%float) with (S754_zero false) by reflexivity.
  replace (Prim2SF 1%float) with (S754_finite false 4503599627370496 (-52)) by reflexivity.
  unfold SFeqb, SFltb, SFcompare.
  destruct (Prim2SF x) as [s|[]| |[] m e]; intro H; try discriminate; reflexivity.
Qed.


(** * Exceptions *)

Lemma thrown_in_app (t u : Js.Trace) : thrown_in (t ++ u) = thrown_in t ++ thrown_in u.
Proof.
  induction t as [|ev t IH]; simpl; [reflexivity|].
  destruct (event_failure ev); simpl; now rewrite IH.
Qed.

Lemma provider_failed_thrown (tr : Js.Trace) : provider_failed tr -> thrown_in tr <> [].
Proof.
  intros [e [H | [c H]]]; apply in_split in H; destruct H as [u [v ->]];
    rewrite thrown_in_app; simpl; destruct (thrown_in u); discriminate.
Qed.

Lemma tidy_ret {A : Type} (a : A) : tidy (Js.ret a).
Proof. intro t. exists []. simpl. now rewrite app_nil_r. Qed.

Lemma tidy_step {A : Type} (r : Js.outcome A) (ev : Js.Event) :
  event_failure ev = Js.failure_of r ->
  tidy (fun t => (r, t ++ [ev])).
Proof.
  intros H t. exists [ev]. split; [reflexivity|]. simpl.
  destruct r as [a|e]; simpl in *.
  - now rewrite H.
  - exists [], ev. auto.
Qed.

Lemma tidy_create (r : Js.outcome Js.AlpacaProviders) : tidy (Js.create r).
Proof. now apply tidy_step. Qed.

Lemma tidy_await {A : Type} (c : Call) (r : Js.outcome A) : tidy (Js.await c r).
Proof. now apply tidy_step. Qed.

Lemma tidy_call_log (ctx : Js.StrategyContext) (category event : string) :
  tidy (Js.call_log ctx category event).
Proof.
  unfold Js.call_log. apply tidy_step. simpl. now destruct (Js.log ctx category event).
Qed.

Lemma tidy_bind {A B : Type} (m : Js.M A) (k : A -> Js.M B) :
  tidy m -> (forall a, tidy (k a)) -> tidy (Js.bind m k).
Proof.
  intros Hm Hk t. unfold Js.bind.
  destruct (Hm t) as [ext1 [E1 C1]]. destruct (m t) as [[a|e] t1]; simpl in *.
  - destruct (Hk a t1) as [ext2 [E2 C2]]. exists (ext1 ++ ext2).
    split; [rewrite E2, E1; now rewrite app_assoc|].
    destruct (fst (k a t1)) as [b|e]; simpl in *.
    + now rewrite thrown_in_app, C1, C2.
    + destruct C2 as [ext' [ev [-> [Hev Hc]]]]. exists (ext1 ++ ext'), ev.
      split; [now rewrite app_assoc|]. split; [exact Hev|].
      now rewrite thrown_in_app, C1, Hc.
  - exists ext1. auto.
Qed.

Lemma safe_of_tidy {A : Type} (m : Js.M (option A)) : tidy m -> safe m.
Proof. intros H t. destruct (H t) as [ext [E C]]. exists ext. auto. Qed.

Lemma safe_bind {A B : Type} (m : Js.M A) (k : A -> Js.M (option B)) :
  tidy m -> (forall a, safe (k a)) -> safe (Js.bind m k).
Proof.
  intros Hm Hk t. unfold Js.bind.
  destruct (Hm t) as [ext1 [E1 C1]]. destruct (m t) as [[a|e] t1]; simpl in *; subst t1.
  - destruct (Hk a (t ++ ext1)) as [ext2 [E2 C2]]. exists (ext1 ++ ext2).
    split; [rewrite E2; now rewrite app_assoc|].
    destruct C2 as [[C2 [pre [s [e [-> Hpre]]]]] | C2].
    + left. split; [exact C2|]. exists (ext1 ++ pre), s, e.
      split; [now rewrite app_assoc|]. now rewrite thrown_in_app, C1, Hpre.
    + right. destruct (fst (k a (t ++ ext1))) as [b|e]; simpl in *.
      * now rewrite thrown_in_app, C1, C2.
      * destruct C2 as [ext' [ev [-> [Hev Hc]]]]. exists (ext1 ++ ext'), ev.
        split; [now rewrite app_assoc|]. split; [exact Hev|].
        now rewrite thrown_in_app, C1, Hc.
  - exists ext1. auto.
Qed.

Lemma tidy_probe (ctx : Js.StrategyContext) (alpaca : Js.AlpacaProviders)
    (direction : Direction) (equity : float) (bestExp : string)
    (candidates : list Js.OptionContract) :
  tidy (Js.probe ctx alpaca direction equity bestExp candidates).
Proof.
  induction candidates as [|c rest IH]; [apply tidy_ret|].
  cbn [Js.probe]. apply tidy_bind; [apply tidy_await|].
  intro snap. destruct (Js.qualify (Js.config ctx) equity snap) as [[[d m] n]|]; [|exact IH].
  apply tidy_bind; [apply tidy_call_log | intro; apply tidy_ret].
Qed.

Lemma tidy_log_null {A : Type} (ctx : Js.StrategyContext) (category event : string) :
  tidy (Js.bind (Js.call_log ctx category event) (fun _ => Js.ret (@None A))).
Proof. apply tidy_bind; [apply tidy_call_log | intro; apply tidy_ret]. Qed.

(** The statements of the [try] block end in null, or end cleanly: in a
    value with no failure before it, or in the exception of their last
    step. *)
Lemma safe_selection (rt : Js.Runtime) (ctx : Js.StrategyContext) (sym : string)
    (direction : Direction) (equity : float) :
  safe (Js.selection rt ctx sym direction equity).
Proof.
  unfold Js.selection.
  apply safe_bind; [apply tidy_create|]. intro alpaca.
  apply safe_bind; [apply tidy_await|]. intros [[|e0 exps]|];
    try (apply safe_of_tidy; apply tidy_log_null).
  destruct (Js.validExpirations rt (Js.config ctx) (Js.Date_now rt) (e0 :: exps))
    as [|first rest]; [apply safe_of_tidy; apply tidy_log_null|].
  apply safe_bind; [apply tidy_await|]. intros [ch|];
    [|apply safe_of_tidy; apply tidy_log_null].
  destruct (Js.contracts_of direction ch) as [[|c0 contracts]|];
    try (apply safe_of_tidy; apply tidy_log_null).
  intro t. unfold Js.bind, Js.await_catch.
  destruct (Js.marketData_getSnapshot alpaca sym) as [snapshot|e].
  - cbn [Js.failure_of].
    destruct (Js.stockPrice snapshot =? 0)%float.
    + exists [Js.Called (GetUnderlyingSnapshot sym) None]. split; [reflexivity|].
      right. reflexivity.
    + destruct (tidy_probe ctx alpaca direction equity
                  (Js.bestExpiration rt (Js.config ctx) (Js.Date_now rt) (first :: rest) first)
                  (firstn 5 (Js.sortedContracts (c0 :: contracts)
                     (Js.targetStrike direction (Js.stockPrice snapshot) (Js.config ctx))))
                  (t ++ [Js.Called (GetUnderlyingSnapshot sym) None])) as [ext [E C]].
      exists (Js.Called (GetUnderlyingSnapshot sym) None :: ext).
      split; [rewrite E; now rewrite <- app_assoc|]. right.
      destruct (fst _) as [v|e]; simpl in *.
      * exact C.
      * destruct C as [ext' [ev [-> [Hev Hc]]]].
        exists (Js.Called (GetUnderlyingSnapshot sym) None :: ext'), ev. auto.
  - exists [Js.Called (GetUnderlyingSnapshot sym) (Some e)]. split; [reflexivity|].
    left. split; [reflexivity|]. now exists [], sym, e.
Qed.

Lemma js_handler_printable (ctx : Js.StrategyContext) (message : string) (t : Js.Trace) :
  Js.handler ctx (Js.printable message) t
  = (match Js.log ctx "Options" "error" with
     | None => Js.Resolved None
     | Some e => Js.Rejected e
     end,
     t ++ [Js.Logged "Options" "error" (Js.log ctx "Options" "error")]).
Proof.
  unfold Js.handler, Js.bind, Js.evaluate, Js.call_log, Js.ret. cbn [Js.String_of].
  destruct (Js.log ctx "Options" "error"); reflexivity.
Qed.

Lemma js_handler_unprintable (ctx : Js.StrategyContext) (raised : Js.Thrown) (t : Js.Trace) :
  Js.handler ctx (Js.unprintable raised) t = (Js.Rejected raised, t).
Proof. reflexivity. Qed.

(** C5, as the code has it: when the catch clause can report, that is
    when the logger returns on the error event and every exception raised
    in the run converts to a string, an invocation ends in a value, a
    contract or null, never in an exception; and when the factory or a
    provider call failed, that value is null. *)
Theorem never_throws (rt : Js.Runtime) (ctx : Js.StrategyContext) (sym : string)
    (direction : Direction) (equity : float) :
  Js.log ctx "Options" "error" = None ->
  (forall e, In e (thrown_in (snd (Js.invoke rt ctx sym direction equity))) ->
             exists message, e = Js.printable message) ->
  (exists result, fst (Js.invoke rt ctx sym direction equity) = Js.Resolved result)
  /\ (provider_failed (snd (Js.invoke rt ctx sym direction equity)) ->
      fst (Js.invoke rt ctx sym direction equity) = Js.Resolved None).
Proof.
  unfold Js.invoke, Js.findBestOptionsContract. intros Hlog Hprint.
  destruct (negb (Js.options_enabled (Js.config ctx))).
  - split; [now exists None | reflexivity].
  - unfold Js.try_catch in *.
    destruct (safe_selection rt ctx sym direction equity []) as [ext [E C]].
    destruct (Js.selection rt ctx sym direction equity []) as [[v|e] tr]; simpl in E, C.
    + split; [now exists v|]. simpl. intro Hf.
      destruct C as [[C _] | C]; [exact C|].
      apply provider_failed_thrown in Hf. subst tr. contradiction.
    + destruct C as [[C _] | [ext' [ev [-> [Hev Hc]]]]]; [discriminate|].
      assert (He : exists message, e = Js.printable message).
      { apply Hprint. subst tr.
        destruct e as [message|raised].
        - rewrite js_handler_printable. cbn [snd].
          rewrite !thrown_in_app. simpl. rewrite Hev.
          apply in_or_app. left. apply in_or_app. right. now left.
        - rewrite js_handler_unprintable. cbn [snd].
          rewrite thrown_in_app. simpl. rewrite Hev.
          apply in_or_app. right. now left. }
      destruct He as [message ->].
      rewrite js_handler_printable, Hlog.
      split; [now exists None | reflexivity].
Qed.

(** * Runs of the engine with a logger that may throw *)

Lemma logger_calls_app (t u : Js.Trace) :
  logger_calls (t ++ u) = logger_calls t ++ logger_calls u.
Proof.
  induction t as [|[f|c f|category event f] t IH]; simpl; [reflexivity|exact IH|exact IH|].
  now rewrite IH.
Qed.

Lemma thrown_in_In (tr : Js.Trace) (ev : Js.Event) (e : Js.Thrown) :
  In ev tr -> event_failure ev = Some e -> In e (thrown_in tr).
Proof.
  induction tr as [|ev' tr IH]; [intros []|].
  intros [-> | Hin] He; simpl.
  - rewrite He. now left.
  - destruct (event_failure ev'); [right|]; now apply IH.
Qed.

Lemma js_handler_eq (ctx : Js.StrategyContext) (e : Js.Thrown) (t : Js.Trace) :
  Js.handler ctx e t
  = (match Js.String_of e with
     | Js.Resolved _ =>
         match Js.log ctx "Options" "error" with
         | None => Js.Resolved None
         | Some e' => Js.Rejected e'
         end
     | Js.Rejected raised => Js.Rejected raised
     end,
     t ++ match Js.String_of e with
          | Js.Resolved _ => [Js.Logged "Options" "error" (Js.log ctx "Options" "error")]
          | Js.Rejected _ => []
          end).
Proof.
  destruct e as [message|raised]; cbn [Js.String_of].
  - apply js_handler_printable.
  - rewrite js_handler_unprintable. now rewrite app_nil_r.
Qed.

Lemma discreet_create (r : Js.outcome Js.AlpacaProviders) : discreet (Js.create r).
Proof. intro t. exists [Js.Created (Js.failure_of r)]. now split. Qed.

Lemma discreet_await {A : Type} (c : Call) (r : Js.outcome A) : discreet (Js.await c r).
Proof. intro t. exists [Js.Called c (Js.failure_of r)]. now split. Qed.

Lemma discreet_await_catch {A : Type} (c : Call) (r : Js.outcome A) (a : A) :
  discreet (Js.await_catch c r a).
Proof. intro t. exists [Js.Called c (Js.failure_of r)]. now split. Qed.

Lemma minuted_bind {A B : Type} (ctx : Js.StrategyContext) (m : Js.M A)
    (k : A -> Js.M (option B)) :
  discreet m -> (forall a, minuted ctx (k a)) -> minuted ctx (Js.bind m k).
Proof.
  intros Hm Hk t. unfold Js.bind.
  destruct (Hm t) as [ext1 [E1 L1]]. destruct (m t) as [[a|e] t1]; simpl in *; subst t1.
  - destruct (Hk a (t ++ ext1)) as [ext2 [E2 C2]]. exists (ext1 ++ ext2).
    split; [rewrite E2; now rewrite app_assoc|].
    destruct C2 as [[L2 N2] | [pre [event [-> [Lp C2]]]]].
    + left. split; [now rewrite logger_calls_app, L1, L2 | exact N2].
    + right. exists (ext1 ++ pre), event.
      split; [now rewrite app_assoc|]. split; [now rewrite logger_calls_app, L1, Lp|].
      exact C2.
  - exists ext1. split; [reflexivity|]. left. split; [exact L1 | discriminate].
Qed.

Lemma minuted_ret_null {A : Type} (ctx : Js.StrategyContext) :
  minuted ctx (Js.ret (@None A)).
Proof. intro t. exists []. split; [now rewrite app_nil_r|]. left. split; [reflexivity|discriminate]. Qed.

Lemma minuted_log_null {A : Type} (ctx : Js.StrategyContext) (event : string) :
  event <> "contract_selected"%string ->
  minuted ctx (Js.bind (Js.call_log ctx "Options" event) (fun _ => Js.ret (@None A))).
Proof.
  intros Hev t. exists [Js.Logged "Options" event (Js.log ctx "Options" event)].
  unfold Js.bind, Js.call_log, Js.ret.
  destruct (Js.log ctx "Options" event) as [e|] eqn:El; (split; [reflexivity|]);
    right; exists [], event; rewrite El; (split; [reflexivity|]);
    (split; [reflexivity|]); left; (split; [exact Hev | reflexivity]).
Qed.

Lemma minuted_probe (ctx : Js.StrategyContext) (alpaca : Js.AlpacaProviders)
    (direction : Direction) (equity : float) (bestExp : string)
    (candidates : list Js.OptionContract) :
  minuted ctx (Js.probe ctx alpaca direction equity bestExp candidates).
Proof.
  induction candidates as [|c rest IH]; [apply minuted_ret_null|].
  cbn [Js.probe]. apply minuted_bind; [apply discreet_await|].
  intro snap. destruct (Js.qualify (Js.config ctx) equity snap) as [[[d m] n]|]; [|exact IH].
  intro t. exists [Js.Logged "Options" "contract_selected"
                     (Js.log ctx "Options" "contract_selected")].
  unfold Js.bind, Js.call_log, Js.ret.
  destruct (Js.log ctx "Options" "contract_selected") as [e|] eqn:El;
    (split; [reflexivity|]); right; exists [], "contract_selected"%string; rewrite El;
    (split; [reflexivity|]); (split; [reflexivity|]); right; (split; [reflexivity|]);
    exists (Js.mkOptionsContract (Js.contract_symbol c) (Js.contract_strike c) bestExp
              d m n (option_type_of direction)); reflexivity.
Qed.

(** The statements of the [try] block call the logger at most once, as
    their last step. *)
Lemma minuted_selection (rt : Js.Runtime) (ctx : Js.StrategyContext) (sym : string)
    (direction : Direction) (equity : float) :
  minuted ctx (Js.selection rt ctx sym direction equity).
Proof.
  unfold Js.selection.
  apply minuted_bind; [apply discreet_create|]. intro alpaca.
  apply minuted_bind; [apply discreet_await|]. intros [[|e0 exps]|];
    try (apply minuted_log_null; discriminate).
  destruct (Js.validExpirations rt (Js.config ctx) (Js.Date_now rt) (e0 :: exps))
    as [|first rest]; [apply minuted_log_null; discriminate|].
  apply minuted_bind; [apply discreet_await|]. intros [ch|];
    [|apply minuted_log_null; discriminate].
  destruct (Js.contracts_of direction ch) as [[|c0 contracts]|];
    try (apply minuted_log_null; discriminate).
  apply minuted_bind; [apply discreet_await_catch|]. intro snapshot.
  cbv zeta. destruct (Js.stockPrice snapshot =? 0)%float;
    [apply minuted_ret_null | apply minuted_probe].
Qed.

(** A rejected provider call other than the request for the underlying
    snapshot, which is caught in place, is the last provider call of the
    invocation and its first failure: the catch clause takes over.  It
    converts the exception to a string; if that throws, the invocation ends
    in this new exception; otherwise it calls the logger with the error
    event and the invocation ends in null when the logger returns and in
    the exception of the logger when it throws. *)
Theorem failure_ends_run (rt : Js.Runtime) (ctx : Js.StrategyContext) (sym : string)
    (direction : Direction) (equity : float) (c : Call) (e : Js.Thrown) :
  In (Js.Called c (Some e)) (snd (Js.invoke rt ctx sym direction equity)) ->
  (forall s, c <> GetUnderlyingSnapshot s) ->
  exists before,
    thrown_in before = []
    /\ Js.invoke rt ctx sym direction equity
       = (match e with
          | Js.printable _ =>
              match Js.log ctx "Options" "error" with
              | None => Js.Resolved None
              | Some e' => Js.Rejected e'
              end
          | Js.unprintable raised => Js.Rejected raised
          end,
          before ++ Js.Called c (Some e)
            :: match e with
               | Js.printable _ =>
                   [Js.Logged "Options" "error" (Js.log ctx "Options" "error")]
               | Js.unprintable _ => []
               end).
Proof.
  unfold Js.invoke, Js.findBestOptionsContract.
  destruct (negb (Js.options_enabled (Js.config ctx))); [intros []|].
  unfold Js.try_catch.
  destruct (safe_selection rt ctx sym direction equity []) as [ext [E C]].
  destruct (Js.selection rt ctx sym direction equity []) as [[v|e1] tr];
    cbn [fst snd] in E, C |- *; cbn [app] in E; subst tr.
  - intros Hin Hc. exfalso.
    destruct C as [[_ [pre [s [e' [-> Hpre]]]]] | C].
    + apply in_app_or in Hin. destruct Hin as [Hin | [Heq | []]].
      * apply (thrown_in_In _ _ e) in Hin; [|reflexivity]. rewrite Hpre in Hin. exact Hin.
      * injection Heq as <- _. now apply (Hc s).
    + apply (thrown_in_In _ _ e) in Hin; [|reflexivity]. rewrite C in Hin. exact Hin.
  - destruct C as [[C _] | [ext' [ev [-> [Hev Hc']]]]]; [discriminate|].
    rewrite js_handler_eq. cbn [snd]. intros Hin Hc.
    assert (Hev' : ev = Js.Called c (Some e)).
    { apply in_app_or in Hin. destruct Hin as [Hin | Hin].
      - apply in_app_or in Hin. destruct Hin as [Hin | [Heq | []]].
        + apply (thrown_in_In _ _ e) in Hin; [|reflexivity]. rewrite Hc' in Hin.
          destruct Hin.
        + exact Heq.
      - destruct (Js.String_of e1);
          [destruct Hin as [Heq | []]; discriminate Heq | destruct Hin]. }
    subst ev. cbn [event_failure] in Hev. injection Hev as <-.
    exists ext'. split; [exact Hc'|].
    destruct e as [message|raised]; cbn [Js.String_of]; now rewrite <- app_assoc.
Qed.

(** An invocation calls the logger at most twice; a second call is the
    error event of the catch clause and follows a first call that threw.
    The invocation returns a contract exactly when its only call of the
    logger is the selection event and the logger returned. *)
Theorem logger_calls_per_run (rt : Js.Runtime) (ctx : Js.StrategyContext) (sym : string)
    (direction : Direction) (equity : float) :
  (List.length (logger_calls (snd (Js.invoke rt ctx sym direction equity))) <= 2)%nat
  /\ (forall first second rest,
        logger_calls (snd (Js.invoke rt ctx sym direction equity))
          = first :: second :: rest ->
        rest = []
        /\ second = ("Options"%string, "error"%string, Js.log ctx "Options" "error")
        /\ exists e, snd first = Some e)
  /\ ((exists r, fst (Js.invoke rt ctx sym direction equity) = Js.Resolved (Some r))
      <-> logger_calls (snd (Js.invoke rt ctx sym direction equity))
          = [("Options"%string, "contract_selected"%string, None)]).
Proof.
  unfold Js.invoke, Js.findBestOptionsContract.
  destruct (negb (Js.options_enabled (Js.config ctx))).
  { cbn. split; [lia|]. split; [discriminate|].
    split; [intros [r Hr]; discriminate Hr | discriminate]. }
  unfold Js.try_catch.
  destruct (minuted_selection rt ctx sym direction equity []) as [ext [E C]].
  destruct (Js.selection rt ctx sym direction equity []) as [[v|e1] tr];
    cbn [fst snd] in E, C |- *; cbn [app] in E; subst tr.
  - destruct C as [[L N] | [pre [event [-> [Lp C]]]]].
    + rewrite L. cbn. split; [lia|]. split; [discriminate|].
      split; [intros [r Hr]; injection Hr as ->; now destruct (N r) | discriminate].
    + rewrite logger_calls_app, Lp. cbn. split; [lia|]. split; [discriminate|].
      destruct C as [[Hne C] | [-> [r C]]];
        destruct (Js.log ctx "Options" _) as [e|]; try discriminate C;
        injection C as ->.
      * split; [intros [r Hr]; discriminate Hr|].
        intro H. exfalso. apply Hne. congruence.
      * split; [intros _; reflexivity | intros _; now exists r].
  - rewrite js_handler_eq. cbn [fst snd]. rewrite logger_calls_app.
    destruct C as [[L N] | [pre [event [-> [Lp C]]]]].
    + rewrite L. destruct (Js.String_of e1); cbn.
      * split; [lia|]. split; [discriminate|].
        split; [intros [r Hr]; destruct (Js.log ctx "Options" "error"); discriminate Hr
               | discriminate].
      * split; [lia|]. split; [discriminate|].
        split; [intros [r Hr]; discriminate Hr | discriminate].
    + rewrite logger_calls_app, Lp.
      assert (Hl : Js.log ctx "Options" event = Some e1).
      { destruct C as [[_ C] | [_ [r C]]];
          destruct (Js.log ctx "Options" event); (discriminate C || now injection C as ->). }
      rewrite Hl. destruct (Js.String_of e1); cbn.
      * split; [lia|]. split.
        { intros first second rest H. injection H as <- <- <-.
          split; [reflexivity|]. split; [reflexivity|]. now exists e1. }
        split; [intros [r Hr]; destruct (Js.log ctx "Options" "error"); discriminate Hr
               | discriminate].
      * split; [lia|]. split; [discriminate|].
        split; [intros [r Hr]; discriminate Hr | discriminate].
Qed.

(** With options enabled, when getExpirations resolves to null, to an
    empty list or to a list with no expiration inside the DTE window, the
    engine makes that one provider call and calls the logger with
    no_expirations (null or empty list) or no_valid_expirations.  When the
    logger returns the invocation ends in null.  When it throws, the catch
    clause converts the exception to a string and calls the logger again,
    with the error event: the invocation ends in null if this call returns
    and in its exception if it throws; and in the exception of the
    conversion when that fails. *)
Theorem no_expirations_run (rt : Js.Runtime) (ctx : Js.StrategyContext)
    (alpaca : Js.AlpacaProviders) (sym : string) (direction : Direction) (equity : float)
    (listed : option (list string)) (event : string) :
  Js.options_enabled (Js.config ctx) = true ->
  Js.env ctx = Js.Resolved alpaca ->
  Js.options_getExpirations alpaca sym = Js.Resolved listed ->
  (forall exps, listed = Some exps ->
     Js.validExpirations rt (Js.config ctx) (Js.Date_now rt) exps = []) ->
  event = match listed with
          | None | Some [] => "no_expirations"%string
          | Some (_ :: _) => "no_valid_expirations"%string
          end ->
  Js.invoke rt ctx sym direction equity
  = match Js.log ctx "Options" event with
    | None =>
        (Js.Resolved None,
         [Js.Created None; Js.Called (GetExpirations sym) None;
          Js.Logged "Options" event None])
    | Some (Js.printable message) =>
        (match Js.log ctx "Options" "error" with
         | None => Js.Resolved None
         | Some e => Js.Rejected e
         end,
         [Js.Created None; Js.Called (GetExpirations sym) None;
          Js.Logged "Options" event (Some (Js.printable message));
          Js.Logged "Options" "error" (Js.log ctx "Options" "error")])
    | Some (Js.unprintable raised) =>
        (Js.Rejected raised,
         [Js.Created None; Js.Called (GetExpirations sym) None;
          Js.Logged "Options" event (Some (Js.unprintable raised))])
    end.
Proof.
  intros Hen Henv Hexp Hvalid ->.
  unfold Js.invoke, Js.findBestOptionsContract, Js.try_catch, Js.selection.
  rewrite Hen. cbn [negb].
  unfold Js.bind at 1. unfold Js.create. rewrite Henv. cbn [Js.failure_of app].
  unfold Js.bind at 1. unfold Js.await. rewrite Hexp. cbn [Js.failure_of app].
  assert (Hlog : forall ev,
            match Js.bind (Js.call_log ctx "Options" ev)
                          (fun _ => Js.ret (@None Js.OptionsContract))
                          [Js.Created None; Js.Called (GetExpirations sym) None] with
            | (Js.Resolved a, t') => (Js.Resolved a, t')
            | (Js.Rejected e, t') => Js.handler ctx e t'
            end
            = match Js.log ctx "Options" ev with
              | None =>
                  (Js.Resolved None,
                   [Js.Created None; Js.Called (GetExpirations sym) None;
                    Js.Logged "Options" ev None])
              | Some (Js.printable message) =>
                  (match Js.log ctx "Options" "error" with
                   | None => Js.Resolved None
                   | Some e => Js.Rejected e
                   end,
                   [Js.Created None; Js.Called (GetExpirations sym) None;
                    Js.Logged "Options" ev (Some (Js.printable message));
                    Js.Logged "Options" "error" (Js.log ctx "Options" "error")])
              | Some (Js.unprintable raised) =>
                  (Js.Rejected raised,
                   [Js.Created None; Js.Called (GetExpirations sym) None;
                    Js.Logged "Options" ev (Some (Js.unprintable raised))])
              end).
  { intro ev. unfold Js.bind, Js.call_log, Js.ret.
    destruct (Js.log ctx "Options" ev) as [[message|raised]|]; cbn [app].
    - now rewrite js_handler_printable.
    - reflexivity.
    - reflexivity. }
  destruct listed as [[|e0 exps]|]; [apply Hlog | | apply Hlog].
  cbv zeta. rewrite (Hvalid (e0 :: exps) eq_refl). apply Hlog.
Qed.

(** * The worked market on binary64 numbers *)

(** [Math.floor] and [Math.ceil] on some values. *)
Example example_Math_floor :
  Js.Math_floor 1.04 = 1%float
  /\ Js.Math_floor 0.83 = 0%float
  /\ Js.Math_floor (-0.5) = (-1)%float
  /\ Js.Math_floor (-3) = (-3)%float
  /\ Js.Math_floor 4503599627370495.5 = 4503599627370495%float
  /\ Js.Math_floor infinity = infinity
  /\ Js.Math_ceil 13.25 = 14%float
  /\ Js.Math_ceil (-13.25) = (-13)%float
  /\ Js.Math_ceil 21 = 21%float.
Proof. repeat (split; [vm_compute; reflexivity|]). vm_compute. reflexivity. Qed.

(** The run of the example: the 94 strike is fetched first and turned down
    on its size, the 98 strike is returned. *)
Example js_example_run :
  Js.invoke js_runtime js_ctx "AAPL" bullish 10000
  = (Js.Resolved (Some {| Js.symbol := "AAPL240322C00098000";
                          Js.strike := 98;
                          Js.expiration := "2024-03-22";
                          Js.delta := Js.delta_number 0.55;
                          Js.mid_price := 4.8;
                          Js.max_contracts := 1;
                          Js.option_type := call |}),
     [Js.Created None;
      Js.Called (GetExpirations "AAPL") None;
      Js.Called (GetChain "AAPL" "2024-03-22") None;
      Js.Called (GetUnderlyingSnapshot "AAPL") None;
      Js.Called (GetOptionSnapshot "AAPL240322C00094000") None;
      Js.Called (GetOptionSnapshot "AAPL240322C00098000") None;
      Js.Logged "Options" "contract_selected" None]).
Proof. vm_compute. reflexivity. Qed.

(** A quote of 0.09 / 0.10: the spread the code computes is
    0.10000000000000009, above 0.1, and the candidate is turned down. *)
Example example_penny_quote :
  spread_of (js_quoted (Js.delta_number 0.5) 0.09 0.1) = 0.10000000000000009%float
  /\ (0.1 <? spread_of (js_quoted (Js.delta_number 0.5) 0.09 0.1))%float = true
  /\ Js.qualify js_config 10000 (Some (js_quoted (Js.delta_number 0.5) 0.09 0.1)) = None.
Proof. repeat (split; [vm_compute; reflexivity|]). vm_compute. reflexivity. Qed.

(** A delta that is [null] is not [undefined]: it counts as a magnitude of
    0, below a positive [options_min_delta]; with a band that starts at 0
    the candidate is selected, with a [null] delta. *)
Example example_null_delta :
  Js.qualify js_config 10000 (Some (js_quoted Js.delta_null 4.75 4.85)) = None
  /\ Js.qualify js_wide_config 10000 (Some (js_quoted Js.delta_null 4.75 4.85))
     = Some (Js.delta_null, 4.8%float, 1%float)
  /\ Js.qualify js_wide_config 10000 (Some (js_quoted Js.delta_undefined 4.75 4.85)) = None.
Proof. repeat (split; [vm_compute; reflexivity|]). vm_compute. reflexivity. Qed.

(** Two runs.  In the first the 98 strike passes every gate and is the
    first to do so, but the logger throws on the selection event: the loop
    ends in that exception and the invocation in null, not in the contract.
    In the second the delta of the 94 strike is [null] and the band starts
    at 0: the contract is returned, with a [null] delta. *)
Lemma selected_candidate_not_returned :
  (Js.options_getSnapshot js_providers "AAPL240322C00098000"
   = Js.Resolved (Some (js_quoted (Js.delta_number 0.55) 4.75 4.85))
   /\ ~ gate_rejected js_config 10000 (Some (js_quoted (Js.delta_number 0.55) 4.75 4.85))
   /\ Js.probe js_selection_ctx js_providers bullish 10000 "2024-03-22"
        [Js.mkOptionContract "AAPL240322C00098000" 98;
         Js.mkOptionContract "AAPL240322C00100000" 100] []
      = (Js.Rejected (Js.printable "logger down"),
         [Js.Called (GetOptionSnapshot "AAPL240322C00098000") None;
          Js.Logged "Options" "contract_selected" (Some (Js.printable "logger down"))])
   /\ Js.invoke js_runtime js_selection_ctx "AAPL" bullish 10000
      = (Js.Resolved None,
         [Js.Created None;
          Js.Called (GetExpirations "AAPL") None;
          Js.Called (GetChain "AAPL" "2024-03-22") None;
          Js.Called (GetUnderlyingSnapshot "AAPL") None;
          Js.Called (GetOptionSnapshot "AAPL240322C00094000") None;
          Js.Called (GetOptionSnapshot "AAPL240322C00098000") None;
          Js.Logged "Options" "contract_selected" (Some (Js.printable "logger down"));
          Js.Logged "Options" "error" None]))
  /\ Js.invoke js_runtime js_null_delta_ctx "AAPL" bullish 10000
     = (Js.Resolved (Some {| Js.symbol := "AAPL240322C00094000";
                             Js.strike := 94;
                             Js.expiration := "2024-03-22";
                             Js.delta := Js.delta_null;
                             Js.mid_price := 4.8;
                             Js.max_contracts := 1;
                             Js.option_type := call |}),
        [Js.Created None;
         Js.Called (GetExpirations "AAPL") None;
         Js.Called (GetChain "AAPL" "2024-03-22") None;
         Js.Called (GetUnderlyingSnapshot "AAPL") None;
         Js.Called (GetOptionSnapshot "AAPL240322C00094000") None;
         Js.Logged "Options" "contract_selected" None]).
Proof.
  split; [|vm_compute; reflexivity].
  split; [reflexivity|]. split; [|split; vm_compute; reflexivity].
  intro H. cbn [gate_rejected js_quoted Js.greeks Js.greeks_delta] in H.
  repeat (destruct H as [H | H]; [vm_compute in H; discriminate H|]).
  vm_compute in H. discriminate H.
Qed.

(** The loop on the example: the 94 strike is turned down, the 98 strike
    is returned, the 100 strike is not fetched. *)
Lemma qualifier_first_passing_witness :
  Js.probe js_ctx js_providers bullish 10000 "2024-03-22"
    ([Js.mkOptionContract "AAPL240322C00094000" 94]
       ++ Js.mkOptionContract "AAPL240322C00098000" 98
       :: [Js.mkOptionContract "AAPL240322C00100000" 100]) []
  = (Js.Resolved (Some {| Js.symbol := "AAPL240322C00098000";
                          Js.strike := 98;
                          Js.expiration := "2024-03-22";
                          Js.delta := Js.delta_number 0.55;
                          Js.mid_price := 4.8;
                          Js.max_contracts := 1;
                          Js.option_type := call |}),
     [Js.Called (GetOptionSnapshot "AAPL240322C00094000") None;
      Js.Called (GetOptionSnapshot "AAPL240322C00098000") None;
      Js.Logged "Options" "contract_selected" None]).
Proof.
  destruct (qualifier_first_passing js_ctx js_providers bullish 10000 "2024-03-22" [])
    as (_ & H & _).
  destruct (H [Js.mkOptionContract "AAPL240322C00094000" 94]
              (Js.mkOptionContract "AAPL240322C00098000" 98)
              [Js.mkOptionContract "AAPL240322C00100000" 100]
              (Some (js_quoted (Js.delta_number 0.55) 4.75 4.85)))
    as (s & g & Es & Eg & Ep).
  - intros c' [<- | []].
    exists (Some (js_quoted (Js.delta_number 0.62) 5.9 6.1)).
    split; [reflexivity|].
    cbn [gate_rejected js_quoted Js.greeks Js.greeks_delta].
    do 5 right. vm_compute. reflexivity.
  - reflexivity.
  - intro Hr. cbn [gate_rejected js_quoted Js.greeks Js.greeks_delta] in Hr.
    repeat (destruct Hr as [Hr | Hr]; [vm_compute in Hr; discriminate Hr|]).
    vm_compute in Hr. discriminate Hr.
  - injection Es as <-. injection Eg as <-. rewrite Ep. vm_compute. reflexivity.
Defined.


(** The chain request fails and the logger returns: the invocation ends in
    null. *)
Example js_failing_run :
  Js.invoke js_runtime js_failing_ctx "AAPL" bullish 10000
  = (Js.Resolved None,
     [Js.Created None;
      Js.Called (GetExpirations "AAPL") None;
      Js.Called (GetChain "AAPL" "2024-03-22")
                (Some (Js.printable "503 Service Unavailable"));
      Js.Logged "Options" "error" None]).
Proof. vm_compute. reflexivity. Qed.

Lemma never_throws_witness :
  fst (Js.invoke js_runtime js_failing_ctx "AAPL" bullish 10000) = Js.Resolved None.
Proof.
  apply (never_throws js_runtime js_failing_ctx "AAPL" bullish 10000).
  - reflexivity.
  - intros e He. vm_compute in He. destruct He as [<- | []].
    exists "503 Service Unavailable"%string. reflexivity.
  - exists (Js.printable "503 Service Unavailable"). right.
    exists (GetChain "AAPL" "2024-03-22"). vm_compute. do 2 right. left. reflexivity.
Defined.

(** Two runs that end in an exception.  In the first no expiration is
    listed and the logger throws: the exception of the [no_expirations]
    call reaches the catch clause, whose own call of the logger throws
    again.  In the second a request is rejected with a value that [String]
    cannot convert: the catch clause throws before it calls the logger. *)
Lemma logger_exception_escapes :
  Js.invoke js_runtime js_throwing_ctx "AAPL" bullish 10000
  = (Js.Rejected (Js.printable "logger down"),
     [Js.Created None;
      Js.Called (GetExpirations "AAPL") None;
      Js.Logged "Options" "no_expirations" (Some (Js.printable "logger down"));
      Js.Logged "Options" "error" (Some (Js.printable "logger down"))])
  /\ Js.invoke js_runtime js_unprintable_ctx "AAPL" bullish 10000
     = (Js.Rejected (Js.printable "TypeError: Cannot convert object to primitive value"),
        [Js.Created None;
         Js.Called (GetExpirations "AAPL")
                   (Some (Js.unprintable
                            (Js.printable
                               "TypeError: Cannot convert object to primitive value")))]).
Proof. split; vm_compute; reflexivity. Qed.

(** Strikes 118.45 and 128.45 around a target of 123.45: the distances the
    comparator computes are 5 and 4.999999999999986, and the higher strike
    is ranked first. *)
Example example_near_tie :
  abs (118.45 - 123.45)%float = 5%float
  /\ abs (128.45 - 123.45)%float = 4.999999999999986%float
  /\ Js.sortedContracts js_pair 123.45
     = [Js.mkOptionContract "AAPL240322C00128450" 128.45;
        Js.mkOptionContract "AAPL240322C00118450" 118.45].
Proof. repeat (split; [vm_compute; reflexivity|]). vm_compute. reflexivity. Qed.

(** The ranking of the example around 96: the strike of 0 is left out,
    94 and 98 come first, 94 before 98. *)
Lemma ranking_stable_by_distance_witness :
  map Js.contract_strike (Js.sortedContracts js_calls 96)
  = [94; 98; 100; 90; 105; 85; 110]%float
  /\ exists r1 r2 r3,
       Js.sortedContracts js_calls 96
       = r1 ++ Js.mkOptionContract "AAPL240322C00094000" 94
            :: r2 ++ Js.mkOptionContract "AAPL240322C00098000" 98 :: r3.
Proof.
  split; [vm_compute; reflexivity|].
  destruct (ranking_stable_by_distance js_calls 96) as (_ & _ & _ & _ & H).
  apply (H _ _ [Js.mkOptionContract "AAPL240322C00090000" 90] []
           [Js.mkOptionContract "AAPL240322C00100000" 100;
            Js.mkOptionContract "AAPL240322C00105000" 105;
            Js.mkOptionContract "AAPL240322C00110000" 110;
            Js.mkOptionContract "AAPL240322C00085000" 85]);
    vm_compute; reflexivity.
Defined.

(** The failed chain request of the example is the last provider call; the
    error event follows and the invocation ends in null. *)
Lemma failure_ends_run_witness :
  exists before,
    thrown_in before = []
    /\ Js.invoke js_runtime js_failing_ctx "AAPL" bullish 10000
       = (Js.Resolved None,
          before
            ++ [Js.Called (GetChain "AAPL" "2024-03-22")
                          (Some (Js.printable "503 Service Unavailable"));
                Js.Logged "Options" "error" None]).
Proof.
  destruct (failure_ends_run js_runtime js_failing_ctx "AAPL" bullish 10000
              (GetChain "AAPL" "2024-03-22") (Js.printable "503 Service Unavailable"))
    as [before [Hb E]].
  - vm_compute. do 2 right. left. reflexivity.
  - discriminate.
  - exists before. split; [exact Hb | exact E].
Defined.

(** No expiration is listed and the logger throws on both calls: the
    invocation ends in the exception of the second. *)
Lemma no_expirations_run_witness :
  Js.invoke js_runtime js_throwing_ctx "AAPL" bullish 10000
  = (Js.Rejected (Js.printable "logger down"),
     [Js.Created None;
      Js.Called (GetExpirations "AAPL") None;
      Js.Logged "Options" "no_expirations" (Some (Js.printable "logger down"));
      Js.Logged "Options" "error" (Some (Js.printable "logger down"))]).
Proof.
  refine (no_expirations_run js_runtime js_throwing_ctx _ "AAPL" bullish 10000
            (Some []) "no_expirations" eq_refl eq_refl eq_refl _ eq_refl).
  intros exps H. injection H as <-. reflexivity.
Defined.
